(** * A shallow embedding of [movie.py], the hybrid movie recommender

    The scoring pipeline of the program is embedded function by function:
    [cosine_sim], [build_tfidf], [build_user_profile], [predict_cf],
    [predict_cb], [hybrid_scores], [apply_prompt_boost] and the POST branch
    of [index].

    Modelling choices.
    - The pipeline is read in exact arithmetic: a Python number is a real
      number ([R]), an [int] injected with [IZR], a [float] the real it
      denotes.  This reading tells which items are scored, in which order
      and by which expression.  It has no rounding, no NaN and no
      [OverflowError]: what is stated about [index] returning is stated for
      ratings whose square has a float value ([Binary64.fits_float]), the
      ratings on which [math.sqrt] in [cosine_sim] does not overflow.
    - The similarity kernel [cosine_sim] is embedded a second time, in
      [Binary64], on Python's own numbers: unbounded [int]s and IEEE 754
      binary64 [float]s with round-to-nearest-even, and [OverflowError],
      [ValueError] and [ZeroDivisionError] told apart.  What is stated
      about the number the kernel returns is stated there.
    - A Python [dict] is an association list in insertion order, because the
      order of a score map is observable ([sorted], slicing, iteration).
    - A call that may raise returns in the error monad [Py.result]: [None]
      stands for a raised exception ([ZeroDivisionError], [ValueError] of
      [math.sqrt] and [math.log], [StopIteration] of [next]).
    - A Python [str] is a [string]; [lower] and [strip] are modelled on the
      ASCII range, which covers the catalog; [isascii] tells the movie names
      on which they are Python's. *)

From Stdlib Require Import List String Ascii Bool Arith ZArith Lia.
From Stdlib Require Import Reals Lra Permutation Sorted.
From Stdlib Require Floats Uint63.
Import ListNotations.

Set Implicit Arguments.

(* ================================================================== *)
(** * Python primitives *)
(* ================================================================== *)

Module Py.

(** ** Exceptions *)

Definition result (A : Type) : Type := option A.

Definition ret {A : Type} (x : A) : result A := Some x.

Definition raise {A : Type} : result A := None.

Definition bind {A B : Type} (e : result A) (k : A -> result B) : result B :=
  match e with
  | Some x => k x
  | None => None
  end.

Notation "x <- e ;; k" := (bind e (fun x => k))
  (at level 61, e at next level, right associativity).

(** A [for] loop whose body may raise, threading the loop state. *)
Fixpoint for_each {A S : Type} (body : S -> A -> result S) (l : list A) (s : S)
  : result S :=
  match l with
  | [] => ret s
  | x :: l' => s' <- body s x ;; for_each body l' s'
  end.

(** A list or dict comprehension whose expression may raise. *)
Fixpoint comprehension {A B : Type} (f : A -> result B) (l : list A)
  : result (list B) :=
  match l with
  | [] => ret []
  | x :: l' => y <- f x ;; ys <- comprehension f l' ;; ret (y :: ys)
  end.

(** ** Numbers *)

Open Scope R_scope.

(** [x == y], [x > y] and [x >= y] *)
Definition eqb (x y : R) : bool := if Req_dec_T x y then true else false.

Definition gtb (x y : R) : bool := if Rgt_dec x y then true else false.

Definition geb (x y : R) : bool := if Rge_dec x y then true else false.

(** Truth value of a number: [0] is false. *)
Definition truthy (x : R) : bool := negb (eqb x 0).

(** [x / y] raises [ZeroDivisionError] when [y] is [0]. *)
Definition div (x y : R) : result R :=
  if Req_dec_T y 0 then raise else ret (x / y).

(** [math.sqrt(x)] raises [ValueError] on a negative argument.  (On an
    [int] without a float value it raises [OverflowError]: see
    [Binary64.math_sqrt].) *)
Definition math_sqrt (x : R) : result R :=
  if Rlt_dec x 0 then raise else ret (sqrt x).

(** [math.log(x)] raises [ValueError] unless [x] is positive. *)
Definition math_log (x : R) : result R :=
  if Rlt_dec 0 x then ret (ln x) else raise.

(** [sum(...)] *)
Definition sum (l : list R) : R := fold_left Rplus l 0.

Close Scope R_scope.

(** ** Dictionaries *)

Class Hashable (K : Type) := key_eq_dec : forall x y : K, {x = y} + {x <> y}.

#[export] Instance Hashable_Z : Hashable Z := Z.eq_dec.
#[export] Instance Hashable_string : Hashable string := string_dec.

Definition dict (K V : Type) : Type := list (K * V).

Section Dict.
Context {K V : Type} `{Hashable K}.

(** [d.get(k)], with [None] for a missing key. *)
Fixpoint lookup (d : dict K V) (k : K) : option V :=
match d with
| [] => None
| (k', v) :: d' => if key_eq_dec k k' then Some v else lookup d' k
end.

(** [d.get(k, default)] *)
Definition get (d : dict K V) (k : K) (default : V) : V :=
match lookup d k with
| Some v => v
| None => default
end.

(** [k in d] *)
Definition contains (d : dict K V) (k : K) : bool :=
match lookup d k with
| Some _ => true
| None => false
end.

(** [d[k] = v]: an existing key keeps its position, a new one goes last. *)
Fixpoint set (d : dict K V) (k : K) (v : V) : dict K V :=
match d with
| [] => [(k, v)]
| (k', v') :: d' =>
    if key_eq_dec k k' then (k', v) :: d' else (k', v') :: set d' k v
end.

Definition keys (d : dict K V) : list K := map fst d.

Definition values (d : dict K V) : list V := map snd d.

(** [dict(pairs)] *)
Definition of_items (l : list (K * V)) : dict K V :=
fold_left (fun d kv => set d (fst kv) (snd kv)) l [].
End Dict.

(** [set(l)]: the distinct elements of [l].  Python fixes no iteration order
    for a set; every use below is independent of it. *)
Definition set_of {K : Type} `{Hashable K} (l : list K) : list K :=
  nodup key_eq_dec l.

(** [set(a) | set(b)] *)
Definition union {K : Type} `{Hashable K} (a b : list K) : list K :=
  nodup key_eq_dec (a ++ b).

(** ** Sorting *)

(** [sorted(l, key=key, reverse=True)]: Python's sort is stable, also with
    [reverse=True]; elements with equal keys keep their relative order. *)
Fixpoint insert_desc {A : Type} (key : A -> R) (x : A) (l : list A) : list A :=
  match l with
  | [] => [x]
  | y :: l' =>
      if Rle_dec (key y) (key x) then x :: y :: l'
      else y :: insert_desc key x l'
  end.

Definition sorted_desc {A : Type} (key : A -> R) (l : list A) : list A :=
  fold_right (insert_desc key) [] l.

(** ** Strings *)

Definition lower_ascii (c : ascii) : ascii :=
  let n := nat_of_ascii c in
  if (65 <=? n)%nat && (n <=? 90)%nat then ascii_of_nat (n + 32) else c.

(** [s.lower()] *)
Fixpoint lower (s : string) : string :=
  match s with
  | EmptyString => EmptyString
  | String c s' => String (lower_ascii c) (lower s')
  end.

Definition is_space (c : ascii) : bool :=
  let n := nat_of_ascii c in
  ((9 <=? n)%nat && (n <=? 13)%nat) || ((28 <=? n)%nat && (n <=? 32)%nat).

Fixpoint lstrip (s : string) : string :=
  match s with
  | EmptyString => EmptyString
  | String c s' => if is_space c then lstrip s' else s
  end.

Fixpoint rstrip (s : string) : string :=
  match s with
  | EmptyString => EmptyString
  | String c s' =>
      match rstrip s' with
      | EmptyString => if is_space c then EmptyString else String c EmptyString
      | r => String c r
      end
  end.

(** [s.strip()] *)
Definition strip (s : string) : string := rstrip (lstrip s).

(** [q in hay]: [q] occurs in [hay] as a contiguous substring. *)
Fixpoint str_in (q hay : string) : bool :=
  if prefix q hay then true
  else match hay with
       | EmptyString => false
       | String _ hay' => str_in q hay'
       end.

(** [s.isascii()]: every character is below 128. *)
Fixpoint isascii (s : string) : bool :=
  match s with
  | EmptyString => true
  | String c s' => (nat_of_ascii c <? 128)%nat && isascii s'
  end.

(** [sep.join(l)] *)
Definition join (sep : string) (l : list string) : string := concat sep l.

End Py.

Import Py.

(* ================================================================== *)
(** * The sample dataset *)
(* ================================================================== *)

Record movie := Movie {
  movie_id : Z;
  movie_title : string;
  movie_year : Z;
  movie_genres : list string;
  movie_tags : list string
}.

Record peer := Peer {
  peer_userId : string;
  peer_ratings : dict Z R
}.

Open Scope string_scope.

Definition MOVIES : list movie := [
  Movie 1 "Inception" 2010 ["Action"; "Sci-Fi"; "Thriller"]
        ["dream"; "heist"; "mind-bending"; "nolan"];
  Movie 2 "The Dark Knight" 2008 ["Action"; "Crime"; "Drama"]
        ["batman"; "joker"; "nolan"];
  Movie 3 "Interstellar" 2014 ["Adventure"; "Drama"; "Sci-Fi"]
        ["space"; "time"; "nolan"; "wormhole"];
  Movie 4 "The Matrix" 1999 ["Action"; "Sci-Fi"]
        ["simulation"; "kung fu"; "ai"];
  Movie 5 "Parasite" 2019 ["Drama"; "Thriller"]
        ["class"; "korean"; "academy awards"]
].

Definition COMMUNITY : list peer := [
  Peer "u_alex" [(1%Z, 5%R); (2%Z, 5%R); (3%Z, 5%R); (4%Z, 5%R)];
  Peer "u_bianca" [(5%Z, 5%R); (3%Z, 4%R)]
].

(** [[mv["id"] for mv in MOVIES]] *)
Definition MOVIE_IDS : list Z := map movie_id MOVIES.

Close Scope string_scope.
Open Scope R_scope.

(* ================================================================== *)
(** * Utils: [cosine_sim] *)
(* ================================================================== *)

(** One turn of the loop of [cosine_sim] over the key [k]; the state is
    [(dot, na, nb)]. *)
Definition cosine_step {K : Type} `{Hashable K} (a b : dict K R)
  (s : R * R * R) (k : K) : R * R * R :=
  let va := get a k 0 in
  let vb := get b k 0 in
  (fst (fst s) + va * vb, snd (fst s) + va * va, snd s + vb * vb).

(** The three accumulators when the loop ends. *)
Definition cosine_acc {K : Type} `{Hashable K} (a b : dict K R) : R * R * R :=
  fold_left (cosine_step a b) (union (keys a) (keys b)) (0, 0, 0).

Definition cosine_sim {K : Type} `{Hashable K} (a b : dict K R) : result R :=
  let s := cosine_acc a b in
  let dot := fst (fst s) in
  let na := snd (fst s) in
  let nb := snd s in
  if eqb na 0 || eqb nb 0 then ret 0
  else
    ra <- math_sqrt na ;;
    rb <- math_sqrt nb ;;
    div dot (ra * rb).

(* ================================================================== *)
(** * TF-IDF: [build_tfidf] and [build_user_profile] *)
(* ================================================================== *)

(** [[t.lower() for t in (m["genres"] + m["tags"])]] *)
Definition tokens_of (m : movie) : list string :=
  map lower (movie_genres m ++ movie_tags m)%list.

(** [d[t] += 1] on a [defaultdict(int)] *)
Definition incr (d : dict string Z) (t : string) : dict string Z :=
  set d t (get d t 0 + 1)%Z.

(** The first loop of [build_tfidf]; the state is [(df, docs)]. *)
Definition tfidf_scan (s : dict string Z * list (Z * list string)) (m : movie)
  : dict string Z * list (Z * list string) :=
  let tokens := tokens_of m in
  (fold_left incr (set_of tokens) (fst s), (snd s ++ [(movie_id m, tokens)])%list).

(** One entry of the [idf] comprehension. *)
Definition idf_entry (N : Z) (e : string * Z) : result (string * R) :=
  q <- div (IZR (N + 1)) (IZR (snd e + 1)) ;;
  l <- math_log q ;;
  ret (fst e, l + 1).

(** The vector of one document. *)
Definition tfidf_vec (idf : dict string R) (tokens : list string)
  : dict string R :=
  let counts := fold_left incr tokens [] in
  map (fun e => (fst e, IZR (snd e) * get idf (fst e) 0)) counts.

Definition build_tfidf (movies : list movie) : result (dict Z (dict string R)) :=
  let s := fold_left tfidf_scan movies ([], []) in
  let df := fst s in
  let docs := snd s in
  let N := Z.of_nat (List.length movies) in
  idf <- comprehension (idf_entry N) df ;;
  ret (fold_left (fun vectors doc => set vectors (fst doc) (tfidf_vec idf (snd doc)))
                 docs []).

(** [acc[t] += w] on a [defaultdict(float)] *)
Definition add_weight (acc : dict string R) (e : string * R) : dict string R :=
  set acc (fst e) (get acc (fst e) 0 + snd e).

(** [[mid for mid, r in ratings.items() if r >= 4]] *)
Definition liked_items (ratings : dict Z R) : list Z :=
  map fst (filter (fun e => geb (snd e) 4) ratings).

(** The accumulation loop of [build_user_profile]. *)
Definition profile_acc (tfidf_vectors : dict Z (dict string R)) (liked : list Z)
  : dict string R :=
  fold_left (fun acc mid => fold_left add_weight (get tfidf_vectors mid []) acc)
            liked [].

Definition build_user_profile (tfidf_vectors : dict Z (dict string R))
  (ratings : dict Z R) : result (dict string R) :=
  let liked := liked_items ratings in
  match liked with
  | [] => ret []
  | _ :: _ =>
      let acc := profile_acc tfidf_vectors liked in
      s <- math_sqrt (sum (map (fun v => v * v) (values acc))) ;;
      let norm := if truthy s then s else 1 in
      comprehension (fun e => q <- div (snd e) norm ;; ret (fst e, q)) acc
  end.

(* ================================================================== *)
(** * CF & CB: [predict_cf], [predict_cb], [hybrid_scores] *)
(* ================================================================== *)

(** An entry of [sims]: [(userId, sim, ratings)]. *)
Definition sim_entry : Type := string * R * dict Z R.

Definition sim_of (s : sim_entry) : R := snd (fst s).

Definition ratings_of (s : sim_entry) : dict Z R := snd s.

(** The list [sims] before it is sorted. *)
Definition cf_sims (ratings : dict Z R) (community : list peer)
  : result (list sim_entry) :=
  comprehension
    (fun u => sim <- cosine_sim ratings (peer_ratings u) ;;
              ret (peer_userId u, sim, peer_ratings u))
    community.

(** [neighbors = [s for s in sims if s[1] > 0][:k]], after the sort. *)
Definition cf_neighbors (ratings : dict Z R) (community : list peer) (k : nat)
  : result (list sim_entry) :=
  sims <- cf_sims ratings community ;;
  let sims := sorted_desc sim_of sims in
  ret (firstn k (filter (fun s => gtb (sim_of s) 0) sims)).

(** The inner loop of [predict_cf] for the item [m]; the state is
    [(num, den)].  The test [m in r] and the access [r[m]] are one lookup. *)
Definition cf_step (m : Z) (s : R * R) (n : sim_entry) : R * R :=
  match lookup (ratings_of n) m with
  | Some rm => (fst s + sim_of n * rm, snd s + Rabs (sim_of n))
  | None => s
  end.

Definition cf_accumulate (neighbors : list sim_entry) (m : Z) : R * R :=
  fold_left (cf_step m) neighbors (0, 0).

(** The body of the outer loop of [predict_cf]. *)
Definition cf_item (ratings : dict Z R) (neighbors : list sim_entry)
  (pred : dict Z R) (m : Z) : result (dict Z R) :=
  if contains ratings m then ret pred
  else
    let s := cf_accumulate neighbors m in
    if gtb (snd s) 0 then q <- div (fst s) (snd s) ;; ret (set pred m q)
    else ret pred.

Definition predict_cf (ratings : dict Z R) (community : list peer) (k : nat)
  : result (dict Z R) :=
  neighbors <- cf_neighbors ratings community k ;;
  for_each (cf_item ratings neighbors) MOVIE_IDS [].

(** The body of the loop of [predict_cb]. *)
Definition cb_item (tfidf_vectors : dict Z (dict string R))
  (user_profile : dict string R) (ratings : dict Z R)
  (scores : dict Z R) (m : movie) : result (dict Z R) :=
  let mid := movie_id m in
  if contains ratings mid then ret scores
  else
    sim <- cosine_sim user_profile (get tfidf_vectors mid []) ;;
    ret (set scores mid (sim * 5)).

Definition predict_cb (tfidf_vectors : dict Z (dict string R))
  (user_profile : dict string R) (ratings : dict Z R) : result (dict Z R) :=
  for_each (cb_item tfidf_vectors user_profile ratings) MOVIES [].

(** The body of the loop of [hybrid_scores]. *)
Definition hybrid_item (cf_scores cb_scores : dict Z R) (alpha : R)
  (results : dict Z R) (m : Z) : dict Z R :=
  let cf := get cf_scores m 0 in
  let cb := get cb_scores m 0 in
  if truthy cf || truthy cb then set results m (alpha * cf + (1 - alpha) * cb)
  else results.

Definition hybrid_scores (cf_scores cb_scores : dict Z R) (alpha : R)
  : dict Z R :=
  let results := fold_left (hybrid_item cf_scores cb_scores alpha) MOVIE_IDS [] in
  of_items (sorted_desc snd results).

(* ================================================================== *)
(** * Prompt boost: [apply_prompt_boost] *)
(* ================================================================== *)

(** [next(m for m in MOVIES if m["id"] == mid)], which raises
    [StopIteration] when no movie has that id. *)
Definition movie_by_id (mid : Z) : result movie :=
  find (fun m => Z.eqb (movie_id m) mid) MOVIES.

(** [" ".join([m["title"]] + m["genres"] + m["tags"]).lower()] *)
Definition haystack (m : movie) : string :=
  lower (join " "%string ([movie_title m] ++ movie_genres m ++ movie_tags m)%list).

(** The body of the loop of [apply_prompt_boost]. *)
Definition boost_item (q : string) (boosted : dict Z R) (e : Z * R)
  : result (dict Z R) :=
  m <- movie_by_id (fst e) ;;
  let boost := if str_in q (haystack m) then 2 else 0 in
  ret (set boosted (fst e) (snd e + boost)).

(** [prompt] is [None] or a string; [not prompt] holds for [None] and for
    the empty string. *)
Definition apply_prompt_boost (hybrid : dict Z R) (prompt : option string)
  : result (dict Z R) :=
  match prompt with
  | None => ret hybrid
  | Some EmptyString => ret hybrid
  | Some p =>
      let q := lower p in
      boosted <- for_each (boost_item q) hybrid [] ;;
      ret (of_items (sorted_desc snd boosted))
  end.

(* ================================================================== *)
(** * The Flask view: [index] on a POST request *)
(* ================================================================== *)

(** What [index] hands to the template. *)
Record rendering := Rendering {
  recs : option (list (movie * R * bool));
  error : option string
}.

(** The [hybrid] of [index] for the rating input [ratings]. *)
Definition index_hybrid (ratings : dict Z R) : result (dict Z R) :=
  tfidf <- build_tfidf MOVIES ;;
  user_profile <- build_user_profile tfidf ratings ;;
  cf <- predict_cf ratings COMMUNITY 3 ;;
  cb <- predict_cb tfidf user_profile ratings ;;
  ret (hybrid_scores cf cb 0.6).

(** One turn of the loop that fills [recs]. *)
Definition rec_entry (prompt : string) (e : Z * R) : result (movie * R * bool) :=
  m <- movie_by_id (fst e) ;;
  let boosted_flag := str_in (lower prompt) (haystack m) in
  ret (m, snd e, boosted_flag).

(** [index] for a POST whose form holds [movie_name], [rating] (already a
    valid integer literal) and [prompt]. *)
Definition index_post (movie_name : string) (rating : Z) (prompt : string)
  : result rendering :=
  let movie_name := lower (strip movie_name) in
  match find (fun m => str_in movie_name (lower (movie_title m))) MOVIES with
  | None =>
      ret (Rendering None
             (Some ("Movie '"%string ++ movie_name ++
                    "' not found in dataset. Try Inception, Interstellar, etc.")%string))
  | Some movie =>
      let ratings := [(movie_id movie, IZR rating)] in
      hybrid <- index_hybrid ratings ;;
      boosted <- apply_prompt_boost hybrid (Some prompt) ;;
      recs <- comprehension (rec_entry prompt) (firstn 5 boosted) ;;
      ret (Rendering (Some recs) None)
  end.

(* ================================================================== *)
(** * The similarity kernel on Python's numbers *)
(* ================================================================== *)

(** [cosine_sim] once more, with its numbers as Python has them: an [int]
    is an unbounded integer, a [float] an IEEE 754 binary64 value, every
    float operation rounds to nearest-even, and the exceptions are told
    apart.  The definitions compute, so the kernel can be run on concrete
    vectors. *)
Module Binary64.

Inductive exception : Set := ZeroDivisionError | OverflowError | ValueError.

Inductive outcome (A : Type) : Type :=
| Returns (x : A)
| Raises (e : exception).

Arguments Returns {A} x.
Arguments Raises {A} e.

Definition bind {A B : Type} (e : outcome A) (k : A -> outcome B) : outcome B :=
  match e with
  | Returns x => k x
  | Raises err => Raises err
  end.

(** A [for] loop whose body may raise, threading the loop state. *)
Fixpoint for_each {A S : Type} (body : S -> A -> outcome S) (l : list A) (s : S)
  : outcome S :=
  match l with
  | [] => Returns s
  | x :: l' => bind (body s x) (for_each body l')
  end.

(** A number: an [int] or a [float]. *)
Inductive num : Set :=
| Int (n : Z)
| Float (f : PrimFloat.float).

(** An [int] has a [float] value when its nearest binary64 number is
    finite, that is below [2^1024 - 2^970] in magnitude. *)
Definition fits_float (n : Z) : bool := (Z.abs n <? 2 ^ 1024 - 2 ^ 970)%Z.

(** The binary64 number nearest to [n], ties to even. *)
Definition float_of_Z (n : Z) : PrimFloat.float :=
  FloatOps.SF2Prim (SpecFloat.binary_normalize FloatOps.prec FloatOps.emax n 0 false).

(** The conversion Python applies to an [int] that meets a [float] operand
    or a [math] function: [OverflowError] when the [int] is too large. *)
Definition to_float (x : num) : outcome PrimFloat.float :=
  match x with
  | Int n => if fits_float n then Returns (float_of_Z n) else Raises OverflowError
  | Float f => Returns f
  end.

(** [x + y] *)
Definition add (x y : num) : outcome num :=
  match x, y with
  | Int m, Int n => Returns (Int (m + n))
  | _, _ =>
      bind (to_float x) (fun fx =>
      bind (to_float y) (fun fy => Returns (Float (PrimFloat.add fx fy))))
  end.

(** [x * y] *)
Definition mul (x y : num) : outcome num :=
  match x, y with
  | Int m, Int n => Returns (Int (m * n))
  | _, _ =>
      bind (to_float x) (fun fx =>
      bind (to_float y) (fun fy => Returns (Float (PrimFloat.mul fx fy))))
  end.

(** [x == 0]: true of [0], [0.0] and [-0.0], false of NaN. *)
Definition is_zero (x : num) : bool :=
  match x with
  | Int n => (n =? 0)%Z
  | Float f => PrimFloat.eqb f PrimFloat.zero
  end.

(** [math.sqrt(x)]: [ValueError] on a negative argument; NaN, [-0.0] and
    [inf] pass through. *)
Definition math_sqrt (x : num) : outcome PrimFloat.float :=
  bind (to_float x) (fun f =>
  if PrimFloat.ltb f PrimFloat.zero then Raises ValueError
  else Returns (PrimFloat.sqrt f)).

(** [x / y] for a [float] divisor [y]. *)
Definition truediv (x : num) (y : PrimFloat.float) : outcome num :=
  bind (to_float x) (fun fx =>
  if PrimFloat.eqb y PrimFloat.zero then Raises ZeroDivisionError
  else Returns (Float (PrimFloat.div fx y))).

(** One turn of the loop of [cosine_sim] over the key [k]; the state is
    [(dot, na, nb)]. *)
Definition cosine_step {K : Type} `{Hashable K} (a b : dict K num)
  (s : num * num * num) (k : K) : outcome (num * num * num) :=
  let va := get a k (Int 0) in
  let vb := get b k (Int 0) in
  bind (mul va vb) (fun p =>
  bind (add (fst (fst s)) p) (fun dot =>
  bind (mul va va) (fun pa =>
  bind (add (snd (fst s)) pa) (fun na =>
  bind (mul vb vb) (fun pb =>
  bind (add (snd s) pb) (fun nb => Returns (dot, na, nb))))))).

(** The three accumulators when the loop has run over the keys in the
    order [ks]. *)
Definition cosine_acc {K : Type} `{Hashable K} (ks : list K) (a b : dict K num)
  : outcome (num * num * num) :=
  for_each (cosine_step a b) ks (Int 0, Int 0, Int 0).

(** [cosine_sim] when the set [set(a.keys()) | set(b.keys())] is iterated
    in the order [ks]; CPython fixes that order by the hash values. *)
Definition cosine_sim_over {K : Type} `{Hashable K} (ks : list K) (a b : dict K num)
  : outcome num :=
  bind (cosine_acc ks a b) (fun s =>
  let dot := fst (fst s) in
  let na := snd (fst s) in
  let nb := snd s in
  if is_zero na || is_zero nb then Returns (Int 0)
  else
    bind (math_sqrt na) (fun ra =>
    bind (math_sqrt nb) (fun rb => truediv dot (PrimFloat.mul ra rb)))).

Definition cosine_sim {K : Type} `{Hashable K} (a b : dict K num) : outcome num :=
  cosine_sim_over (union (keys a) (keys b)) a b.

End Binary64.

(* ================================================================== *)
(** * Specification vocabulary *)
(* ================================================================== *)

(** Every weight stored in the vector is non-negative. *)
Definition nonneg_weights {K : Type} (d : dict K R) : Prop :=
  Forall (fun e => 0 <= snd e) d.

(** The vector reads as [0] at every key: it is empty or all its weights
    are [0], so that its L2 norm is [0]. *)
Definition zero_vector {K : Type} `{Hashable K} (d : dict K R) : Prop :=
  forall k, get d k 0 = 0.

(** [f] summed over the keys [ks]. *)
Definition sum_over {K : Type} (f : K -> R) (ks : list K) : R :=
  fold_right (fun k acc => f k + acc) 0 ks.

(** [desc_then key before]: the order of a list sorted descending by [key]
    in which equal keys are listed in the order [before]. *)
Definition desc_then {A : Type} (key : A -> R) (before : A -> A -> Prop)
  (x y : A) : Prop :=
  key x > key y \/ (key x = key y /\ before x y).

(** The guard [if cf or cb] of the blender for the item [m]. *)
Definition scored (cf_scores cb_scores : dict Z R) (m : Z) : bool :=
  truthy (get cf_scores m 0) || truthy (get cb_scores m 0).

(** The blended score of the item [m]. *)
Definition blend (cf_scores cb_scores : dict Z R) (alpha : R) (m : Z) : R :=
  alpha * get cf_scores m 0 + (1 - alpha) * get cb_scores m 0.

(** The value [cosine_sim] returns (in exact arithmetic it never raises). *)
Definition cosine_val {K : Type} `{Hashable K} (a b : dict K R) : R :=
  match cosine_sim a b with
  | Some v => v
  | None => 0
  end.

(** The entries of [sims], in community order. *)
Definition sims_of (ratings : dict Z R) (community : list peer) : list sim_entry :=
  map (fun u => (peer_userId u, cosine_val ratings (peer_ratings u), peer_ratings u))
      community.


(** The neighbors who rated the item [m]. *)
Definition raters (neighbors : list sim_entry) (m : Z) : list sim_entry :=
  filter (fun n => contains (ratings_of n) m) neighbors.

(** The boost [apply_prompt_boost] adds to the item [mid] for the lowercased
    query [q]. *)
Definition boost_of (q : string) (mid : Z) : R :=
  match movie_by_id mid with
  | Some m => if str_in q (haystack m) then 2 else 0
  | None => 0
  end.

(** The place of [m] in the list [l]. *)
Fixpoint position (l : list Z) (m : Z) : nat :=
  match l with
  | [] => O
  | x :: l' => if Z.eq_dec m x then O else S (position l' m)
  end.

(** [x] comes before [y] in [l]. *)
Definition listed_before (l : list Z) (x y : Z) : Prop :=
  (position l x < position l y)%nat.

(** A score map listed in descending order of score. *)
Definition descending (d : dict Z R) : Prop :=
  StronglySorted (fun x y => snd x >= snd y) d.

(** A score map listed in descending order of score, items of equal score
    in the order of the list [l]. *)
Definition descending_ties_as (l : list Z) (d : dict Z R) : Prop :=
  StronglySorted (desc_then snd (fun x y => listed_before l (fst x) (fst y))) d.

(** A blank query: empty, or made of whitespace only. *)
Definition blank (s : string) : bool :=
  match strip s with
  | EmptyString => true
  | String _ _ => false
  end.

(** The query is absent or blank. *)
Definition absent_or_blank (prompt : option string) : Prop :=
  match prompt with
  | None => True
  | Some s => blank s = true
  end.

(** [df(t)]: the number of catalog items whose token set contains [t]. *)
Definition doc_freq (movies : list movie) (t : string) : Z :=
  Z.of_nat (List.length
              (filter (fun m => if in_dec string_dec t (tokens_of m) then true else false)
                      movies)).

(** [tf]: the number of occurrences of [t] in a token list. *)
Definition term_freq (tokens : list string) (t : string) : Z :=
  Z.of_nat (count_occ string_dec tokens t).

(** [idf(t) = ln((N+1)/(df(t)+1)) + 1], with [N] the catalog size. *)
Definition idf_of (movies : list movie) (t : string) : R :=
  ln (IZR (Z.of_nat (List.length movies) + 1) / IZR (doc_freq movies t + 1)) + 1.

(** The dictionary [df] after the first loop of [build_tfidf] has run over
    [movies], starting from [df]. *)
Definition df_loop (movies : list movie) (df : dict string Z) : dict string Z :=
  fold_left (fun df m => fold_left incr (set_of (tokens_of m)) df) movies df.

(** Every item vector is a proper dictionary: no term is listed twice. *)
Definition proper_vectors (tfidf_vectors : dict Z (dict string R)) : Prop :=
  Forall (fun e => NoDup (keys (snd e))) tfidf_vectors.

(** The term-wise sum of the vectors of the items [liked], at the term [t]. *)
Definition profile_sum (tfidf_vectors : dict Z (dict string R)) (liked : list Z)
  (t : string) : R :=
  sum_over (fun mid => get (get tfidf_vectors mid []) t 0) liked.

(** The terms of the vectors of the items [liked], each once. *)
Definition profile_terms (tfidf_vectors : dict Z (dict string R)) (liked : list Z)
  : list string :=
  set_of (flat_map (fun mid => keys (get tfidf_vectors mid [])) liked).

(** The Euclidean norm of the term-wise sum, with a zero norm read as 1. *)
Definition profile_norm (tfidf_vectors : dict Z (dict string R)) (liked : list Z) : R :=
  let s := sqrt (sum_over (fun t => profile_sum tfidf_vectors liked t *
                                    profile_sum tfidf_vectors liked t)
                          (profile_terms tfidf_vectors liked)) in
  if Req_dec_T s 0 then 1 else s.

(** The vector [a] with every weight multiplied by [c]. *)
Definition scale {K : Type} (c : R) (a : dict K R) : dict K R :=
  map (fun e => (fst e, c * snd e)) a.

(** Every weight stored in the vector is strictly positive. *)
Definition positive_weights {K : Type} (d : dict K R) : Prop :=
  Forall (fun e => 0 < snd e) d.


(** Every rating of every peer is an integer. *)
Definition integer_ratings (community : list peer) : Prop :=
  Forall (fun u => Forall (fun e => exists n : Z, snd e = IZR n) (peer_ratings u))
         community.

(** Every rating of every peer lies between [lo] and [hi]. *)
Definition ratings_within (lo hi : R) (community : list peer) : Prop :=
  Forall (fun u => Forall (fun e => lo <= snd e <= hi) (peer_ratings u)) community.

(** Every weight of the vector is an [int]. *)
Definition int_weights {K : Type} (a : dict K Binary64.num) : Prop :=
  Forall (fun e => exists n, snd e = Binary64.Int n) a.

(** Every weight of the vector is a [float]. *)
Definition float_weights {K : Type} (a : dict K Binary64.num) : Prop :=
  Forall (fun e => exists f, snd e = Binary64.Float f) a.

(** The two vectors hold numbers of one kind, as rating vectors ([int]) and
    TF-IDF vectors ([float]) do. *)
Definition same_kind {K : Type} (a b : dict K Binary64.num) : Prop :=
  (int_weights a /\ int_weights b) \/ (float_weights a /\ float_weights b).

(** Every weight of the vector compares equal to [0]: the vector is empty or
    all-zero. *)
Definition zero_weights {K : Type} (a : dict K Binary64.num) : Prop :=
  Forall (fun e => Binary64.is_zero (snd e) = true) a.

(** Every weight of the vector is a non-negative [int]. *)
Definition nonneg_ints {K : Type} (a : dict K Binary64.num) : Prop :=
  Forall (fun e => exists n, snd e = Binary64.Int n /\ (0 <= n)%Z) a.

(** [ks] lists the keys of the two vectors, each once, in some order. *)
Definition iterates {K : Type} `{Hashable K} (ks : list K) (a b : dict K Binary64.num)
  : Prop :=
  Permutation ks (union (keys a) (keys b)).

(** The integer an [int] weight holds. *)
Definition int_of (w : Binary64.num) : Z :=
  match w with
  | Binary64.Int n => n
  | Binary64.Float _ => 0%Z
  end.

(** [f] summed over the keys [ks], in the integers. *)
Definition zsum_over {K : Type} (f : K -> Z) (ks : list K) : Z :=
  fold_right (fun k acc => (f k + acc)%Z) 0%Z ks.

(** The dot product of two [int] vectors over the keys [ks], and the squared
    norm of one, as integers. *)
Definition dot_product {K : Type} `{Hashable K} (ks : list K) (a b : dict K Binary64.num)
  : Z :=
  zsum_over (fun k => int_of (get a k (Binary64.Int 0)) *
                      int_of (get b k (Binary64.Int 0)))%Z ks.

Definition squared_norm {K : Type} `{Hashable K} (ks : list K) (a : dict K Binary64.num)
  : Z :=
  dot_product ks a a.

(** A float, or the [int] [0] that [get] supplies for a missing key. *)
Definition float_or_default (w : Binary64.num) : Prop :=
  w = Binary64.Int 0 \/ exists f, w = Binary64.Float f.

(** A sum of squares that is still zero: [0] or [0.0]. *)
Definition zero_sum (w : Binary64.num) : Prop :=
  w = Binary64.Int 0 \/ w = Binary64.Float PrimFloat.zero.

(** A binary64 value, in its specification format, that is not negative:
    its sign bit is clear, or it is a zero or NaN. *)
Definition nonneg_sf (x : SpecFloat.spec_float) : Prop :=
  match x with
  | SpecFloat.S754_zero _ => True
  | SpecFloat.S754_nan => True
  | SpecFloat.S754_infinity s => s = false
  | SpecFloat.S754_finite s _ _ => s = false
  end.

(* ================================================================== *)
(** * Facts about the Python primitives *)
(* ================================================================== *)

Module PyFacts.

Lemma eqb_true (x y : R) : eqb x y = true <-> x = y.
Proof. unfold eqb. destruct (Req_dec_T x y); split; intros; congruence. Qed.

Lemma eqb_false (x y : R) : eqb x y = false <-> x <> y.
Proof. unfold eqb. destruct (Req_dec_T x y); split; intros; congruence. Qed.

Lemma gtb_true (x y : R) : gtb x y = true <-> x > y.
Proof. unfold gtb. destruct (Rgt_dec x y); split; intros; congruence. Qed.

Lemma gtb_false (x y : R) : gtb x y = false <-> x <= y.
Proof.
  unfold gtb. destruct (Rgt_dec x y); split; intros; try congruence; lra.
Qed.

Lemma geb_true (x y : R) : geb x y = true <-> x >= y.
Proof. unfold geb. destruct (Rge_dec x y); split; intros; congruence. Qed.

Lemma truthy_true (x : R) : truthy x = true <-> x <> 0.
Proof. unfold truthy. rewrite negb_true_iff. apply eqb_false. Qed.

Lemma div_nonzero (x y : R) : y <> 0 -> div x y = Some (x / y).
Proof. intros Hy. unfold div. destruct (Req_dec_T y 0); [contradiction | reflexivity]. Qed.

Lemma math_sqrt_nonneg (x : R) : 0 <= x -> math_sqrt x = Some (sqrt x).
Proof. intros Hx. unfold math_sqrt. destruct (Rlt_dec x 0); [lra | reflexivity]. Qed.

Lemma math_log_pos (x : R) : 0 < x -> math_log x = Some (ln x).
Proof. intros Hx. unfold math_log. destruct (Rlt_dec 0 x); [reflexivity | lra]. Qed.

End PyFacts.

Import PyFacts.

(* ================================================================== *)
(** * The similarity kernel *)
(* ================================================================== *)

Section Cosine.
Context {K : Type} `{Hashable K}.
Variables a b : dict K R.

Lemma cosine_fold (ks : list K) (s : R * R * R) :
fold_left (cosine_step a b) ks s =
(fst (fst s) + sum_over (fun k => get a k 0 * get b k 0) ks,
 snd (fst s) + sum_over (fun k => get a k 0 * get a k 0) ks,
 snd s + sum_over (fun k => get b k 0 * get b k 0) ks).
Proof.
revert s. induction ks as [|k ks IH]; intros [[d n] m]; simpl.
- f_equal; [f_equal|]; lra.
- rewrite IH. unfold cosine_step. simpl. f_equal; [f_equal|]; lra.
Qed.

Lemma cosine_acc_sums :
cosine_acc a b =
(sum_over (fun k => get a k 0 * get b k 0) (union (keys a) (keys b)),
 sum_over (fun k => get a k 0 * get a k 0) (union (keys a) (keys b)),
 sum_over (fun k => get b k 0 * get b k 0) (union (keys a) (keys b))).
Proof.
unfold cosine_acc. rewrite cosine_fold. simpl. f_equal; [f_equal|]; lra.
Qed.
End Cosine.

Lemma sum_over_squares_nonneg {K : Type} (f : K -> R) (ks : list K) :
  0 <= sum_over (fun k => f k * f k) ks.
Proof.
  induction ks as [|k ks IH]; simpl; [lra|]. nra.
Qed.

Lemma sum_over_squares_zero {K : Type} (f : K -> R) (ks : list K) :
  sum_over (fun k => f k * f k) ks = 0 <-> (forall k, In k ks -> f k = 0).
Proof.
  induction ks as [|k ks IH]; simpl.
  - split; [intros _ k [] | reflexivity].
  - pose proof (sum_over_squares_nonneg f ks) as Hpos. split.
    + intros Hs k' [<- | Hin].
      * nra.
      * apply IH; [nra | exact Hin].
    + intros Hall.
      assert (Hk : f k = 0) by (apply Hall; auto).
      assert (Hr : sum_over (fun k => f k * f k) ks = 0) by (apply IH; auto).
      rewrite Hk, Hr. lra.
Qed.

Lemma sum_over_nonneg {K : Type} (f : K -> R) (ks : list K) :
  (forall k, 0 <= f k) -> 0 <= sum_over f ks.
Proof.
  intros Hf. induction ks as [|k ks IH]; simpl; [lra|].
  specialize (Hf k). lra.
Qed.

(** Cauchy-Schwarz for finite sums. *)
Lemma sum_over_cauchy_schwarz {K : Type} (f g : K -> R) (ks : list K) :
  sum_over (fun k => f k * g k) ks * sum_over (fun k => f k * g k) ks <=
  sum_over (fun k => f k * f k) ks * sum_over (fun k => g k * g k) ks.
Proof.
  induction ks as [|k ks IH]; simpl; [lra|].
  pose proof (sum_over_squares_nonneg f ks) as HA.
  pose proof (sum_over_squares_nonneg g ks) as HB.
  set (D := sum_over (fun k => f k * g k) ks) in *.
  set (A := sum_over (fun k => f k * f k) ks) in *.
  set (B := sum_over (fun k => g k * g k) ks) in *.
  set (x := f k). set (y := g k).
  assert (Hmix : 2 * (x * y * D) <= x * x * B + y * y * A).
  { destruct (Rle_dec (2 * (x * y * D)) (x * x * B + y * y * A)) as [Hle|Hgt]; [exact Hle|].
    exfalso. apply Rnot_le_lt in Hgt.
    assert (H0 : 0 <= x * x * B + y * y * A) by nra.
    assert (H1 : (x * x * B + y * y * A) * (x * x * B + y * y * A)
                 < (2 * (x * y * D)) * (2 * (x * y * D))) by nra.
    assert (H2 : 4 * (x * x) * (y * y) * (D * D) <= 4 * (x * x) * (y * y) * (A * B)).
    { apply Rmult_le_compat_l; [nra | exact IH]. }
    pose proof (Rle_0_sqr (x * x * B - y * y * A)) as H3. unfold Rsqr in H3.
    lra. }
  nra.
Qed.

(** ** Dictionaries *)

Section DictFacts.
Context {K V : Type} `{Hashable K}.

Lemma lookup_In (d : dict K V) (k : K) (v : V) :
lookup d k = Some v -> In (k, v) d.
Proof.
induction d as [|[k' v'] d IH]; simpl; [discriminate|].
destruct (key_eq_dec k k') as [->|Hne]; intros Hl.
- inversion Hl. auto.
- auto.
Qed.

Lemma lookup_None (d : dict K V) (k : K) :
lookup d k = None <-> ~ In k (keys d).
Proof.
induction d as [|[k' v'] d IH]; simpl.
- split; auto.
- destruct (key_eq_dec k k') as [->|Hne].
  + split; [discriminate | intros Hn; exfalso; auto].
  + rewrite IH. split; intros Hn; [intros [Heq|Hin]; [congruence | auto] | auto].
Qed.

Lemma lookup_Some_keys (d : dict K V) (k : K) (v : V) :
lookup d k = Some v -> In k (keys d).
Proof. intros Hl. apply lookup_In in Hl. apply (in_map fst) in Hl. exact Hl. Qed.

Lemma contains_true (d : dict K V) (k : K) :
contains d k = true <-> In k (keys d).
Proof.
unfold contains. destruct (lookup d k) as [v|] eqn:Hl.
- split; [intros _; eapply lookup_Some_keys; eauto | reflexivity].
- apply lookup_None in Hl. split; [discriminate | contradiction].
Qed.

Lemma contains_false (d : dict K V) (k : K) :
contains d k = false <-> ~ In k (keys d).
Proof.
rewrite <- contains_true. destruct (contains d k); split; congruence.
Qed.

Lemma get_absent (d : dict K V) (k : K) (default : V) :
~ In k (keys d) -> get d k default = default.
Proof. intros Hn. unfold get. apply lookup_None in Hn. rewrite Hn. reflexivity. Qed.
End DictFacts.

Lemma in_union {K : Type} `{Hashable K} (a b : list K) (k : K) :
  In k (union a b) <-> In k a \/ In k b.
Proof. unfold union. rewrite nodup_In. apply in_app_iff. Qed.

Lemma get_nonneg {K : Type} `{Hashable K} (d : dict K R) (k : K) :
  nonneg_weights d -> 0 <= get d k 0.
Proof.
  intros Hd. unfold get. destruct (lookup d k) as [v|] eqn:Hl; [|lra].
  apply lookup_In in Hl. unfold nonneg_weights in Hd.
  rewrite Forall_forall in Hd. apply (Hd (k, v)). exact Hl.
Qed.

(** ** The two branches of [cosine_sim] *)

Section CosineBranches.
Context {K : Type} `{Hashable K}.
Variables a b : dict K R.

Let dot := fst (fst (cosine_acc a b)).
Let na := snd (fst (cosine_acc a b)).
Let nb := snd (cosine_acc a b).

Lemma cosine_na_nonneg : 0 <= na.
Proof.
unfold na. rewrite cosine_acc_sums. simpl.
apply (sum_over_squares_nonneg (fun k => get a k 0)).
Qed.

Lemma cosine_nb_nonneg : 0 <= nb.
Proof.
unfold nb. rewrite cosine_acc_sums. simpl.
apply (sum_over_squares_nonneg (fun k => get b k 0)).
Qed.

Lemma cosine_na_zero : na = 0 <-> zero_vector a.
Proof.
unfold na. rewrite cosine_acc_sums. simpl.
rewrite (sum_over_squares_zero (fun k => get a k 0)). unfold zero_vector.
split; intros Hz k.
- destruct (in_dec key_eq_dec k (keys a)) as [Hin|Hout].
  + apply Hz. apply in_union. auto.
  + apply get_absent. exact Hout.
- intros _. apply Hz.
Qed.

Lemma cosine_nb_zero : nb = 0 <-> zero_vector b.
Proof.
unfold nb. rewrite cosine_acc_sums. simpl.
rewrite (sum_over_squares_zero (fun k => get b k 0)). unfold zero_vector.
split; intros Hz k.
- destruct (in_dec key_eq_dec k (keys b)) as [Hin|Hout].
  + apply Hz. apply in_union. auto.
  + apply get_absent. exact Hout.
- intros _. apply Hz.
Qed.

Lemma cosine_sim_zero_branch : na = 0 \/ nb = 0 -> cosine_sim a b = Some 0.
Proof.
intros Hz. unfold cosine_sim. fold na nb.
destruct Hz as [Hz|Hz]; apply eqb_true in Hz; rewrite Hz;
  [|rewrite orb_true_r]; reflexivity.
Qed.

Lemma cosine_sim_div_branch :
na <> 0 -> nb <> 0 ->
0 < na /\ 0 < nb /\ 0 < sqrt na * sqrt nb /\
cosine_sim a b = Some (dot / (sqrt na * sqrt nb)).
Proof.
intros Ha Hb.
pose proof cosine_na_nonneg as Hna. pose proof cosine_nb_nonneg as Hnb.
assert (Hpa : 0 < na) by lra. assert (Hpb : 0 < nb) by lra.
assert (Hsa : 0 < sqrt na) by (apply sqrt_lt_R0; exact Hpa).
assert (Hsb : 0 < sqrt nb) by (apply sqrt_lt_R0; exact Hpb).
assert (Hprod : 0 < sqrt na * sqrt nb) by (apply Rmult_lt_0_compat; assumption).
repeat split; try assumption.
unfold cosine_sim. fold dot na nb.
apply eqb_false in Ha. apply eqb_false in Hb. rewrite Ha, Hb. simpl.
rewrite !math_sqrt_nonneg by lra. simpl.
apply div_nonzero. lra.
Qed.

(** In exact arithmetic [cosine_sim] never raises. *)
Lemma cosine_sim_total : exists v, cosine_sim a b = Some v.
Proof.
destruct (Req_dec_T na 0) as [Ha|Ha].
- exists 0. apply cosine_sim_zero_branch. auto.
- destruct (Req_dec_T nb 0) as [Hb|Hb].
  + exists 0. apply cosine_sim_zero_branch. auto.
  + destruct (cosine_sim_div_branch Ha Hb) as (_ & _ & _ & Hv). eauto.
Qed.

End CosineBranches.

(* ================================================================== *)
(** * The kernel on Python's numbers *)
(* ================================================================== *)

Unset Implicit Arguments.

Module Binary64Facts.
Import Binary64.

(** ** Binary64 arithmetic *)

Lemma binary_round_aux_nonneg (mx ex : Z) (lx : SpecFloat.location) :
  nonneg_sf (SpecFloat.binary_round_aux FloatOps.prec FloatOps.emax false mx ex lx).
Proof.
  unfold SpecFloat.binary_round_aux.
  destruct (SpecFloat.shr_fexp _ _ mx ex lx) as [mrs e'].
  destruct (SpecFloat.shr_fexp _ _ _ e' SpecFloat.loc_Exact) as [mrs' e''].
  destruct (SpecFloat.shr_m mrs'); simpl; auto.
  destruct (Z.leb e'' _); simpl; auto.
Qed.

Lemma binary_normalize_nonneg (n e : Z) :
  (0 <= n)%Z ->
  nonneg_sf (SpecFloat.binary_normalize FloatOps.prec FloatOps.emax n e false).
Proof.
  intros Hn. destruct n as [|p|p]; simpl; [exact I | | lia].
  unfold SpecFloat.binary_round.
  destruct (SpecFloat.shl_align _ _ _) as [mz ez]. apply binary_round_aux_nonneg.
Qed.

Lemma SFldexp_nonneg (x : SpecFloat.spec_float) (e : Z) :
  nonneg_sf x -> nonneg_sf (SpecFloat.SFldexp FloatOps.prec FloatOps.emax x e).
Proof.
  destruct x as [s|s| |s m ex]; simpl; auto. intros ->.
  unfold SpecFloat.binary_round.
  destruct (SpecFloat.shl_align _ _ _) as [mz ez]. apply binary_round_aux_nonneg.
Qed.

Lemma SFltb_nonneg (x : SpecFloat.spec_float) :
  nonneg_sf x -> SpecFloat.SFltb x (SpecFloat.S754_zero false) = false.
Proof. destruct x as [s|s| |s m e]; simpl; intros Hs; try subst s; reflexivity. Qed.

(** The float of a non-negative [int] is not negative. *)
Lemma float_of_Z_nonneg (n : Z) :
  (0 <= n)%Z -> PrimFloat.ltb (float_of_Z n) PrimFloat.zero = false.
Proof.
  intros Hn. unfold float_of_Z.
  pose proof (binary_normalize_nonneg n 0 Hn) as Hs.
  destruct (SpecFloat.binary_normalize FloatOps.prec FloatOps.emax n 0 false)
    as [s|s| |s m e]; simpl in Hs.
  - destruct s; reflexivity.
  - subst s. reflexivity.
  - reflexivity.
  - subst s. unfold FloatOps.SF2Prim.
    rewrite FloatAxioms.ltb_spec, FloatLemmas.Z_ldexp_spec, FloatAxioms.of_uint63_spec.
    apply SFltb_nonneg. apply SFldexp_nonneg. apply binary_normalize_nonneg.
    apply Uint63.to_Z_bounded.
Qed.

(** Float multiplication is commutative. *)
Lemma float_mul_comm (x y : PrimFloat.float) : PrimFloat.mul x y = PrimFloat.mul y x.
Proof.
  apply FloatAxioms.Prim2SF_inj. rewrite !FloatAxioms.mul_spec.
  unfold FloatAxioms.SF64mul.
  destruct (FloatOps.Prim2SF x) as [sx|sx| |sx mx ex];
    destruct (FloatOps.Prim2SF y) as [sy|sy| |sy my ey]; simpl;
    rewrite ?(xorb_comm sx sy), ?(Pos.mul_comm mx my), ?(Z.add_comm ex ey); reflexivity.
Qed.

(** [math.sqrt] of a non-negative [int] raises [OverflowError] when the
    [int] has no float value, and nothing else. *)
Lemma math_sqrt_int (n : Z) :
  (0 <= n)%Z ->
  math_sqrt (Int n) =
  if fits_float n then Returns (PrimFloat.sqrt (float_of_Z n)) else Raises OverflowError.
Proof.
  intros Hn. unfold math_sqrt, to_float.
  destruct (fits_float n); cbn [bind]; [|reflexivity].
  rewrite (float_of_Z_nonneg n Hn). reflexivity.
Qed.

(** The two square roots can be taken in either order. *)
Lemma sqrt_order (d x y : Z) :
  (0 <= x)%Z -> (0 <= y)%Z ->
  bind (math_sqrt (Int x)) (fun ra =>
  bind (math_sqrt (Int y)) (fun rb => truediv (Int d) (PrimFloat.mul ra rb))) =
  bind (math_sqrt (Int y)) (fun rb =>
  bind (math_sqrt (Int x)) (fun ra => truediv (Int d) (PrimFloat.mul rb ra))).
Proof.
  intros Hx Hy. rewrite (math_sqrt_int x Hx), (math_sqrt_int y Hy).
  destruct (fits_float x), (fits_float y); cbn [bind]; try reflexivity.
  rewrite float_mul_comm. reflexivity.
Qed.

Lemma float_eqb_zero (f : PrimFloat.float) :
  PrimFloat.eqb f PrimFloat.zero = true ->
  f = PrimFloat.zero \/ f = PrimFloat.neg_zero.
Proof.
  intros E. rewrite FloatAxioms.eqb_spec in E.
  rewrite <- (FloatAxioms.SF2Prim_Prim2SF f).
  destruct (FloatOps.Prim2SF f) as [s|s| |s m e].
  - destruct s; [right | left]; reflexivity.
  - destruct s; vm_compute in E; discriminate.
  - vm_compute in E. discriminate.
  - destruct s; vm_compute in E; discriminate.
Qed.

Lemma is_zero_cases (w : num) :
  is_zero w = true ->
  w = Int 0 \/ w = Float PrimFloat.zero \/ w = Float PrimFloat.neg_zero.
Proof.
  destruct w as [n|f]; simpl; intros E.
  - left. apply Z.eqb_eq in E. congruence.
  - right. destruct (float_eqb_zero f E) as [-> | ->]; auto.
Qed.

Lemma zero_sum_is_zero (w : num) : zero_sum w -> is_zero w = true.
Proof. intros [-> | ->]; reflexivity. Qed.

(** Squaring a zero weight and adding it keeps a zero sum, and raises
    nothing. *)
Lemma zero_sum_step (acc v : num) :
  zero_sum acc -> is_zero v = true ->
  exists p acc', mul v v = Returns p /\ add acc p = Returns acc' /\ zero_sum acc'.
Proof.
  intros Hacc Hv. apply is_zero_cases in Hv.
  destruct Hacc as [-> | ->]; destruct Hv as [-> | [-> | ->]];
    eexists; eexists; (split; [reflexivity | split; [reflexivity|]]);
    unfold zero_sum; auto.
Qed.

Section Weights.
Context {K : Type} `{Hashable K}.
Variable a : dict K num.

Lemma get_int_weights (k : K) :
int_weights a -> get a k (Int 0) = Int (int_of (get a k (Int 0))).
Proof.
intros Ha. unfold get. destruct (lookup a k) as [w|] eqn:Hl; [|reflexivity].
apply lookup_In in Hl. unfold int_weights in Ha. rewrite Forall_forall in Ha.
destruct (Ha (k, w) Hl) as [n Hn]. simpl in Hn. subst w. reflexivity.
Qed.

Lemma get_nonneg_ints (k : K) :
nonneg_ints a -> (0 <= int_of (get a k (Int 0)))%Z.
Proof.
intros Ha. unfold get. destruct (lookup a k) as [w|] eqn:Hl; [|simpl; lia].
apply lookup_In in Hl. unfold nonneg_ints in Ha. rewrite Forall_forall in Ha.
destruct (Ha (k, w) Hl) as (n & Hn & Hpos). simpl in Hn. subst w. exact Hpos.
Qed.

Lemma get_float_weights (k : K) :
float_weights a -> float_or_default (get a k (Int 0)).
Proof.
intros Ha. unfold get. destruct (lookup a k) as [w|] eqn:Hl; [|left; reflexivity].
apply lookup_In in Hl. unfold float_weights in Ha. rewrite Forall_forall in Ha.
destruct (Ha (k, w) Hl) as [f Hf]. simpl in Hf. right. exists f. exact Hf.
Qed.

Lemma get_zero_weights (k : K) :
zero_weights a -> is_zero (get a k (Int 0)) = true.
Proof.
intros Ha. unfold get. destruct (lookup a k) as [w|] eqn:Hl; [|reflexivity].
apply lookup_In in Hl. unfold zero_weights in Ha. rewrite Forall_forall in Ha.
apply (Ha (k, w) Hl).
Qed.
End Weights.

Lemma nonneg_ints_int_weights {K : Type} (a : dict K num) :
  nonneg_ints a -> int_weights a.
Proof.
  unfold nonneg_ints, int_weights. apply Forall_impl.
  intros e (n & Hn & _). exists n. exact Hn.
Qed.

(** Floats and the default [0] multiply and add without raising. *)
Lemma mul_float_or_default (v w : num) :
  float_or_default v -> float_or_default w ->
  exists p, mul v w = Returns p /\ float_or_default p.
Proof.
  intros [-> | [f ->]] [-> | [g ->]]; eexists; (split; [reflexivity|]);
    unfold float_or_default; eauto.
Qed.

Lemma add_float_or_default (v w : num) :
  float_or_default v -> float_or_default w ->
  exists p, add v w = Returns p /\ float_or_default p.
Proof.
  intros [-> | [f ->]] [-> | [g ->]]; eexists; (split; [reflexivity|]);
    unfold float_or_default; eauto.
Qed.

Section Loop.
Context {K : Type} `{Hashable K}.
Variables a b : dict K num.

Let va (k : K) : Z := int_of (get a k (Int 0)).
Let vb (k : K) : Z := int_of (get b k (Int 0)).

(** On [int] vectors the loop computes the three sums exactly. *)
Lemma cosine_loop_ints (ks : list K) (d x y : Z) :
int_weights a -> int_weights b ->
for_each (cosine_step a b) ks (Int d, Int x, Int y) =
Returns (Int (d + zsum_over (fun k => va k * vb k) ks),
         Int (x + zsum_over (fun k => va k * va k) ks),
         Int (y + zsum_over (fun k => vb k * vb k) ks))%Z.
Proof.
intros Ha Hb. revert d x y. induction ks as [|k ks IH]; intros d x y.
- simpl. rewrite !Z.add_0_r. reflexivity.
- cbn [for_each]. unfold cosine_step at 1.
  rewrite (get_int_weights a k Ha), (get_int_weights b k Hb). fold (va k) (vb k).
  cbn [mul add bind fst snd]. rewrite IH. cbn [zsum_over fold_right].
  fold (zsum_over (fun k => va k * vb k)%Z ks).
  fold (zsum_over (fun k => va k * va k)%Z ks).
  fold (zsum_over (fun k => vb k * vb k)%Z ks).
  rewrite !Z.add_assoc. reflexivity.
Qed.

(** On [float] vectors the loop raises nothing. *)
Lemma cosine_loop_floats (ks : list K) (s : num * num * num) :
float_weights a -> float_weights b ->
float_or_default (fst (fst s)) -> float_or_default (snd (fst s)) ->
float_or_default (snd s) ->
exists s', for_each (cosine_step a b) ks s = Returns s' /\
           (zero_weights a -> zero_sum (snd (fst s)) -> zero_sum (snd (fst s'))) /\
           (zero_weights b -> zero_sum (snd s) -> zero_sum (snd s')).
Proof.
intros Ha Hb. revert s. induction ks as [|k ks IH]; intros [[d x] y] Hd Hx Hy.
- exists (d, x, y). split; [reflexivity | split; auto].
- cbn [fst snd] in Hd, Hx, Hy. cbn [for_each]. unfold cosine_step at 1. cbn [fst snd].
  pose proof (get_float_weights a k Ha) as Hva.
  pose proof (get_float_weights b k Hb) as Hvb.
  destruct (mul_float_or_default _ _ Hva Hvb) as (p & Ep & Hp).
  destruct (add_float_or_default _ _ Hd Hp) as (d' & Ed & Hd').
  destruct (mul_float_or_default _ _ Hva Hva) as (pa & Epa & Hpa).
  destruct (add_float_or_default _ _ Hx Hpa) as (x' & Ex & Hx').
  destruct (mul_float_or_default _ _ Hvb Hvb) as (pb & Epb & Hpb).
  destruct (add_float_or_default _ _ Hy Hpb) as (y' & Ey & Hy').
  rewrite Ep. cbn [bind]. rewrite Ed. cbn [bind]. rewrite Epa. cbn [bind].
  rewrite Ex. cbn [bind]. rewrite Epb. cbn [bind]. rewrite Ey. cbn [bind].
  destruct (IH (d', x', y') Hd' Hx' Hy') as (s' & Es & Hza & Hzb).
  exists s'. split; [exact Es | split].
  + intros Hz Hzx. apply (Hza Hz). cbn [fst snd] in *.
    destruct (zero_sum_step _ _ Hzx (get_zero_weights a k Hz)) as (p1 & x1 & E1 & E2 & Hz1).
    rewrite Epa in E1. injection E1 as <-. rewrite Ex in E2. injection E2 as <-. exact Hz1.
  + intros Hz Hzy. apply (Hzb Hz). cbn [fst snd] in *.
    destruct (zero_sum_step _ _ Hzy (get_zero_weights b k Hz)) as (p1 & y1 & E1 & E2 & Hz1).
    rewrite Epb in E1. injection E1 as <-. rewrite Ey in E2. injection E2 as <-. exact Hz1.
Qed.
End Loop.

Lemma zsum_over_zero {K : Type} (f : K -> Z) (ks : list K) :
  (forall k, f k = 0%Z) -> zsum_over f ks = 0%Z.
Proof.
  intros Hf. induction ks as [|k ks IH]; simpl; [reflexivity|].
  fold (zsum_over f ks). rewrite Hf, IH. reflexivity.
Qed.


Lemma zsum_over_nonneg {K : Type} (f : K -> Z) (ks : list K) :
  (forall k, 0 <= f k)%Z -> (0 <= zsum_over f ks)%Z.
Proof.
  intros Hf. induction ks as [|k ks IH]; simpl; [lia|].
  fold (zsum_over f ks). specialize (Hf k). lia.
Qed.

Lemma zsum_over_ext {K : Type} (f g : K -> Z) (ks : list K) :
  (forall k, f k = g k) -> zsum_over f ks = zsum_over g ks.
Proof.
  intros Hfg. induction ks as [|k ks IH]; simpl; [reflexivity|].
  fold (zsum_over f ks). fold (zsum_over g ks). rewrite Hfg, IH. reflexivity.
Qed.

Lemma zsum_over_Permutation {K : Type} (f : K -> Z) (ks ks' : list K) :
  Permutation ks ks' -> zsum_over f ks = zsum_over f ks'.
Proof.
  induction 1 as [|k l l' _ IH|k k' l|l l' l'' _ IH1 _ IH2]; simpl.
  - reflexivity.
  - fold (zsum_over f l). fold (zsum_over f l'). rewrite IH. reflexivity.
  - fold (zsum_over f l). lia.
  - congruence.
Qed.

Lemma zsum_over_squares_nonneg {K : Type} (f : K -> Z) (ks : list K) :
  (0 <= zsum_over (fun k => f k * f k) ks)%Z.
Proof. apply zsum_over_nonneg. intros k. apply Z.square_nonneg. Qed.

Lemma IZR_zsum_over {K : Type} (f g : K -> Z) (ks : list K) :
  IZR (zsum_over (fun k => f k * g k)%Z ks) =
  sum_over (fun k => IZR (f k) * IZR (g k)) ks.
Proof.
  induction ks as [|k ks IH]; simpl; [reflexivity|].
  fold (zsum_over (fun k => f k * g k)%Z ks).
  fold (sum_over (fun k => IZR (f k) * IZR (g k)) ks).
  rewrite plus_IZR, mult_IZR, IH. reflexivity.
Qed.

(** Cauchy-Schwarz for finite integer sums. *)
Lemma zsum_over_cauchy_schwarz {K : Type} (f g : K -> Z) (ks : list K) :
  (zsum_over (fun k => f k * g k) ks * zsum_over (fun k => f k * g k) ks <=
   zsum_over (fun k => f k * f k) ks * zsum_over (fun k => g k * g k) ks)%Z.
Proof.
  apply le_IZR. rewrite !mult_IZR, !IZR_zsum_over.
  apply (sum_over_cauchy_schwarz (fun k => IZR (f k)) (fun k => IZR (g k)) ks).
Qed.

Section Accumulators.
Context {K : Type} `{Hashable K}.
Variables a b : dict K num.
Variable ks : list K.

Lemma int_of_zero_weight (d : dict K num) (k : K) :
int_weights d -> zero_weights d -> int_of (get d k (Int 0)) = 0%Z.
Proof.
intros Hi Hz. pose proof (get_zero_weights d k Hz) as E.
rewrite (get_int_weights d k Hi) in E. simpl in E. apply Z.eqb_eq. exact E.
Qed.

(** Vectors of one kind: the loop raises nothing, and a zero vector
    leaves its squared norm at zero. *)
Lemma cosine_acc_same_kind :
same_kind a b ->
exists dot na nb,
  cosine_acc ks a b = Returns (dot, na, nb) /\
  (zero_weights a -> is_zero na = true) /\
  (zero_weights b -> is_zero nb = true).
Proof.
intros [[Ha Hb] | [Ha Hb]].
- eexists; eexists; eexists. split; [apply (cosine_loop_ints a b ks 0 0 0 Ha Hb)|].
  split; intros Hz; simpl; apply Z.eqb_eq; apply zsum_over_zero; intros k.
  + rewrite (int_of_zero_weight a k Ha Hz). reflexivity.
  + rewrite (int_of_zero_weight b k Hb Hz). reflexivity.
- destruct (cosine_loop_floats a b ks (Int 0, Int 0, Int 0) Ha Hb)
    as ([[dot na] nb] & Es & Hza & Hzb); try (left; reflexivity).
  exists dot, na, nb. split; [exact Es|].
  split; intros Hz; apply zero_sum_is_zero; [apply Hza | apply Hzb];
    try exact Hz; left; reflexivity.
Qed.

(** [int] vectors: the three sums are exact. *)
Lemma cosine_acc_ints :
int_weights a -> int_weights b ->
cosine_acc ks a b =
Returns (Int (dot_product ks a b), Int (squared_norm ks a), Int (squared_norm ks b)).
Proof.
intros Ha Hb. unfold cosine_acc. rewrite (cosine_loop_ints a b ks 0 0 0 Ha Hb).
rewrite !Z.add_0_l. reflexivity.
Qed.

Lemma squared_norm_nonneg (v : dict K num) : (0 <= squared_norm ks v)%Z.
Proof. apply zsum_over_squares_nonneg. Qed.

(** Non-negative [int] vectors: the dot product is not negative. *)
Lemma dot_product_nonneg :
nonneg_ints a -> nonneg_ints b -> (0 <= dot_product ks a b)%Z.
Proof.
intros Ha Hb. apply zsum_over_nonneg. intros k.
apply Z.mul_nonneg_nonneg; apply get_nonneg_ints; assumption.
Qed.

(** The Cauchy-Schwarz inequality of the three sums. *)
Lemma dot_product_cauchy_schwarz :
(dot_product ks a b * dot_product ks a b <= squared_norm ks a * squared_norm ks b)%Z.
Proof.
apply (zsum_over_cauchy_schwarz (fun k => int_of (get a k (Int 0)))
                                (fun k => int_of (get b k (Int 0)))).
Qed.

(** On [int] vectors the kernel is a function of the three exact sums. *)
Lemma cosine_sim_over_ints :
int_weights a -> int_weights b ->
cosine_sim_over ks a b =
if (squared_norm ks a =? 0)%Z || (squared_norm ks b =? 0)%Z then Returns (Int 0)
else bind (math_sqrt (Int (squared_norm ks a))) (fun ra =>
     bind (math_sqrt (Int (squared_norm ks b))) (fun rb =>
     truediv (Int (dot_product ks a b)) (PrimFloat.mul ra rb))).
Proof.
intros Ha Hb. unfold cosine_sim_over. rewrite (cosine_acc_ints Ha Hb). reflexivity.
Qed.
End Accumulators.

End Binary64Facts.

Set Implicit Arguments.

(** C5 (counterexample).  The rating vector [{1: 1, 2: 5}] compared with
    itself: the sums are [dot = na = nb = 26], and
    [26 / (sqrt 26 * sqrt 26)] comes out as [1.0000000000000002], the float
    next above 1.
    With the weight [10^200] the squared norm has no float value and
    [math.sqrt] raises [OverflowError]; with the float weight [1e200] the
    squares overflow to [inf] and the result is NaN; and the zero vector
    [{1: 0.0}] against [{1: 10^400}] raises in the loop. *)
Lemma cosine_sim_exceeds_one_or_raises :
  nonneg_ints [(1%Z, Binary64.Int 1); (2%Z, Binary64.Int 5)] /\
  Binary64.cosine_sim [(1%Z, Binary64.Int 1); (2%Z, Binary64.Int 5)]
                      [(1%Z, Binary64.Int 1); (2%Z, Binary64.Int 5)] =
  Binary64.Returns (Binary64.Float (PrimFloat.next_up PrimFloat.one)) /\
  PrimFloat.ltb PrimFloat.one (PrimFloat.next_up PrimFloat.one) = true /\
  Binary64.cosine_sim [(1%Z, Binary64.Int (10 ^ 200))]
                      [(1%Z, Binary64.Int (10 ^ 200))] =
  Binary64.Raises Binary64.OverflowError /\
  Binary64.cosine_sim [(1%Z, Binary64.Float (Binary64.float_of_Z (10 ^ 200)))]
                      [(1%Z, Binary64.Float (Binary64.float_of_Z (10 ^ 200)))] =
  Binary64.Returns (Binary64.Float PrimFloat.nan) /\
  Binary64.cosine_sim [(1%Z, Binary64.Float PrimFloat.zero)]
                      [(1%Z, Binary64.Int (10 ^ 400))] =
  Binary64.Raises Binary64.OverflowError.
Proof.
  split.
  - unfold nonneg_ints. repeat constructor; eexists; (split; [reflexivity | lia]).
  - repeat split; vm_compute; reflexivity.
Qed.

(** C5.  For two vectors of one kind, whatever the order [ks] in which the
    key set is iterated: the loop raises nothing; a vector that is empty
    or all-zero leaves its squared norm at 0, and then [cosine_sim] returns
    exactly [0], before any square root or division; the division branch
    is taken only when both squared norms are non-zero, and its result is
    [dot / (sqrt na * sqrt nb)] as binary64 computes it.  On non-negative
    [int] weights the three sums are the exact dot product and squared
    norms, with [0 <= dot] and [dot * dot <= na * nb], so the ratio being
    rounded lies in [0,1]; the
    division branch then raises [OverflowError] when a squared norm has no
    float value, and otherwise divides [dot] by the product of the two
    square roots. *)
Theorem cosine_sim_zero_guard_and_exact_sums :
  forall (K : Type) (HK : Hashable K) (ks : list K) (a b : dict K Binary64.num),
    iterates ks a b -> same_kind a b ->
    exists dot na nb,
      Binary64.cosine_acc ks a b = Binary64.Returns (dot, na, nb) /\
      (zero_weights a -> Binary64.is_zero na = true) /\
      (zero_weights b -> Binary64.is_zero nb = true) /\
      (Binary64.is_zero na = true \/ Binary64.is_zero nb = true ->
       Binary64.cosine_sim_over ks a b = Binary64.Returns (Binary64.Int 0)) /\
      (Binary64.is_zero na = false -> Binary64.is_zero nb = false ->
       Binary64.cosine_sim_over ks a b =
       Binary64.bind (Binary64.math_sqrt na) (fun ra =>
       Binary64.bind (Binary64.math_sqrt nb) (fun rb =>
       Binary64.truediv dot (PrimFloat.mul ra rb)))) /\
      (nonneg_ints a -> nonneg_ints b ->
       let d := dot_product ks a b in
       let x := squared_norm ks a in
       let y := squared_norm ks b in
       dot = Binary64.Int d /\ na = Binary64.Int x /\ nb = Binary64.Int y /\
       (0 <= d)%Z /\ (d * d <= x * y)%Z /\
       (x <> 0%Z -> y <> 0%Z ->
        Binary64.cosine_sim_over ks a b =
        if Binary64.fits_float x && Binary64.fits_float y
        then Binary64.truediv (Binary64.Int d)
               (PrimFloat.mul (PrimFloat.sqrt (Binary64.float_of_Z x))
                              (PrimFloat.sqrt (Binary64.float_of_Z y)))
        else Binary64.Raises Binary64.OverflowError)).
Proof.
  intros K HK ks a b _ Hkind.
  destruct (Binary64Facts.cosine_acc_same_kind a b ks Hkind)
    as (dot & na & nb & Hacc & Hza & Hzb).
  exists dot, na, nb.
  split; [exact Hacc | split; [exact Hza | split; [exact Hzb|]]].
  assert (Hdiv : Binary64.is_zero na = false -> Binary64.is_zero nb = false ->
                 Binary64.cosine_sim_over ks a b =
                 Binary64.bind (Binary64.math_sqrt na) (fun ra =>
                 Binary64.bind (Binary64.math_sqrt nb) (fun rb =>
                 Binary64.truediv dot (PrimFloat.mul ra rb)))).
  { intros Ea Eb. unfold Binary64.cosine_sim_over. rewrite Hacc.
    cbn [Binary64.bind fst snd]. rewrite Ea, Eb. reflexivity. }
  split; [|split; [exact Hdiv|]].
  - intros Hz. unfold Binary64.cosine_sim_over. rewrite Hacc. cbn [Binary64.bind fst snd].
    destruct Hz as [-> | ->]; [|rewrite orb_true_r]; reflexivity.
  - intros Ha Hb. cbv zeta.
    pose proof (Binary64Facts.cosine_acc_ints a b ks
                  (Binary64Facts.nonneg_ints_int_weights a Ha)
                  (Binary64Facts.nonneg_ints_int_weights b Hb)) as Hints.
    rewrite Hacc in Hints. injection Hints as -> -> ->.
    pose proof (Binary64Facts.squared_norm_nonneg ks a) as Hx.
    pose proof (Binary64Facts.squared_norm_nonneg ks b) as Hy.
    split; [reflexivity | split; [reflexivity | split; [reflexivity|]]].
    split; [apply Binary64Facts.dot_product_nonneg; assumption|].
    split; [apply Binary64Facts.dot_product_cauchy_schwarz|].
    intros Hxz Hyz. rewrite Hdiv by (apply Z.eqb_neq; assumption).
    rewrite (Binary64Facts.math_sqrt_int _ Hx), (Binary64Facts.math_sqrt_int _ Hy).
    destruct (Binary64.fits_float (squared_norm ks a)),
             (Binary64.fits_float (squared_norm ks b)); reflexivity.
Qed.

(** The theorem at the rating vector [{1: 1, 2: 5}] compared with itself. *)
Lemma cosine_sim_zero_guard_and_exact_sums_witness :
  iterates [1%Z; 2%Z] [(1%Z, Binary64.Int 1); (2%Z, Binary64.Int 5)]
                      [(1%Z, Binary64.Int 1); (2%Z, Binary64.Int 5)] /\
  same_kind [(1%Z, Binary64.Int 1); (2%Z, Binary64.Int 5)]
            [(1%Z, Binary64.Int 1); (2%Z, Binary64.Int 5)] /\
  exists dot na nb,
    Binary64.cosine_acc [1%Z; 2%Z] [(1%Z, Binary64.Int 1); (2%Z, Binary64.Int 5)]
                                   [(1%Z, Binary64.Int 1); (2%Z, Binary64.Int 5)] =
    Binary64.Returns (dot, na, nb) /\
    (Binary64.is_zero na = false -> Binary64.is_zero nb = false ->
     Binary64.cosine_sim_over [1%Z; 2%Z] [(1%Z, Binary64.Int 1); (2%Z, Binary64.Int 5)]
                                         [(1%Z, Binary64.Int 1); (2%Z, Binary64.Int 5)] =
     Binary64.bind (Binary64.math_sqrt na) (fun ra =>
     Binary64.bind (Binary64.math_sqrt nb) (fun rb =>
     Binary64.truediv dot (PrimFloat.mul ra rb)))).
Proof.
  assert (Hit : iterates [1%Z; 2%Z] [(1%Z, Binary64.Int 1); (2%Z, Binary64.Int 5)]
                                    [(1%Z, Binary64.Int 1); (2%Z, Binary64.Int 5)])
    by (unfold iterates; vm_compute; apply Permutation_refl).
  assert (Hkind : same_kind [(1%Z, Binary64.Int 1); (2%Z, Binary64.Int 5)]
                            [(1%Z, Binary64.Int 1); (2%Z, Binary64.Int 5)]).
  { left. split; repeat constructor; eexists; reflexivity. }
  split; [exact Hit | split; [exact Hkind|]].
  destruct (@cosine_sim_zero_guard_and_exact_sums Z _ _ _ _ Hit Hkind)
    as (dot & na & nb & Hacc & _ & _ & _ & Hdiv & _).
  exists dot, na, nb. split; [exact Hacc | exact Hdiv].
Defined.

(** ** Updating a dictionary *)

Section DictSet.
Context {K V : Type} `{Hashable K}.

Lemma set_fresh (d : dict K V) (k : K) (v : V) :
~ In k (keys d) -> set d k v = d ++ [(k, v)].
Proof.
induction d as [|[k' v'] d IH]; simpl; intros Hn; [reflexivity|].
destruct (key_eq_dec k k') as [->|Hne]; [exfalso; auto|].
rewrite IH by auto. reflexivity.
Qed.

Lemma keys_set (d : dict K V) (k : K) (v : V) :
keys (set d k v) = if in_dec key_eq_dec k (keys d) then keys d else keys d ++ [k].
Proof.
induction d as [|[k' v'] d IH]; simpl; [reflexivity|].
destruct (key_eq_dec k k') as [->|Hne]; simpl.
- destruct (key_eq_dec k' k') as [?|Hc]; [reflexivity | contradiction].
- rewrite IH. destruct (key_eq_dec k' k) as [Heq|?]; [congruence|].
  destruct (in_dec key_eq_dec k (keys d)); reflexivity.
Qed.

Lemma in_keys_set (d : dict K V) (k k' : K) (v : V) :
In k' (keys (set d k v)) <-> k' = k \/ In k' (keys d).
Proof.
rewrite keys_set. destruct (in_dec key_eq_dec k (keys d)) as [Hin|Hout].
- split; [auto | intros [->|Hk]; assumption].
- rewrite in_app_iff. simpl. split; intros Hk.
  + destruct Hk as [Hk|[Hk|[]]]; auto.
  + destruct Hk as [->|Hk]; auto.
Qed.

Lemma lookup_set_same (d : dict K V) (k : K) (v : V) :
lookup (set d k v) k = Some v.
Proof.
induction d as [|[k' v'] d IH]; simpl.
- destruct (key_eq_dec k k); [reflexivity | contradiction].
- destruct (key_eq_dec k k') as [->|Hne]; simpl.
  + destruct (key_eq_dec k' k'); [reflexivity | contradiction].
  + destruct (key_eq_dec k k'); [contradiction | exact IH].
Qed.

Lemma lookup_set_other (d : dict K V) (k k' : K) (v : V) :
k' <> k -> lookup (set d k v) k' = lookup d k'.
Proof.
intros Hne. induction d as [|[k0 v0] d IH]; simpl.
- destruct (key_eq_dec k' k); [contradiction | reflexivity].
- destruct (key_eq_dec k k0) as [->|Hk]; simpl.
  + destruct (key_eq_dec k' k0); [contradiction | reflexivity].
  + destruct (key_eq_dec k' k0); [reflexivity | exact IH].
Qed.

Lemma NoDup_keys_set (d : dict K V) (k : K) (v : V) :
NoDup (keys d) -> NoDup (keys (set d k v)).
Proof.
intros Hd. rewrite keys_set. destruct (in_dec key_eq_dec k (keys d)); [exact Hd|].
apply NoDup_app; [exact Hd | repeat constructor; simpl; tauto |].
intros x Hx [<-|[]]. contradiction.
Qed.

Lemma lookup_of_In (d : dict K V) (k : K) (v : V) :
NoDup (keys d) -> In (k, v) d -> lookup d k = Some v.
Proof.
induction d as [|[k' v'] d IH]; simpl; intros Hnd Hin; [contradiction|].
inversion Hnd as [|? ? Hk' Hd]; subst.
destruct Hin as [Heq|Hin].
- inversion Heq; subst. destruct (key_eq_dec k k); [reflexivity | contradiction].
- destruct (key_eq_dec k k') as [->|Hne]; [|auto].
  exfalso. apply Hk'. apply (in_map fst) in Hin. exact Hin.
Qed.

Lemma of_items_fold (l acc : list (K * V)) :
NoDup (keys (acc ++ l)) ->
fold_left (fun d kv => set d (fst kv) (snd kv)) l acc = acc ++ l.
Proof.
revert acc. induction l as [|[k v] l IH]; intros acc Hnd; simpl.
- rewrite app_nil_r. reflexivity.
- assert (Hfresh : ~ In k (keys acc)).
  { unfold keys in *. rewrite map_app in Hnd. simpl in Hnd.
    apply NoDup_remove_2 in Hnd. intros Hin. apply Hnd.
    apply in_or_app. auto. }
  rewrite set_fresh by exact Hfresh.
  rewrite IH; rewrite <- app_assoc; simpl; [reflexivity | exact Hnd].
Qed.

(** [dict(items)] keeps a list of items whose keys are distinct. *)
Lemma of_items_NoDup (l : list (K * V)) : NoDup (keys l) -> of_items l = l.
Proof. intros Hnd. unfold of_items. rewrite of_items_fold; auto. Qed.

End DictSet.

(** ** Sorting *)

Section SortFacts.
Context {A : Type}.
Variable key : A -> R.

Lemma insert_desc_Permutation (x : A) (l : list A) :
Permutation (insert_desc key x l) (x :: l).
Proof.
induction l as [|y l IH]; simpl; [reflexivity|].
destruct (Rle_dec (key y) (key x)); [reflexivity|].
rewrite IH. apply perm_swap.
Qed.

Lemma sorted_desc_Permutation (l : list A) : Permutation (sorted_desc key l) l.
Proof.
induction l as [|x l IH]; simpl; [reflexivity|].
rewrite insert_desc_Permutation. constructor. exact IH.
Qed.

Lemma insert_desc_sorted (before : A -> A -> Prop) (x : A) (l : list A) :
Forall (before x) l ->
StronglySorted (desc_then key before) l ->
StronglySorted (desc_then key before) (insert_desc key x l).
Proof.
induction l as [|y l IH]; simpl; intros Hx Hs.
- constructor; [constructor | constructor].
- inversion Hs as [|? ? Hl Hy]; subst. inversion Hx as [|? ? Hxy Hxl]; subst.
  destruct (Rle_dec (key y) (key x)) as [Hle|Hgt].
  + constructor; [exact Hs|]. constructor.
    * unfold desc_then. destruct Hle as [Hlt|Heq]; [left; lra | right; auto].
    * rewrite Forall_forall in *. intros z Hz.
      specialize (Hy z Hz). specialize (Hxl z Hz). unfold desc_then in *.
      destruct Hy as [Hy|[Hy _]]; destruct Hle as [Hlt|Heq];
        try (left; lra). right. split; [lra | exact Hxl].
  + constructor; [apply IH; assumption|].
    rewrite Forall_forall. intros z Hz.
    apply (Permutation_in _ (insert_desc_Permutation x l)) in Hz.
    destruct Hz as [<-|Hz].
    * left. lra.
    * rewrite Forall_forall in Hy. auto.
Qed.

Lemma sorted_desc_sorted (before : A -> A -> Prop) (l : list A) :
StronglySorted before l ->
StronglySorted (desc_then key before) (sorted_desc key l).
Proof.
induction l as [|x l IH]; simpl; intros Hs; [constructor|].
inversion Hs as [|? ? Hl Hx]; subst.
apply insert_desc_sorted; [|auto].
rewrite Forall_forall in *. intros z Hz. apply Hx.
eapply Permutation_in; [apply sorted_desc_Permutation | exact Hz].
Qed.

End SortFacts.

(* ================================================================== *)
(** * The blender *)
(* ================================================================== *)

Lemma MOVIE_IDS_eq : MOVIE_IDS = [1; 2; 3; 4; 5]%Z.
Proof. reflexivity. Qed.

Lemma NoDup_MOVIE_IDS : NoDup MOVIE_IDS.
Proof.
  rewrite MOVIE_IDS_eq.
  repeat (constructor; [simpl; intuition discriminate|]).
  constructor.
Qed.

Lemma NoDup_keys_sorted_desc {K : Type} (key : K * R -> R) (d : dict K R) :
  NoDup (keys d) -> NoDup (keys (sorted_desc key d)).
Proof.
  intros Hnd. eapply Permutation_NoDup; [|exact Hnd].
  apply Permutation_map. apply Permutation_sym. apply sorted_desc_Permutation.
Qed.

Section Blender.
Variables cf_scores cb_scores : dict Z R.
Variable alpha : R.

Let entry (m : Z) : Z * R := (m, blend cf_scores cb_scores alpha m).

Lemma hybrid_loop (ids : list Z) (acc : dict Z R) :
NoDup ids -> (forall m, In m ids -> ~ In m (keys acc)) ->
fold_left (hybrid_item cf_scores cb_scores alpha) ids acc =
acc ++ map entry (filter (scored cf_scores cb_scores) ids).
Proof.
revert acc. induction ids as [|m ids IH]; intros acc Hnd Hfresh; simpl.
- rewrite app_nil_r. reflexivity.
- inversion Hnd as [|? ? Hm Hids]; subst.
  unfold hybrid_item at 2. fold (scored cf_scores cb_scores m).
  fold (blend cf_scores cb_scores alpha m).
  destruct (scored cf_scores cb_scores m).
  + rewrite set_fresh by (apply Hfresh; simpl; auto).
    rewrite IH; [rewrite <- app_assoc; reflexivity | exact Hids |].
    intros m' Hm'. unfold keys. rewrite map_app, in_app_iff. simpl.
    intros [Hin|[<-|[]]]; [|contradiction].
    apply (Hfresh m'); simpl; auto.
  + apply IH; [exact Hids|]. intros m' Hm'. apply Hfresh. simpl. auto.
Qed.

Lemma keys_entries (ids : list Z) : keys (map entry ids) = ids.
Proof. unfold keys. rewrite map_map. simpl. apply map_id. Qed.

(** [hybrid_scores] in closed form: the scored catalog items, each with
  its blended score, sorted. *)
Lemma hybrid_scores_closed_form :
hybrid_scores cf_scores cb_scores alpha =
sorted_desc snd (map entry (filter (scored cf_scores cb_scores) MOVIE_IDS)).
Proof.
unfold hybrid_scores.
rewrite hybrid_loop; [rewrite app_nil_l | apply NoDup_MOVIE_IDS | intros m _ []].
apply of_items_NoDup. apply NoDup_keys_sorted_desc.
rewrite keys_entries. apply NoDup_filter. apply NoDup_MOVIE_IDS.
Qed.

Lemma NoDup_keys_hybrid_scores :
NoDup (keys (hybrid_scores cf_scores cb_scores alpha)).
Proof.
rewrite hybrid_scores_closed_form. apply NoDup_keys_sorted_desc.
rewrite keys_entries. apply NoDup_filter. apply NoDup_MOVIE_IDS.
Qed.

Lemma in_hybrid_scores (m : Z) (s : R) :
In (m, s) (hybrid_scores cf_scores cb_scores alpha) <->
In m MOVIE_IDS /\ scored cf_scores cb_scores m = true /\
s = blend cf_scores cb_scores alpha m.
Proof.
rewrite hybrid_scores_closed_form. split.
- intros Hin. apply (Permutation_in _ (sorted_desc_Permutation snd _)) in Hin.
  apply in_map_iff in Hin. destruct Hin as [m' [Heq Hm']].
  apply filter_In in Hm'. unfold entry in Heq. inversion Heq; subst. tauto.
- intros (Hm & Hs & ->).
  apply (Permutation_in _ (Permutation_sym (sorted_desc_Permutation snd _))).
  apply in_map_iff. exists m. split; [reflexivity|]. apply filter_In. auto.
Qed.

Lemma lookup_hybrid_scores (m : Z) (s : R) :
lookup (hybrid_scores cf_scores cb_scores alpha) m = Some s <->
In m MOVIE_IDS /\ scored cf_scores cb_scores m = true /\
s = blend cf_scores cb_scores alpha m.
Proof.
rewrite <- in_hybrid_scores. split.
- apply lookup_In.
- apply lookup_of_In. apply NoDup_keys_hybrid_scores.
Qed.

Lemma in_keys_hybrid_scores (m : Z) :
In m (keys (hybrid_scores cf_scores cb_scores alpha)) <->
In m MOVIE_IDS /\ scored cf_scores cb_scores m = true.
Proof.
unfold keys. rewrite in_map_iff. split.
- intros [[m' s] [Heq Hin]]. simpl in Heq. subst m'.
  apply in_hybrid_scores in Hin. tauto.
- intros [Hm Hs]. exists (m, blend cf_scores cb_scores alpha m).
  split; [reflexivity|]. apply in_hybrid_scores. auto.
Qed.
End Blender.

Lemma scored_true (cf_scores cb_scores : dict Z R) (m : Z) :
  scored cf_scores cb_scores m = true <->
  get cf_scores m 0 <> 0 \/ get cb_scores m 0 <> 0.
Proof. unfold scored. rewrite orb_true_iff, !truthy_true. reflexivity. Qed.

(** C1, as the code has it.  The blender's output holds exactly the catalog
    items for which the collaborative or the content score, read as 0 when
    the item is missing from that map, is non-zero; such an item's score is
    [0.6 * cf_score + 0.4 * cb_score]. *)
Theorem hybrid_scores_nonzero_catalog_items :
  forall (cf_scores cb_scores : dict Z R) (m : Z) (s : R),
    (In m (keys (hybrid_scores cf_scores cb_scores 0.6)) <->
     In m MOVIE_IDS /\ (get cf_scores m 0 <> 0 \/ get cb_scores m 0 <> 0)) /\
    (lookup (hybrid_scores cf_scores cb_scores 0.6) m = Some s <->
     In m MOVIE_IDS /\ (get cf_scores m 0 <> 0 \/ get cb_scores m 0 <> 0) /\
     s = 0.6 * get cf_scores m 0 + 0.4 * get cb_scores m 0).
Proof.
  intros cf_scores cb_scores m s. split.
  - rewrite in_keys_hybrid_scores, scored_true. reflexivity.
  - rewrite lookup_hybrid_scores, scored_true. unfold blend.
    split; intros (Hm & Hs & ->); (split; [exact Hm | split; [exact Hs | lra]]).
Qed.

(** C1 as stated fails: item 2 is a key of the content map, with score 0,
    and is not in the blender's output. *)
Lemma hybrid_scores_drops_zero_scored_key :
  (In 2%Z (keys (@nil (Z * R))) \/ In 2%Z (keys [(2%Z, 0)])) /\
  ~ In 2%Z (keys (hybrid_scores [] [(2%Z, 0)] 0.6)).
Proof.
  split; [right; simpl; auto|].
  rewrite in_keys_hybrid_scores, scored_true. intros [_ [Hcf|Hcb]].
  - apply Hcf. reflexivity.
  - apply Hcb. reflexivity.
Qed.

(* ================================================================== *)
(** * Loops that fill a dictionary *)
(* ================================================================== *)

Lemma comprehension_map {A B : Type} (f : A -> result B) (g : A -> B) (l : list A) :
  (forall x, In x l -> f x = Some (g x)) -> comprehension f l = Some (map g l).
Proof.
  induction l as [|x l IH]; intros Hf; simpl; [reflexivity|].
  rewrite Hf by (simpl; auto). simpl. rewrite IH; [reflexivity|].
  intros y Hy. apply Hf. simpl. auto.
Qed.

(** A loop that, for each element kept by [keep], stores [val x] under the
    key [kf x], over elements with distinct keys. *)
Lemma for_each_set {A K V : Type} `{Hashable K}
  (kf : A -> K) (keep : A -> bool) (val : A -> V)
  (body : dict K V -> A -> result (dict K V)) (l : list A) :
  (forall acc x, In x l ->
     body acc x = Some (if keep x then set acc (kf x) (val x) else acc)) ->
  NoDup (map kf l) ->
  forall acc, (forall x, In x l -> ~ In (kf x) (keys acc)) ->
  for_each body l acc = Some (acc ++ map (fun x => (kf x, val x)) (filter keep l)).
Proof.
  induction l as [|x l IH]; intros Hbody Hnd acc Hfresh; simpl.
  - rewrite app_nil_r. reflexivity.
  - inversion Hnd as [|? ? Hx Hl]; subst.
    rewrite Hbody by (simpl; auto). simpl.
    assert (Hbody' : forall acc y, In y l ->
              body acc y = Some (if keep y then set acc (kf y) (val y) else acc)).
    { intros acc' y Hy. apply Hbody. simpl. auto. }
    destruct (keep x).
    + rewrite set_fresh by (apply Hfresh; simpl; auto).
      rewrite (IH Hbody' Hl); [simpl; rewrite <- app_assoc; reflexivity|].
      intros y Hy. unfold keys. rewrite map_app, in_app_iff. simpl.
      intros [Hin|[Heq|[]]].
      * apply (Hfresh y); simpl; auto.
      * apply Hx. rewrite Heq. apply in_map. exact Hy.
    + apply (IH Hbody' Hl). intros y Hy. apply Hfresh. simpl. auto.
Qed.

(* ================================================================== *)
(** * The predictors *)
(* ================================================================== *)

Lemma cosine_sim_val {K : Type} `{Hashable K} (a b : dict K R) :
  cosine_sim a b = Some (cosine_val a b).
Proof.
  unfold cosine_val. destruct (cosine_sim_total a b) as [v Hv]. rewrite Hv. reflexivity.
Qed.

Lemma cf_sims_eq (ratings : dict Z R) (community : list peer) :
  cf_sims ratings community = Some (sims_of ratings community).
Proof.
  unfold cf_sims, sims_of. apply comprehension_map.
  intros u _. rewrite cosine_sim_val. reflexivity.
Qed.

Lemma cf_neighbors_eq (ratings : dict Z R) (community : list peer) (k : nat) :
  cf_neighbors ratings community k =
  Some (firstn k (filter (fun s => gtb (sim_of s) 0)
                         (sorted_desc sim_of (sims_of ratings community)))).
Proof. unfold cf_neighbors. rewrite cf_sims_eq. reflexivity. Qed.

(** What the outer loop of [predict_cf] keeps, and the score it stores. *)
Lemma cf_item_eq (ratings : dict Z R) (neighbors : list sim_entry)
  (pred : dict Z R) (m : Z) :
  cf_item ratings neighbors pred m =
  Some (if negb (contains ratings m) && gtb (snd (cf_accumulate neighbors m)) 0
        then set pred m (fst (cf_accumulate neighbors m) / snd (cf_accumulate neighbors m))
        else pred).
Proof.
  unfold cf_item. destruct (contains ratings m); simpl; [reflexivity|].
  destruct (gtb (snd (cf_accumulate neighbors m)) 0) eqn:Hden; [|reflexivity].
  apply gtb_true in Hden. rewrite div_nonzero by lra. reflexivity.
Qed.

Lemma cf_loop_eq (ratings : dict Z R) (neighbors : list sim_entry) :
  for_each (cf_item ratings neighbors) MOVIE_IDS [] =
  Some (map (fun m => (m, fst (cf_accumulate neighbors m) / snd (cf_accumulate neighbors m)))
            (filter (fun m => negb (contains ratings m)
                              && gtb (snd (cf_accumulate neighbors m)) 0)
                    MOVIE_IDS)).
Proof.
  rewrite (for_each_set (fun m : Z => m)
             (fun m => negb (contains ratings m) && gtb (snd (cf_accumulate neighbors m)) 0)
             (fun m => fst (cf_accumulate neighbors m) / snd (cf_accumulate neighbors m))).
  - reflexivity.
  - intros acc m _. apply cf_item_eq.
  - rewrite map_id. apply NoDup_MOVIE_IDS.
  - intros m _ [].
Qed.

Lemma NoDup_movie_ids : NoDup (map movie_id MOVIES).
Proof. exact NoDup_MOVIE_IDS. Qed.

Lemma predict_cb_eq (tfidf_vectors : dict Z (dict string R))
  (user_profile : dict string R) (ratings : dict Z R) :
  predict_cb tfidf_vectors user_profile ratings =
  Some (map (fun m => (movie_id m,
                       cosine_val user_profile (get tfidf_vectors (movie_id m) []) * 5))
            (filter (fun m => negb (contains ratings (movie_id m))) MOVIES)).
Proof.
  unfold predict_cb.
  rewrite (for_each_set movie_id
             (fun m => negb (contains ratings (movie_id m)))
             (fun m => cosine_val user_profile (get tfidf_vectors (movie_id m) []) * 5)).
  - reflexivity.
  - intros acc m _. unfold cb_item. destruct (contains ratings (movie_id m)); simpl.
    + reflexivity.
    + rewrite cosine_sim_val. reflexivity.
  - apply NoDup_movie_ids.
  - intros m _ [].
Qed.

(** In exact arithmetic [predict_cf] and [predict_cb] never raise. *)
Lemma predict_cf_total (ratings : dict Z R) (community : list peer) (k : nat) :
  exists pred, predict_cf ratings community k = Some pred.
Proof.
  unfold predict_cf. rewrite cf_neighbors_eq. cbn [bind]. rewrite cf_loop_eq. eauto.
Qed.

(* ================================================================== *)
(** * The prompt booster *)
(* ================================================================== *)

Lemma movie_by_id_catalog (mid : Z) :
  In mid MOVIE_IDS -> exists m, movie_by_id mid = Some m /\ movie_id m = mid /\ In m MOVIES.
Proof.
  rewrite MOVIE_IDS_eq. simpl.
  intros [<-|[<-|[<-|[<-|[<-|[]]]]]];
    (eexists; split; [reflexivity | split; [reflexivity | simpl; tauto]]).
Qed.

Lemma boost_item_eq (q : string) (boosted : dict Z R) (e : Z * R) :
  In (fst e) MOVIE_IDS ->
  boost_item q boosted e = Some (set boosted (fst e) (snd e + boost_of q (fst e))).
Proof.
  intros Hin. destruct (movie_by_id_catalog Hin) as (m & Hm & _).
  unfold boost_item, boost_of. rewrite Hm. reflexivity.
Qed.

Lemma boost_loop_eq (q : string) (hybrid : dict Z R) :
  NoDup (keys hybrid) -> (forall k, In k (keys hybrid) -> In k MOVIE_IDS) ->
  for_each (boost_item q) hybrid [] =
  Some (map (fun e => (fst e, snd e + boost_of q (fst e))) hybrid).
Proof.
  intros Hnd Hcat.
  rewrite (for_each_set fst (fun _ => true) (fun e => snd e + boost_of q (fst e))).
  - rewrite app_nil_l. f_equal. f_equal.
    clear. induction hybrid as [|e l IH]; simpl; [reflexivity | rewrite IH; reflexivity].
  - intros acc e He. apply boost_item_eq. apply Hcat. apply in_map. exact He.
  - exact Hnd.
  - intros e _ [].
Qed.

Lemma keys_boosted (q : string) (hybrid : dict Z R) :
  keys (map (fun e => (fst e, snd e + boost_of q (fst e))) hybrid) = keys hybrid.
Proof. unfold keys. rewrite map_map. reflexivity. Qed.

(** The booster on a catalog-keyed score map and a non-empty prompt. *)
Lemma apply_prompt_boost_nonempty (hybrid : dict Z R) (p : string) :
  p <> EmptyString ->
  NoDup (keys hybrid) -> (forall k, In k (keys hybrid) -> In k MOVIE_IDS) ->
  apply_prompt_boost hybrid (Some p) =
  Some (sorted_desc snd (map (fun e => (fst e, snd e + boost_of (lower p) (fst e))) hybrid)).
Proof.
  intros Hp Hnd Hcat. destruct p as [|c p']; [contradiction|].
  unfold apply_prompt_boost. rewrite boost_loop_eq by assumption. cbn [bind].
  unfold ret. f_equal. apply of_items_NoDup. apply NoDup_keys_sorted_desc.
  rewrite keys_boosted. exact Hnd.
Qed.

(* ================================================================== *)
(** * The order of the score maps *)
(* ================================================================== *)

Section Sortedness.
Context {A : Type}.

Lemma StronglySorted_weaken (R1 R2 : A -> A -> Prop) (l : list A) :
(forall x y, In x l -> In y l -> R1 x y -> R2 x y) ->
StronglySorted R1 l -> StronglySorted R2 l.
Proof.
induction l as [|x l IH]; intros Himp Hs; [constructor|].
inversion Hs as [|? ? Hl Hx]; subst. constructor.
- apply IH; [|exact Hl]. intros a b Ha Hb. apply Himp; simpl; auto.
- rewrite Forall_forall in *. intros y Hy. apply Himp; simpl; auto.
Qed.

Lemma StronglySorted_both (R1 R2 : A -> A -> Prop) (l : list A) :
StronglySorted R1 l -> StronglySorted R2 l ->
StronglySorted (fun x y => R1 x y /\ R2 x y) l.
Proof.
induction l as [|x l IH]; intros H1 H2; [constructor|].
inversion H1 as [|? ? Hl1 Hx1]; inversion H2 as [|? ? Hl2 Hx2]; subst.
constructor; [auto|]. rewrite Forall_forall in *. auto.
Qed.

Lemma StronglySorted_filter (R : A -> A -> Prop) (f : A -> bool) (l : list A) :
StronglySorted R l -> StronglySorted R (filter f l).
Proof.
induction l as [|x l IH]; intros Hs; simpl; [constructor|].
inversion Hs as [|? ? Hl Hx]; subst.
destruct (f x); [|auto]. constructor; [auto|].
rewrite Forall_forall in *. intros y Hy. apply filter_In in Hy. apply Hx. tauto.
Qed.

Lemma StronglySorted_map_inv {B : Type} (R : B -> B -> Prop) (f : A -> B) (l : list A) :
StronglySorted R (map f l) -> StronglySorted (fun x y => R (f x) (f y)) l.
Proof.
induction l as [|x l IH]; simpl; intros Hs; [constructor|].
inversion Hs as [|? ? Hl Hx]; subst. constructor; [auto|].
rewrite Forall_forall in *. intros y Hy. apply Hx. apply in_map. exact Hy.
Qed.

End Sortedness.

Lemma position_head (x : Z) (l : list Z) : position (x :: l) x = O.
Proof. simpl. destruct (Z.eq_dec x x); [reflexivity | contradiction]. Qed.

Lemma position_tail (x y : Z) (l : list Z) :
  y <> x -> position (x :: l) y = S (position l y).
Proof. intros Hne. simpl. destruct (Z.eq_dec y x); [contradiction | reflexivity]. Qed.

(** A list without repetition lists its elements in its own order. *)
Lemma listed_in_own_order (l : list Z) :
  NoDup l -> StronglySorted (listed_before l) l.
Proof.
  induction l as [|x l IH]; intros Hnd; [constructor|].
  inversion Hnd as [|? ? Hx Hl]; subst. constructor.
  - apply StronglySorted_weaken with (R1 := listed_before l); [|auto].
    intros a b Ha Hb Hab. unfold listed_before in *.
    rewrite !position_tail by (intros ->; contradiction). lia.
  - rewrite Forall_forall. intros y Hy. unfold listed_before.
    rewrite position_head, position_tail by (intros ->; contradiction). lia.
Qed.

Lemma items_in_key_order (d : dict Z R) :
  NoDup (keys d) ->
  StronglySorted (fun x y => listed_before (keys d) (fst x) (fst y)) d.
Proof.
  intros Hnd. apply StronglySorted_map_inv with (f := @fst Z R).
  apply listed_in_own_order. exact Hnd.
Qed.

Lemma descending_of_ties (l : list Z) (d : dict Z R) :
  descending_ties_as l d -> descending d.
Proof.
  apply StronglySorted_weaken. intros x y _ _ [Hgt|[Heq _]]; lra.
Qed.

Lemma ties_in_own_order (d : dict Z R) :
  NoDup (keys d) -> descending d -> descending_ties_as (keys d) d.
Proof.
  intros Hnd Hd. unfold descending_ties_as.
  pose proof (StronglySorted_both Hd (items_in_key_order d Hnd)) as Hb.
  revert Hb. apply StronglySorted_weaken. intros x y _ _ [Hge Hpos].
  unfold desc_then. destruct Hge as [Hgt|Heq]; [left; exact Hgt | right; auto].
Qed.

Lemma keys_tagged {A K V : Type} (kf : A -> K) (val : A -> V) (l : list A) :
  keys (map (fun x => (kf x, val x)) l) = map kf l.
Proof. unfold keys. rewrite map_map. reflexivity. Qed.

Lemma hybrid_scores_descending (cf_scores cb_scores : dict Z R) (alpha : R) :
  descending_ties_as MOVIE_IDS (hybrid_scores cf_scores cb_scores alpha).
Proof.
  rewrite hybrid_scores_closed_form. apply sorted_desc_sorted.
  apply StronglySorted_map_inv with (f := @fst Z R).
  fold (keys (map (fun m => (m, blend cf_scores cb_scores alpha m))
                  (filter (scored cf_scores cb_scores) MOVIE_IDS))).
  rewrite (keys_tagged (fun m : Z => m)), map_id.
  apply StronglySorted_filter. apply listed_in_own_order. apply NoDup_MOVIE_IDS.
Qed.

Lemma hybrid_scores_keys_catalog (cf_scores cb_scores : dict Z R) (alpha : R) (k : Z) :
  In k (keys (hybrid_scores cf_scores cb_scores alpha)) -> In k MOVIE_IDS.
Proof. intros Hk. apply in_keys_hybrid_scores in Hk. tauto. Qed.

Lemma boost_of_blend_descending (cf_scores cb_scores : dict Z R) (alpha : R)
  (prompt : option string) :
  exists out,
    apply_prompt_boost (hybrid_scores cf_scores cb_scores alpha) prompt = Some out /\
    descending_ties_as (keys (hybrid_scores cf_scores cb_scores alpha)) out.
Proof.
  set (h := hybrid_scores cf_scores cb_scores alpha).
  assert (Hnd : NoDup (keys h)) by apply NoDup_keys_hybrid_scores.
  assert (Hsame : descending_ties_as (keys h) h).
  { apply ties_in_own_order; [exact Hnd|].
    eapply descending_of_ties. apply hybrid_scores_descending. }
  destruct prompt as [p|]; [|exists h; split; [reflexivity | exact Hsame]].
  destruct (string_dec p EmptyString) as [->|Hp];
    [exists h; split; [reflexivity | exact Hsame]|].
  eexists. split.
  - apply apply_prompt_boost_nonempty; [exact Hp | exact Hnd |].
    apply hybrid_scores_keys_catalog.
  - apply sorted_desc_sorted.
    apply StronglySorted_map_inv with (f := @fst Z R).
    fold (keys (map (fun e : Z * R => (fst e, snd e + boost_of (lower p) (fst e))) h)).
    rewrite keys_boosted. apply listed_in_own_order. exact Hnd.
Qed.





(* ================================================================== *)
(** * No self-recommendation *)
(* ================================================================== *)

Lemma Some_eq {A : Type} (x y : A) : Some x = Some y -> x = y.
Proof. congruence. Qed.

Lemma predict_cf_keys (ratings : dict Z R) (community : list peer) (k : nat)
  (pred : dict Z R) (m : Z) :
  predict_cf ratings community k = Some pred ->
  In m (keys pred) -> In m MOVIE_IDS /\ ~ In m (keys ratings).
Proof.
  unfold predict_cf. rewrite cf_neighbors_eq. cbn [bind]. rewrite cf_loop_eq.
  intros Heq. apply Some_eq in Heq. subst.
  rewrite (keys_tagged (fun m : Z => m)), map_id, filter_In, andb_true_iff, negb_true_iff.
  intros (Hm & Hr & _). split; [exact Hm|]. apply contains_false. exact Hr.
Qed.

Lemma predict_cb_keys (tfidf_vectors : dict Z (dict string R))
  (user_profile : dict string R) (ratings : dict Z R) (scores : dict Z R) (m : Z) :
  predict_cb tfidf_vectors user_profile ratings = Some scores ->
  (In m (keys scores) <-> In m MOVIE_IDS /\ ~ In m (keys ratings)).
Proof.
  rewrite predict_cb_eq. intros Heq. apply Some_eq in Heq. subst.
  rewrite keys_tagged, in_map_iff. split.
  - intros (mv & <- & Hmv). apply filter_In in Hmv. destruct Hmv as [Hmv Hr].
    apply negb_true_iff in Hr. split; [apply in_map; exact Hmv|].
    apply contains_false. exact Hr.
  - intros [Hm Hr]. unfold MOVIE_IDS in Hm. apply in_map_iff in Hm.
    destruct Hm as (mv & <- & Hmv). exists mv. split; [reflexivity|].
    apply filter_In. split; [exact Hmv|]. apply negb_true_iff.
    apply contains_false. exact Hr.
Qed.

Lemma hybrid_scores_keys_from_inputs (cf_scores cb_scores : dict Z R) (alpha : R) (m : Z) :
  In m (keys (hybrid_scores cf_scores cb_scores alpha)) ->
  In m (keys cf_scores) \/ In m (keys cb_scores).
Proof.
  intros Hm. apply in_keys_hybrid_scores in Hm. destruct Hm as [_ Hs].
  apply scored_true in Hs.
  destruct (in_dec key_eq_dec m (keys cf_scores)) as [Hcf|Hcf]; [left; exact Hcf|].
  destruct (in_dec key_eq_dec m (keys cb_scores)) as [Hcb|Hcb]; [right; exact Hcb|].
  exfalso. rewrite !get_absent in Hs by assumption. tauto.
Qed.

Lemma apply_prompt_boost_keys (hybrid out : dict Z R) (prompt : option string) (m : Z) :
  NoDup (keys hybrid) -> (forall k, In k (keys hybrid) -> In k MOVIE_IDS) ->
  apply_prompt_boost hybrid prompt = Some out ->
  (In m (keys out) <-> In m (keys hybrid)).
Proof.
  intros Hnd Hcat.
  destruct prompt as [p|]; [|intros Heq; apply Some_eq in Heq; subst; reflexivity].
  destruct (string_dec p EmptyString) as [->|Hp];
    [intros Heq; apply Some_eq in Heq; subst; reflexivity|].
  rewrite apply_prompt_boost_nonempty by assumption.
  intros Heq. apply Some_eq in Heq. subst.
  rewrite <- (keys_boosted (lower p) hybrid).
  split; apply Permutation_in; apply Permutation_map;
    [|apply Permutation_sym]; apply sorted_desc_Permutation.
Qed.


(* ================================================================== *)
(** * The booster without a query *)
(* ================================================================== *)

(** C2, as the code has it.  When the query is absent ([None]) or the empty
    string, the booster returns its input as it is: same items, same
    scores, same order.  Any other query, a whitespace-only one included,
    is searched for: on a blended map every score gets the boost of its
    item and the map is sorted again. *)
Theorem apply_prompt_boost_absent_or_empty :
  forall (hybrid cf_scores cb_scores : dict Z R) (c : ascii) (p : string),
    apply_prompt_boost hybrid None = Some hybrid /\
    apply_prompt_boost hybrid (Some EmptyString) = Some hybrid /\
    apply_prompt_boost (hybrid_scores cf_scores cb_scores 0.6) (Some (String c p)) =
    Some (sorted_desc snd
            (map (fun e => (fst e, snd e + boost_of (lower (String c p)) (fst e)))
                 (hybrid_scores cf_scores cb_scores 0.6))).
Proof.
  intros hybrid cf_scores cb_scores c p.
  split; [reflexivity | split; [reflexivity|]].
  apply apply_prompt_boost_nonempty.
  - discriminate.
  - apply NoDup_keys_hybrid_scores.
  - intros k. apply hybrid_scores_keys_catalog.
Qed.

(** C2 as stated fails on a whitespace-only query: a single space is not
    the empty string, it occurs in the haystack of "The Dark Knight", and
    the score of item 2 goes from 1 to 3. *)
Lemma apply_prompt_boost_space_changes_scores :
  absent_or_blank (Some " "%string) /\
  apply_prompt_boost [(2%Z, 1)] (Some " "%string) = Some [(2%Z, 1 + 2)] /\
  apply_prompt_boost [(2%Z, 1)] (Some " "%string) <> Some [(2%Z, 1)].
Proof.
  assert (Hrun : apply_prompt_boost [(2%Z, 1)] (Some " "%string) = Some [(2%Z, 1 + 2)]).
  { rewrite apply_prompt_boost_nonempty.
    - reflexivity.
    - discriminate.
    - repeat constructor. simpl. tauto.
    - intros k [<-|[]]. rewrite MOVIE_IDS_eq. simpl. tauto. }
  split; [reflexivity | split; [exact Hrun|]].
  rewrite Hrun. intros Heq. apply Some_eq in Heq.
  assert (Hs : 1 + 2 = 1) by congruence. lra.
Qed.

(* ================================================================== *)
(** * The collaborative predictor *)
(* ================================================================== *)





Section Neighbors.
Variable ratings : dict Z R.
Variable community : list peer.
Variable k : nat.

Let ranked := filter (fun s => gtb (sim_of s) 0)
                   (sorted_desc sim_of (sims_of ratings community)).
Let neighbors := firstn k ranked.


Lemma neighbors_in_ranked (n : sim_entry) : In n neighbors -> In n ranked.
Proof.
intros Hn. rewrite <- (firstn_skipn k ranked). apply in_or_app. left. exact Hn.
Qed.

Lemma neighbors_positive (n : sim_entry) : In n neighbors -> sim_of n > 0.
Proof.
intros Hn. apply neighbors_in_ranked in Hn. apply filter_In in Hn.
apply gtb_true. tauto.
Qed.

Lemma neighbors_are_peers (n : sim_entry) :
In n neighbors ->
exists u, In u community /\
          n = (peer_userId u, sim_of n, peer_ratings u) /\
          cosine_sim ratings (peer_ratings u) = Some (sim_of n).
Proof.
intros Hn. apply neighbors_in_ranked in Hn. apply filter_In in Hn.
destruct Hn as [Hn _].
apply (Permutation_in _ (sorted_desc_Permutation sim_of _)) in Hn.
apply in_map_iff in Hn. destruct Hn as (u & <- & Hu).
exists u. split; [exact Hu | split; [reflexivity|]].
apply cosine_sim_val.
Qed.

End Neighbors.

Lemma cf_fold (m : Z) (neighbors : list sim_entry) (s : R * R) :
  fold_left (cf_step m) neighbors s =
  (fst s + sum_over (fun n => sim_of n * get (ratings_of n) m 0) (raters neighbors m),
   snd s + sum_over (fun n => Rabs (sim_of n)) (raters neighbors m)).
Proof.
  revert s. induction neighbors as [|n ns IH]; intros [num den]; cbn [fold_left].
  - simpl. f_equal; lra.
  - rewrite IH.
    assert (Hr : raters (n :: ns) m =
                 if contains (ratings_of n) m then n :: raters ns m else raters ns m)
      by reflexivity.
    rewrite Hr. unfold cf_step, contains.
    destruct (lookup (ratings_of n) m) as [rm|] eqn:Hl; [|reflexivity].
    assert (Hg : get (ratings_of n) m 0 = rm) by (unfold get; rewrite Hl; reflexivity).
    cbn [fst snd sum_over fold_right]. rewrite Hg. unfold sum_over. f_equal; lra.
Qed.

Lemma cf_accumulate_eq (neighbors : list sim_entry) (m : Z) :
  cf_accumulate neighbors m =
  (sum_over (fun n => sim_of n * get (ratings_of n) m 0) (raters neighbors m),
   sum_over (fun n => Rabs (sim_of n)) (raters neighbors m)).
Proof. unfold cf_accumulate. rewrite cf_fold. simpl. f_equal; lra. Qed.

Lemma weight_total_positive (ns : list sim_entry) :
  (forall n, In n ns -> sim_of n > 0) ->
  (0 < sum_over (fun n => Rabs (sim_of n)) ns <-> ns <> []).
Proof.
  intros Hpos. destruct ns as [|n ns]; simpl.
  - split; [lra | congruence].
  - split; [discriminate | intros _].
    assert (Hn : 0 < Rabs (sim_of n)).
    { apply Rabs_pos_lt. specialize (Hpos n (or_introl eq_refl)). lra. }
    assert (Hns : 0 <= sum_over (fun n => Rabs (sim_of n)) ns).
    { apply sum_over_nonneg. intros n'. apply Rabs_pos. }
    lra.
Qed.

Lemma raters_nonempty (ns : list sim_entry) (m : Z) :
  raters ns m <> [] <-> exists n, In n ns /\ In m (keys (ratings_of n)).
Proof.
  split.
  - destruct (raters ns m) as [|n l] eqn:Hr; [congruence|]. intros _.
    assert (Hn : In n (raters ns m)) by (rewrite Hr; simpl; auto).
    apply filter_In in Hn. exists n. rewrite <- contains_true. exact Hn.
  - intros (n & Hn & Hm) Hr.
    assert (Hin : In n (raters ns m)).
    { apply filter_In. split; [exact Hn | apply contains_true; exact Hm]. }
    rewrite Hr in Hin. contradiction.
Qed.


(* ================================================================== *)
(** * The vectorizer *)
(* ================================================================== *)

(** ** Counting with [incr] *)

Lemma get_set_same {K V : Type} `{Hashable K} (d : dict K V) (k : K) (v default : V) :
  get (set d k v) k default = v.
Proof. unfold get. rewrite lookup_set_same. reflexivity. Qed.

Lemma get_set_other {K V : Type} `{Hashable K} (d : dict K V) (k k' : K) (v default : V) :
  k' <> k -> get (set d k v) k' default = get d k' default.
Proof. intros Hne. unfold get. rewrite lookup_set_other by exact Hne. reflexivity. Qed.

Lemma get_of_In {K V : Type} `{Hashable K} (d : dict K V) (k : K) (v default : V) :
  NoDup (keys d) -> In (k, v) d -> get d k default = v.
Proof. intros Hnd Hin. unfold get. rewrite (@lookup_of_In _ _ _ d k v Hnd Hin). reflexivity. Qed.

Lemma get_fold_incr (l : list string) (d : dict string Z) (t : string) :
  get (fold_left incr l d) t 0%Z = (get d t 0 + term_freq l t)%Z.
Proof.
  unfold term_freq. revert d. induction l as [|x l IH]; intros d; cbn [fold_left count_occ].
  - simpl. lia.
  - rewrite IH. unfold incr.
    destruct (string_dec x t) as [->|Hne].
    + rewrite get_set_same. lia.
    + rewrite get_set_other by congruence. lia.
Qed.

Lemma keys_fold_incr (l : list string) (d : dict string Z) (t : string) :
  In t (keys (fold_left incr l d)) <-> In t (keys d) \/ In t l.
Proof.
  revert d. induction l as [|x l IH]; intros d; cbn [fold_left].
  - simpl. tauto.
  - rewrite IH. unfold incr. rewrite in_keys_set. simpl. intuition congruence.
Qed.

Lemma NoDup_keys_fold_incr (l : list string) (d : dict string Z) :
  NoDup (keys d) -> NoDup (keys (fold_left incr l d)).
Proof.
  revert d. induction l as [|x l IH]; intros d Hd; cbn [fold_left]; [exact Hd|].
  apply IH. apply NoDup_keys_set. exact Hd.
Qed.

Lemma term_freq_set_of (l : list string) (t : string) :
  term_freq (set_of l) t = if in_dec string_dec t l then 1%Z else 0%Z.
Proof.
  unfold term_freq, set_of.
  pose proof (NoDup_nodup key_eq_dec l) as Hnd.
  rewrite (NoDup_count_occ string_dec) in Hnd. specialize (Hnd t).
  destruct (in_dec string_dec t l) as [Hin|Hout].
  - apply (nodup_In key_eq_dec) in Hin.
    apply (count_occ_In string_dec) in Hin.
    unfold key_eq_dec, Hashable_string in *. lia.
  - assert (Hz : count_occ string_dec (nodup key_eq_dec l) t = O).
    { apply count_occ_not_In. rewrite nodup_In. exact Hout. }
    rewrite Hz. reflexivity.
Qed.

(** ** The first loop: [df] and [docs] *)

Lemma tfidf_scan_fold (movies : list movie) (s : dict string Z * list (Z * list string)) :
  fold_left tfidf_scan movies s =
  (df_loop movies (fst s),
   snd s ++ map (fun m => (movie_id m, tokens_of m)) movies).
Proof.
  revert s. induction movies as [|m movies IH]; intros [df docs]; simpl.
  - rewrite app_nil_r. reflexivity.
  - rewrite IH. simpl. rewrite <- app_assoc. reflexivity.
Qed.

Lemma get_df_loop (movies : list movie) (df : dict string Z) (t : string) :
  get (df_loop movies df) t 0%Z = (get df t 0 + doc_freq movies t)%Z.
Proof.
  unfold df_loop, doc_freq. revert df.
  induction movies as [|m movies IH]; intros df; cbn [fold_left filter].
  - simpl. lia.
  - rewrite IH, get_fold_incr, term_freq_set_of.
    destruct (in_dec string_dec t (tokens_of m)); cbn [List.length]; lia.
Qed.

Lemma keys_df_loop (movies : list movie) (df : dict string Z) (t : string) :
  In t (keys (df_loop movies df)) <->
  In t (keys df) \/ exists m, In m movies /\ In t (tokens_of m).
Proof.
  unfold df_loop. revert df. induction movies as [|m movies IH]; intros df; cbn [fold_left].
  - split; [auto | intros [Hin|(m & [] & _)]; exact Hin].
  - rewrite IH, keys_fold_incr. unfold set_of. rewrite nodup_In. split.
    + intros [[Hin|Hin]|(m' & Hm' & Ht)]; eauto.
      * right. exists m. simpl. auto.
      * right. exists m'. simpl. auto.
    + intros [Hin|(m' & [<-|Hm'] & Ht)]; eauto.
Qed.

Lemma NoDup_keys_df_loop (movies : list movie) (df : dict string Z) :
  NoDup (keys df) -> NoDup (keys (df_loop movies df)).
Proof.
  unfold df_loop. revert df. induction movies as [|m movies IH]; intros df Hd; cbn [fold_left].
  - exact Hd.
  - apply IH. apply NoDup_keys_fold_incr. exact Hd.
Qed.

(** ** The inverse document frequency *)

Lemma doc_freq_bounds (movies : list movie) (t : string) :
  (0 <= doc_freq movies t <= Z.of_nat (List.length movies))%Z.
Proof.
  unfold doc_freq. split; [lia|]. apply inj_le. apply filter_length_le.
Qed.

Lemma idf_ratio_ge_1 (movies : list movie) (t : string) :
  IZR (doc_freq movies t + 1) <> 0 /\
  1 <= IZR (Z.of_nat (List.length movies) + 1) / IZR (doc_freq movies t + 1).
Proof.
  pose proof (doc_freq_bounds movies t) as [Hlo Hhi].
  assert (Hd : 1 <= IZR (doc_freq movies t + 1)) by (apply IZR_le; lia).
  assert (Hn : IZR (doc_freq movies t + 1) <= IZR (Z.of_nat (List.length movies) + 1))
    by (apply IZR_le; lia).
  split; [lra|].
  apply Rmult_le_reg_r with (r := IZR (doc_freq movies t + 1)); [lra|].
  unfold Rdiv. rewrite Rmult_assoc, Rinv_l by lra. lra.
Qed.

Lemma idf_of_ge_1 (movies : list movie) (t : string) : 1 <= idf_of movies t.
Proof.
  unfold idf_of. destruct (idf_ratio_ge_1 movies t) as [_ Hq].
  assert (Hln : ln 1 <= ln (IZR (Z.of_nat (List.length movies) + 1)
                            / IZR (doc_freq movies t + 1))).
  { destruct Hq as [Hlt|Heq]; [left; apply ln_increasing; lra | rewrite <- Heq; lra]. }
  rewrite ln_1 in Hln. lra.
Qed.

Lemma idf_entry_eq (movies : list movie) (e : string * Z) :
  snd e = doc_freq movies (fst e) ->
  idf_entry (Z.of_nat (List.length movies)) e = Some (fst e, idf_of movies (fst e)).
Proof.
  intros He. unfold idf_entry. rewrite He.
  destruct (idf_ratio_ge_1 movies (fst e)) as [Hnz Hq].
  rewrite div_nonzero by exact Hnz. cbn [bind].
  rewrite math_log_pos by lra. reflexivity.
Qed.

Lemma lookup_map_values {K V W : Type} `{Hashable K} (f : K * V -> W) (d : dict K V) (k : K) :
  lookup (map (fun e => (fst e, f e)) d) k =
  match lookup d k with
  | Some v => Some (f (k, v))
  | None => None
  end.
Proof.
  induction d as [|[k' v'] d IH]; simpl; [reflexivity|].
  destruct (key_eq_dec k k') as [->|Hne]; [reflexivity | exact IH].
Qed.

Lemma lookup_fold_set {A K V : Type} `{Hashable K} (kf : A -> K) (vf : A -> V)
  (l : list A) (acc : dict K V) (k : K) (v : V) :
  lookup (fold_left (fun d x => set d (kf x) (vf x)) l acc) k = Some v ->
  lookup acc k = Some v \/ exists x, In x l /\ kf x = k /\ vf x = v.
Proof.
  revert acc. induction l as [|x l IH]; intros acc; cbn [fold_left]; [auto|].
  intros Hl. apply IH in Hl. destruct Hl as [Hl|(y & Hy & Hk & Hv)].
  - destruct (key_eq_dec k (kf x)) as [->|Hne].
    + rewrite lookup_set_same in Hl. right. exists x. simpl.
      split; [auto | split; [reflexivity | congruence]].
    + rewrite lookup_set_other in Hl by exact Hne. auto.
  - right. exists y. simpl. auto.
Qed.

(** ** The second loop: [idf] and the vectors *)

Lemma df_entry (movies : list movie) (e : string * Z) :
  In e (df_loop movies []) -> snd e = doc_freq movies (fst e).
Proof.
  intros He. destruct e as [t dfi]. simpl.
  assert (Hnd : NoDup (keys (df_loop movies []))).
  { apply NoDup_keys_df_loop. constructor. }
  rewrite <- (@get_of_In _ _ _ _ t dfi 0%Z Hnd He), get_df_loop. reflexivity.
Qed.

Lemma idf_eq (movies : list movie) :
  comprehension (idf_entry (Z.of_nat (List.length movies))) (df_loop movies []) =
  Some (map (fun e => (fst e, idf_of movies (fst e))) (df_loop movies [])).
Proof.
  apply comprehension_map. intros e He. apply idf_entry_eq. apply df_entry. exact He.
Qed.

Lemma get_idf (movies : list movie) (t : string) :
  In t (keys (df_loop movies [])) ->
  get (map (fun e => (fst e, idf_of movies (fst e))) (df_loop movies [])) t 0 =
  idf_of movies t.
Proof.
  intros Ht. unfold get.
  rewrite (lookup_map_values (fun e => idf_of movies (fst e))).
  destruct (lookup (df_loop movies []) t) as [dfi|] eqn:Hl; [reflexivity|].
  apply lookup_None in Hl. contradiction.
Qed.

Lemma build_tfidf_eq (movies : list movie) :
  build_tfidf movies =
  Some (fold_left
          (fun vectors doc =>
             set vectors (fst doc)
                 (tfidf_vec (map (fun e => (fst e, idf_of movies (fst e)))
                                 (df_loop movies []))
                            (snd doc)))
          (map (fun m => (movie_id m, tokens_of m)) movies) []).
Proof.
  unfold build_tfidf. rewrite tfidf_scan_fold. cbn [fst snd].
  rewrite idf_eq. reflexivity.
Qed.

Lemma lookup_tfidf_vec (idf : dict string R) (tokens : list string) (t : string) (w : R) :
  lookup (tfidf_vec idf tokens) t = Some w ->
  In t tokens /\ w = IZR (term_freq tokens t) * get idf t 0.
Proof.
  unfold tfidf_vec.
  rewrite (lookup_map_values (fun e => IZR (snd e) * get idf (fst e) 0)).
  destruct (lookup (fold_left incr tokens []) t) as [c|] eqn:Hl; [|discriminate].
  intros Hw. apply Some_eq in Hw. subst w. cbn [fst snd].
  assert (Hc : get (fold_left incr tokens []) t 0%Z = c) by (unfold get; rewrite Hl; reflexivity).
  rewrite get_fold_incr in Hc. split.
  - apply lookup_Some_keys in Hl. apply keys_fold_incr in Hl.
    destruct Hl as [[]|Hl]. exact Hl.
  - f_equal. f_equal. rewrite <- Hc. unfold get. simpl. lia.
Qed.

Lemma term_freq_nonneg (tokens : list string) (t : string) :
  0 <= IZR (term_freq tokens t).
Proof. apply IZR_le. unfold term_freq. lia. Qed.

Unset Implicit Arguments.

Section FoldSet.
Context {A K V : Type} `{Hashable K}.
Variable kf : A -> K.
Variable vf : A -> V.

Let fill (l : list A) (acc : dict K V) : dict K V :=
  fold_left (fun d x => set d (kf x) (vf x)) l acc.

Lemma keys_fold_set (l : list A) (acc : dict K V) (k : K) :
  In k (keys (fill l acc)) <-> In k (keys acc) \/ In k (map kf l).
Proof.
  unfold fill. revert acc. induction l as [|x l IH]; intros acc; cbn [fold_left map].
  - simpl. tauto.
  - rewrite IH, in_keys_set. simpl. intuition congruence.
Qed.

Lemma lookup_fold_set_other (l : list A) (acc : dict K V) (k : K) :
  ~ In k (map kf l) -> lookup (fill l acc) k = lookup acc k.
Proof.
  unfold fill. revert acc. induction l as [|x l IH]; intros acc Hk; cbn [fold_left];
    [reflexivity|].
  rewrite IH by (intros Hin; apply Hk; simpl; auto).
  apply lookup_set_other. intros ->. apply Hk. simpl. auto.
Qed.

Lemma lookup_fold_set_In (l : list A) (acc : dict K V) (x : A) :
  NoDup (map kf l) -> In x l -> lookup (fill l acc) (kf x) = Some (vf x).
Proof.
  unfold fill. revert acc. induction l as [|y l IH]; intros acc Hnd Hx; [contradiction|].
  cbn [fold_left map] in *. inversion Hnd as [|? ? Hy Hl]; subst.
  destruct Hx as [->|Hx].
  - change (lookup (fill l (set acc (kf x) (vf x))) (kf x) = Some (vf x)).
    rewrite lookup_fold_set_other by exact Hy. apply lookup_set_same.
  - apply IH; assumption.
Qed.
End FoldSet.

Lemma keys_tfidf_vec (idf : dict string R) (tokens : list string) (t : string) :
  In t (keys (tfidf_vec idf tokens)) <-> In t tokens.
Proof.
  unfold tfidf_vec. rewrite (keys_tagged fst).
  change (map fst (fold_left incr tokens [])) with (keys (fold_left incr tokens [])).
  rewrite keys_fold_incr. simpl. tauto.
Qed.

Lemma lookup_tfidf_vec_In (idf : dict string R) (tokens : list string) (t : string) :
  In t tokens ->
  lookup (tfidf_vec idf tokens) t = Some (IZR (term_freq tokens t) * get idf t 0).
Proof.
  intros Ht. apply keys_tfidf_vec with (idf := idf) in Ht.
  destruct (lookup (tfidf_vec idf tokens) t) as [w|] eqn:Hl.
  - apply lookup_tfidf_vec in Hl. destruct Hl as [_ ->]. reflexivity.
  - apply lookup_None in Hl. contradiction.
Qed.

Lemma keys_idf (movies : list movie) (t : string) :
  In t (keys (map (fun e => (fst e, idf_of movies (fst e))) (df_loop movies []))) <->
  exists m, In m movies /\ In t (tokens_of m).
Proof.
  rewrite (keys_tagged fst).
  change (map fst (df_loop movies [])) with (keys (df_loop movies [])).
  rewrite keys_df_loop. simpl. tauto.
Qed.

Set Implicit Arguments.

(** C7.  For every catalog [build_tfidf] raises nothing.  Its table [idf]
    has an entry for exactly the terms of the catalog, and the entry of a
    term [t] is [idf(t) = ln((N+1)/(df(t)+1)) + 1], with [N] the catalog
    size and [df(t)] the number of items having [t]; that number is
    strictly positive (at least 1) whatever [df(t)] is.  The result holds
    a vector for exactly the ids of the catalog; a stored vector is that
    of a catalog item with this id, its terms are the item's tokens, and
    the weight of each token [t] is [tf * idf(t)], with [tf] the number of
    occurrences of [t] among the tokens, which is [>= 0]. *)
Theorem build_tfidf_idf_positive :
  forall (movies : list movie),
    (forall t, 0 < idf_of movies t) /\
    (exists idf,
       comprehension (idf_entry (Z.of_nat (List.length movies)))
                     (fst (fold_left tfidf_scan movies ([], []))) = Some idf /\
       (forall t, In t (keys idf) <-> exists m, In m movies /\ In t (tokens_of m)) /\
       (forall t v, lookup idf t = Some v -> v = idf_of movies t)) /\
    exists vectors,
      build_tfidf movies = Some vectors /\
      (forall mid, In mid (keys vectors) <-> In mid (map movie_id movies)) /\
      forall mid vec,
        lookup vectors mid = Some vec ->
        exists m,
          In m movies /\ movie_id m = mid /\
          (forall t, In t (keys vec) <-> In t (tokens_of m)) /\
          (forall t, In t (tokens_of m) ->
                     lookup vec t =
                     Some (IZR (term_freq (tokens_of m) t) * idf_of movies t)) /\
          (forall t w, lookup vec t = Some w -> 0 <= w).
Proof.
  intros movies. split; [|split].
  - intros t. pose proof (idf_of_ge_1 movies t). lra.
  - eexists. split; [rewrite tfidf_scan_fold; cbn [fst]; apply idf_eq|]. split.
    + intros t. apply keys_idf.
    + intros t v Hl.
      rewrite (lookup_map_values (fun e => idf_of movies (fst e))) in Hl.
      destruct (lookup (df_loop movies []) t); [|discriminate].
      apply Some_eq in Hl. cbn [fst] in Hl. congruence.
  - eexists. split; [apply build_tfidf_eq|]. split.
    + intros mid.
      rewrite (keys_fold_set (fun doc : Z * list string => fst doc)
                 (fun doc => tfidf_vec _ (snd doc))).
      rewrite map_map. cbn [fst]. simpl. tauto.
    + intros mid vec Hvec.
      apply lookup_fold_set in Hvec.
      destruct Hvec as [Hvec|(doc & Hdoc & Hmid & Hv)]; [discriminate|].
      apply in_map_iff in Hdoc. destruct Hdoc as (m & <- & Hm).
      cbn [fst snd] in Hmid, Hv. subst vec.
      assert (Hidf : forall t, In t (tokens_of m) ->
                get (map (fun e => (fst e, idf_of movies (fst e))) (df_loop movies [])) t 0
                = idf_of movies t).
      { intros t Ht. apply get_idf. apply keys_df_loop. right. exists m. split; assumption. }
      exists m. split; [exact Hm | split; [exact Hmid | split; [|split]]].
      * intros t. apply keys_tfidf_vec.
      * intros t Ht. rewrite lookup_tfidf_vec_In by exact Ht. rewrite Hidf by exact Ht.
        reflexivity.
      * intros t w Hw. apply lookup_tfidf_vec in Hw. destruct Hw as [Ht ->].
        rewrite Hidf by exact Ht.
        apply Rmult_le_pos; [apply term_freq_nonneg|].
        pose proof (idf_of_ge_1 movies t). lra.
Qed.

(* ================================================================== *)
(** * The profile builder *)
(* ================================================================== *)

Lemma sum_fold (f : R -> R) (l : list R) (a : R) :
  fold_left Rplus (map f l) a = a + sum_over f l.
Proof.
  revert a. induction l as [|x l IH]; intros a; simpl; [lra|].
  rewrite IH. unfold sum_over. lra.
Qed.

Lemma sum_map (f : R -> R) (l : list R) : sum (map f l) = sum_over f l.
Proof. unfold sum. rewrite sum_fold. lra. Qed.

Lemma sum_over_map {A B : Type} (f : B -> R) (g : A -> B) (l : list A) :
  sum_over f (map g l) = sum_over (fun x => f (g x)) l.
Proof. induction l as [|x l IH]; simpl; [reflexivity | rewrite IH; reflexivity]. Qed.

Lemma sum_over_ext {A : Type} (f g : A -> R) (l : list A) :
  (forall x, In x l -> f x = g x) -> sum_over f l = sum_over g l.
Proof.
  induction l as [|x l IH]; intros Hfg; simpl; [reflexivity|].
  rewrite Hfg by (simpl; auto). rewrite IH; [reflexivity|].
  intros y Hy. apply Hfg. simpl. auto.
Qed.

Lemma sum_over_Permutation {A : Type} (f : A -> R) (l l' : list A) :
  Permutation l l' -> sum_over f l = sum_over f l'.
Proof.
  induction 1 as [|x l l' _ IH|x y l|l l' l'' _ IH1 _ IH2]; simpl.
  - reflexivity.
  - rewrite IH. reflexivity.
  - lra.
  - congruence.
Qed.

(** ** Accumulating one vector *)

Lemma get_cons_same {K V : Type} `{Hashable K} (d : dict K V) (k : K) (v default : V) :
  get ((k, v) :: d) k default = v.
Proof. unfold get. simpl. destruct (key_eq_dec k k); [reflexivity | contradiction]. Qed.

Lemma get_cons_other {K V : Type} `{Hashable K} (d : dict K V) (k k' : K) (v default : V) :
  k <> k' -> get ((k', v) :: d) k default = get d k default.
Proof.
  intros Hne. unfold get. simpl. destruct (key_eq_dec k k'); [contradiction | reflexivity].
Qed.

Lemma get_fold_add_weight (vec acc : dict string R) (t : string) :
  NoDup (keys vec) ->
  get (fold_left add_weight vec acc) t 0 = get acc t 0 + get vec t 0.
Proof.
  revert acc. induction vec as [|[t' w] vec IH]; intros acc Hnd; cbn [fold_left].
  - change (get (@nil (string * R)) t 0) with 0. lra.
  - inversion Hnd as [|? ? Ht' Hvec]; subst. rewrite IH by exact Hvec.
    unfold add_weight. cbn [fst snd].
    destruct (string_dec t t') as [->|Hne].
    + rewrite get_set_same, get_cons_same, (get_absent vec t' 0 Ht'). lra.
    + rewrite get_set_other, get_cons_other by exact Hne. lra.
Qed.

Lemma keys_fold_add_weight (vec acc : dict string R) (t : string) :
  In t (keys (fold_left add_weight vec acc)) <-> In t (keys acc) \/ In t (keys vec).
Proof.
  revert acc. induction vec as [|[t' w] vec IH]; intros acc; cbn [fold_left].
  - simpl. tauto.
  - rewrite IH. unfold add_weight. rewrite in_keys_set. simpl. intuition congruence.
Qed.

Lemma NoDup_keys_fold_add_weight (vec acc : dict string R) :
  NoDup (keys acc) -> NoDup (keys (fold_left add_weight vec acc)).
Proof.
  revert acc. induction vec as [|e vec IH]; intros acc Hnd; cbn [fold_left]; [exact Hnd|].
  apply IH. apply NoDup_keys_set. exact Hnd.
Qed.

(** ** Accumulating the liked items *)

Section Profile.
Variable tfidf_vectors : dict Z (dict string R).
Hypothesis Hproper : proper_vectors tfidf_vectors.

Let vec (mid : Z) : dict string R := get tfidf_vectors mid [].
Let acc_from (liked : list Z) (acc : dict string R) : dict string R :=
fold_left (fun acc mid => fold_left add_weight (vec mid) acc) liked acc.

Lemma NoDup_keys_vec (mid : Z) : NoDup (keys (vec mid)).
Proof.
unfold vec, get. destruct (lookup tfidf_vectors mid) as [v|] eqn:Hl; [|constructor].
apply lookup_In in Hl. unfold proper_vectors in Hproper.
rewrite Forall_forall in Hproper. apply (Hproper _ Hl).
Qed.

Lemma get_acc_from (liked : list Z) (acc : dict string R) (t : string) :
get (acc_from liked acc) t 0 = get acc t 0 + profile_sum tfidf_vectors liked t.
Proof.
unfold acc_from, profile_sum. revert acc.
induction liked as [|mid liked IH]; intros acc; cbn [fold_left sum_over fold_right].
- lra.
- rewrite IH, get_fold_add_weight by apply NoDup_keys_vec.
  fold (vec mid). unfold sum_over. lra.
Qed.

Lemma keys_acc_from (liked : list Z) (acc : dict string R) (t : string) :
In t (keys (acc_from liked acc)) <->
In t (keys acc) \/ exists mid, In mid liked /\ In t (keys (vec mid)).
Proof.
unfold acc_from. revert acc. induction liked as [|mid liked IH]; intros acc; cbn [fold_left].
- split; [auto | intros [Hin|(m & [] & _)]; exact Hin].
- rewrite IH, keys_fold_add_weight. split.
  + intros [[Hin|Hin]|(m & Hm & Ht)]; eauto.
    * right. exists mid. simpl. auto.
    * right. exists m. simpl. auto.
  + intros [Hin|(m & [<-|Hm] & Ht)]; eauto.
Qed.

Lemma NoDup_keys_acc_from (liked : list Z) (acc : dict string R) :
NoDup (keys acc) -> NoDup (keys (acc_from liked acc)).
Proof.
unfold acc_from. revert acc. induction liked as [|mid liked IH]; intros acc Hnd;
  cbn [fold_left]; [exact Hnd|].
apply IH. apply NoDup_keys_fold_add_weight. exact Hnd.
Qed.

Lemma keys_profile_acc (liked : list Z) (t : string) :
In t (keys (profile_acc tfidf_vectors liked)) <->
In t (profile_terms tfidf_vectors liked).
Proof.
change (profile_acc tfidf_vectors liked) with (acc_from liked []).
rewrite keys_acc_from. unfold profile_terms, set_of.
rewrite nodup_In, in_flat_map. simpl. fold vec. tauto.
Qed.

Lemma profile_acc_entry (liked : list Z) (e : string * R) :
In e (profile_acc tfidf_vectors liked) ->
snd e = profile_sum tfidf_vectors liked (fst e).
Proof.
intros He. destruct e as [t v]. cbn [fst snd].
assert (Hnd : NoDup (keys (profile_acc tfidf_vectors liked))).
{ change (profile_acc tfidf_vectors liked) with (acc_from liked []).
  apply NoDup_keys_acc_from. constructor. }
rewrite <- (@get_of_In _ _ _ _ t v 0 Hnd He).
change (profile_acc tfidf_vectors liked) with (acc_from liked []).
rewrite get_acc_from. unfold get. simpl. lra.
Qed.

(** The sum of squares that [build_user_profile] takes the root of. *)
Lemma profile_square_sum (liked : list Z) :
sum (map (fun v => v * v) (values (profile_acc tfidf_vectors liked))) =
sum_over (fun t => profile_sum tfidf_vectors liked t * profile_sum tfidf_vectors liked t)
         (profile_terms tfidf_vectors liked).
Proof.
rewrite sum_map. unfold values. rewrite sum_over_map.
rewrite (sum_over_ext (fun e => snd e * snd e)
           (fun e => profile_sum tfidf_vectors liked (fst e) *
                     profile_sum tfidf_vectors liked (fst e))).
- rewrite <- (sum_over_map (fun t => profile_sum tfidf_vectors liked t *
                                     profile_sum tfidf_vectors liked t) fst).
  apply sum_over_Permutation. apply NoDup_Permutation.
  + change (profile_acc tfidf_vectors liked) with (acc_from liked []).
    apply NoDup_keys_acc_from. constructor.
  + apply NoDup_nodup.
  + intros t. apply keys_profile_acc.
- intros e He. rewrite (profile_acc_entry _ _ He). reflexivity.
Qed.

Lemma build_user_profile_liked (liked : list Z) (ratings : dict Z R) :
liked_items ratings = liked -> liked <> [] ->
build_user_profile tfidf_vectors ratings =
Some (map (fun e => (fst e, snd e / profile_norm tfidf_vectors liked))
          (profile_acc tfidf_vectors liked)).
Proof.
intros Hl Hne. unfold build_user_profile. rewrite Hl.
destruct liked as [|mid liked']; [contradiction|].
set (liked := mid :: liked') in *.
rewrite profile_square_sum.
set (sq := sum_over _ (profile_terms tfidf_vectors liked)).
rewrite math_sqrt_nonneg
  by (apply (sum_over_squares_nonneg (fun t => profile_sum tfidf_vectors liked t))).
cbn [bind].
assert (Hnorm : (if truthy (sqrt sq) then sqrt sq else 1) =
                profile_norm tfidf_vectors liked).
{ unfold profile_norm. fold sq. unfold truthy, eqb.
  destruct (Req_dec_T (sqrt sq) 0); reflexivity. }
rewrite Hnorm.
assert (Hnz : profile_norm tfidf_vectors liked <> 0).
{ unfold profile_norm. fold sq. destruct (Req_dec_T (sqrt sq) 0); lra. }
apply comprehension_map. intros e _. rewrite div_nonzero by exact Hnz. reflexivity.
Qed.
End Profile.

Lemma liked_items_spec (ratings : dict Z R) (mid : Z) :
  In mid (liked_items ratings) <-> exists r, In (mid, r) ratings /\ r >= 4.
Proof.
  unfold liked_items. rewrite in_map_iff. split.
  - intros ([mid' r] & Heq & Hin). simpl in Heq. subst mid'.
    apply filter_In in Hin. destruct Hin as [Hin Hr]. apply geb_true in Hr. eauto.
  - intros (r & Hin & Hr). exists (mid, r). split; [reflexivity|].
    apply filter_In. split; [exact Hin | apply geb_true; exact Hr].
Qed.

Lemma cosine_val_empty_profile {K : Type} `{Hashable K} (v : dict K R) :
  cosine_val [] v = 0.
Proof.
  unfold cosine_val. rewrite cosine_sim_zero_branch; [reflexivity|].
  left. apply cosine_na_zero. intros k. reflexivity.
Qed.

Lemma predict_cb_empty_profile (tfidf_vectors : dict Z (dict string R)) (ratings : dict Z R) :
  exists scores, predict_cb tfidf_vectors [] ratings = Some scores /\
                 forall m s, In (m, s) scores -> s = 0.
Proof.
  rewrite predict_cb_eq. eexists. split; [reflexivity|].
  intros m s Hin. apply in_map_iff in Hin. destruct Hin as (mv & Heq & _).
  inversion Heq. rewrite cosine_val_empty_profile. lra.
Qed.

(** C6.  The items used for the profile are exactly those rated [>= 4].
    If there is none, the profile is the empty vector and every score of
    the content predictor on it is exactly 0.  Otherwise the profile has
    the terms of the liked items' vectors, and the weight of a term is the
    term-wise sum of those vectors divided by the Euclidean norm of that
    sum, a zero norm being replaced by 1; nothing is raised. *)
Theorem build_user_profile_from_liked :
  forall (tfidf_vectors : dict Z (dict string R)) (ratings : dict Z R),
    proper_vectors tfidf_vectors ->
    (forall mid, In mid (liked_items ratings) <->
                 exists r, In (mid, r) ratings /\ r >= 4) /\
    (liked_items ratings = [] ->
     build_user_profile tfidf_vectors ratings = Some [] /\
     exists scores, predict_cb tfidf_vectors [] ratings = Some scores /\
                    forall m s, In (m, s) scores -> s = 0) /\
    (liked_items ratings <> [] ->
     exists profile,
       build_user_profile tfidf_vectors ratings = Some profile /\
       forall t,
         (In t (keys profile) <->
          In t (profile_terms tfidf_vectors (liked_items ratings))) /\
         (forall w, lookup profile t = Some w ->
                    w = profile_sum tfidf_vectors (liked_items ratings) t /
                        profile_norm tfidf_vectors (liked_items ratings))).
Proof.
  intros tfidf_vectors ratings Hproper. split; [|split].
  - apply liked_items_spec.
  - intros Hnone. split; [|apply predict_cb_empty_profile].
    unfold build_user_profile. rewrite Hnone. reflexivity.
  - intros Hsome. eexists. split.
    + apply (@build_user_profile_liked tfidf_vectors Hproper (liked_items ratings) ratings eq_refl Hsome).
    + intros t. split.
      * rewrite (keys_tagged fst). fold (keys (profile_acc tfidf_vectors (liked_items ratings))).
        apply keys_profile_acc.
      * intros w Hw.
        rewrite (lookup_map_values
                   (fun e => snd e / profile_norm tfidf_vectors (liked_items ratings))) in Hw.
        destruct (lookup (profile_acc tfidf_vectors (liked_items ratings)) t) as [v|] eqn:Hl;
          [|discriminate].
        apply Some_eq in Hw. subst w. cbn [snd].
        apply lookup_In in Hl.
        pose proof (@profile_acc_entry tfidf_vectors Hproper (liked_items ratings) (t, v) Hl) as Hv.
        cbn [fst snd] in Hv. rewrite Hv. reflexivity.
Qed.

(** The profile for one liked item whose vector is [{a: 3, b: 4}]. *)
Lemma build_user_profile_from_liked_witness :
  proper_vectors [(1%Z, [("a"%string, 3); ("b"%string, 4)])] /\
  exists profile,
    build_user_profile [(1%Z, [("a"%string, 3); ("b"%string, 4)])] [(1%Z, 5)] = Some profile.
Proof.
  assert (Hp : proper_vectors [(1%Z, [("a"%string, 3); ("b"%string, 4)])]).
  { unfold proper_vectors. repeat constructor; simpl; intuition discriminate. }
  split; [exact Hp|].
  destruct (@build_user_profile_from_liked _ [(1%Z, 5)] Hp) as (_ & _ & Hsome).
  destruct Hsome as (profile & Hprofile & _).
  - unfold liked_items. cbn [filter snd].
    rewrite (proj2 (geb_true 5 4)) by lra. discriminate.
  - exists profile. exact Hprofile.
Defined.

(* ================================================================== *)
(** * The view [index] *)
(* ================================================================== *)

(** ** The pipeline never raises in exact arithmetic *)

Lemma In_fold_set {A K V : Type} `{Hashable K} (kf : A -> K) (vf : A -> V)
  (l : list A) (acc : dict K V) (e : K * V) :
  NoDup (keys acc) ->
  In e (fold_left (fun d x => set d (kf x) (vf x)) l acc) ->
  In e acc \/ exists x, In x l /\ vf x = snd e.
Proof.
  intros Hnd Hin. destruct e as [k v].
  assert (Hnd' : NoDup (keys (fold_left (fun d x => set d (kf x) (vf x)) l acc))).
  { clear Hin. revert acc Hnd. induction l as [|x l IH]; intros acc Hnd; cbn [fold_left];
      [exact Hnd|]. apply IH. apply NoDup_keys_set. exact Hnd. }
  apply (@lookup_of_In _ _ _ _ k v Hnd') in Hin. apply lookup_fold_set in Hin.
  destruct Hin as [Hin|(x & Hx & _ & Hv)].
  - left. apply lookup_In. exact Hin.
  - right. exists x. auto.
Qed.

Lemma NoDup_keys_tfidf_vec (idf : dict string R) (tokens : list string) :
  NoDup (keys (tfidf_vec idf tokens)).
Proof.
  unfold tfidf_vec. rewrite (keys_tagged fst).
  apply (NoDup_keys_fold_incr tokens []). constructor.
Qed.

Lemma build_tfidf_proper (movies : list movie) :
  exists vectors, build_tfidf movies = Some vectors /\ proper_vectors vectors.
Proof.
  eexists. split; [apply build_tfidf_eq|].
  unfold proper_vectors. rewrite Forall_forall. intros e He.
  apply In_fold_set in He; [|constructor].
  destruct He as [[]|(doc & _ & <-)]. apply NoDup_keys_tfidf_vec.
Qed.

Lemma build_user_profile_total (tfidf_vectors : dict Z (dict string R)) (ratings : dict Z R) :
  proper_vectors tfidf_vectors ->
  exists profile, build_user_profile tfidf_vectors ratings = Some profile.
Proof.
  intros Hproper. destruct (liked_items ratings) as [|mid liked] eqn:Hl.
  - exists []. unfold build_user_profile. rewrite Hl. reflexivity.
  - eexists. apply (@build_user_profile_liked tfidf_vectors Hproper (mid :: liked) ratings Hl).
    discriminate.
Qed.

Lemma index_hybrid_total (ratings : dict Z R) :
  exists cf cb, index_hybrid ratings = Some (hybrid_scores cf cb 0.6) /\
                predict_cf ratings COMMUNITY 3 = Some cf /\
                exists tfidf profile, predict_cb tfidf profile ratings = Some cb.
Proof.
  unfold index_hybrid.
  destruct (build_tfidf_proper MOVIES) as (tfidf & Htfidf & Hproper).
  destruct (build_user_profile_total ratings Hproper) as (profile & Hprofile).
  destruct (predict_cf_total ratings COMMUNITY 3) as (cf & Hcf).
  exists cf. eexists.
  rewrite Htfidf. cbn [bind]. rewrite Hprofile. cbn [bind].
  rewrite Hcf. cbn [bind]. rewrite predict_cb_eq. cbn [bind].
  split; [reflexivity | split; [reflexivity|]].
  exists tfidf, profile. apply predict_cb_eq.
Qed.

(** ** The list [recs] *)

Lemma comprehension_Forall2 {A B : Type} (f : A -> result B) (l : list A) :
  (forall x, In x l -> exists y, f x = Some y) ->
  exists ys, comprehension f l = Some ys /\ Forall2 (fun x y => f x = Some y) l ys.
Proof.
  induction l as [|x l IH]; intros Hf; simpl.
  - exists []. split; [reflexivity | constructor].
  - destruct (Hf x (or_introl eq_refl)) as [y Hy].
    destruct IH as (ys & Hys & Hall); [intros z Hz; apply Hf; simpl; auto|].
    exists (y :: ys). rewrite Hy. cbn [bind]. rewrite Hys. cbn [bind].
    split; [reflexivity | constructor; assumption].
Qed.

Lemma rec_entry_total (prompt : string) (e : Z * R) :
  In (fst e) MOVIE_IDS -> exists r, rec_entry prompt e = Some r.
Proof.
  intros Hin. destruct (movie_by_id_catalog Hin) as (m & Hm & _).
  unfold rec_entry. rewrite Hm. cbn [bind]. eauto.
Qed.

Lemma rec_entry_inv (prompt : string) (e : Z * R) (r : movie * R * bool) :
  rec_entry prompt e = Some r ->
  exists m, movie_by_id (fst e) = Some m /\
            r = (m, snd e, str_in (lower prompt) (haystack m)).
Proof.
  unfold rec_entry. destruct (movie_by_id (fst e)) as [m|]; [|discriminate].
  cbn [bind]. intros Hr. apply Some_eq in Hr. eauto.
Qed.

Lemma movie_by_id_id (mid : Z) (m : movie) : movie_by_id mid = Some m -> movie_id m = mid.
Proof.
  unfold movie_by_id. intros Hf. apply find_some in Hf. destruct Hf as [_ Heq].
  apply Z.eqb_eq. exact Heq.
Qed.

Lemma recs_scores (prompt : string) (l : dict Z R) (rs : list (movie * R * bool)) :
  Forall2 (fun e r => rec_entry prompt e = Some r) l rs ->
  map (fun r => (movie_id (fst (fst r)), snd (fst r))) rs = l.
Proof.
  induction 1 as [|e r l rs Hr _ IH]; simpl; [reflexivity|].
  rewrite IH. f_equal. apply rec_entry_inv in Hr. destruct Hr as (m & Hm & ->).
  cbn [fst snd]. rewrite (movie_by_id_id _ Hm). destruct e. reflexivity.
Qed.

Lemma Forall2_In_r {A B : Type} (P : A -> B -> Prop) (l : list A) (l' : list B) (y : B) :
  Forall2 P l l' -> In y l' -> exists x, In x l /\ P x y.
Proof.
  induction 1 as [|a b l l' Hab _ IH]; simpl; [contradiction|].
  intros [<-|Hy]; [eauto|]. destruct (IH Hy) as (x & Hx & Hp). eauto.
Qed.

Lemma Forall2_In_l {A B : Type} (P : A -> B -> Prop) (l : list A) (l' : list B) (x : A) :
  Forall2 P l l' -> In x l -> exists y, In y l' /\ P x y.
Proof.
  induction 1 as [|a b l l' Hab _ IH]; simpl; [contradiction|].
  intros [<-|Hx]; [eauto|]. destruct (IH Hx) as (y & Hy & Hp). eauto.
Qed.

Lemma In_firstn {A : Type} (n : nat) (l : list A) (x : A) : In x (firstn n l) -> In x l.
Proof.
  intros Hx. rewrite <- (firstn_skipn n l). apply in_or_app. left. exact Hx.
Qed.

(** The POST branch of [index] once the movie is found. *)
Lemma index_post_found (movie_name : string) (rating : Z) (prompt : string) (mv : movie) :
  find (fun m => str_in (lower (strip movie_name)) (lower (movie_title m))) MOVIES = Some mv ->
  exists cf cb boosted rs,
    predict_cf [(movie_id mv, IZR rating)] COMMUNITY 3 = Some cf /\
    index_hybrid [(movie_id mv, IZR rating)] = Some (hybrid_scores cf cb 0.6) /\
    apply_prompt_boost (hybrid_scores cf cb 0.6) (Some prompt) = Some boosted /\
    Forall2 (fun e r => rec_entry prompt e = Some r) (firstn 5 boosted) rs /\
    index_post movie_name rating prompt = Some (Rendering (Some rs) None).
Proof.
  intros Hfind.
  destruct (index_hybrid_total [(movie_id mv, IZR rating)]) as (cf & cb & Hh & Hcf & _).
  destruct (boost_of_blend_descending cf cb 0.6 (Some prompt)) as (boosted & Hb & _).
  assert (Hkeys : forall e, In e (firstn 5 boosted) -> In (fst e) MOVIE_IDS).
  { intros e He. apply In_firstn in He. apply (in_map fst) in He.
    apply (@apply_prompt_boost_keys (hybrid_scores cf cb 0.6) boosted (Some prompt) (fst e)
             (NoDup_keys_hybrid_scores cf cb 0.6)
             (@hybrid_scores_keys_catalog cf cb 0.6) Hb) in He.
    apply hybrid_scores_keys_catalog in He. exact He. }
  destruct (@comprehension_Forall2 _ _ (rec_entry prompt) (firstn 5 boosted)) as (rs & Hrs & Hall).
  { intros e He. apply rec_entry_total. apply Hkeys. exact He. }
  exists cf, cb, boosted, rs. repeat (split; [assumption|]).
  unfold index_post. rewrite Hfind. rewrite Hh. cbn [bind].
  rewrite Hb. cbn [bind]. rewrite Hrs. reflexivity.
Qed.

(** In exact arithmetic [index] never raises on a POST. *)
Lemma index_post_total (movie_name : string) (rating : Z) (prompt : string) :
  exists page, index_post movie_name rating prompt = Some page.
Proof.
  destruct (find (fun m => str_in (lower (strip movie_name)) (lower (movie_title m))) MOVIES)
    as [mv|] eqn:Hfind.
  - destruct (index_post_found movie_name rating prompt Hfind)
      as (cf & cb & boosted & rs & _ & _ & _ & _ & Hpage). eauto.
  - unfold index_post. rewrite Hfind. eauto.
Qed.

(** ** The empty prompt *)



(** ** Rating Inception 5 and asking for sci-fi *)

(** With the rating input [{1: 5}] only u_alex has a positive similarity,
    and he rated the items 2, 3 and 4 with 5. *)
Lemma predict_cf_inception :
  predict_cf [(1%Z, 5)] COMMUNITY 3 = Some [(2%Z, 5); (3%Z, 5); (4%Z, 5)].
Proof.
  unfold predict_cf. rewrite cf_neighbors_eq. cbn [bind]. rewrite cf_loop_eq.
  set (r := [(1%Z, 5)]).
  set (ra := [(1%Z, 5); (2%Z, 5); (3%Z, 5); (4%Z, 5)]).
  set (rb := [(5%Z, 5); (3%Z, 4)]).
  unfold sims_of, COMMUNITY. cbn [map peer_userId peer_ratings].
  fold ra rb.
  set (ca := cosine_val r ra). set (cb := cosine_val r rb).
  assert (Hca : ca > 0).
  { unfold ca, cosine_val.
    destruct (@cosine_sim_div_branch Z _ r ra) as (Hna & Hnb & Hprod & Hv).
    - unfold cosine_acc. cbn. lra.
    - unfold cosine_acc. cbn. lra.
    - rewrite Hv. apply Rdiv_lt_0_compat; [|exact Hprod].
      unfold cosine_acc. cbn. lra. }
  assert (Hcb : cb = 0).
  { unfold cb, cosine_val.
    destruct (@cosine_sim_div_branch Z _ r rb) as (Hna & Hnb & Hprod & Hv).
    - unfold cosine_acc. cbn. lra.
    - unfold cosine_acc. cbn. lra.
    - rewrite Hv. unfold cosine_acc. cbn. unfold Rdiv.
      match goal with |- ?n * _ = 0 => replace n with 0 by lra end.
      apply Rmult_0_l. }
  cbn [sorted_desc fold_right insert_desc sim_of fst snd].
  destruct (Rle_dec cb ca) as [_|Hgt]; [|exfalso; lra].
  cbn [filter sim_of fst snd].
  rewrite (proj2 (gtb_true ca 0) Hca).
  rewrite (proj2 (gtb_false cb 0)) by lra.
  cbn [firstn]. rewrite MOVIE_IDS_eq.
  unfold cf_accumulate, cf_step. subst r ra rb. cbn.
  assert (Habs : Rabs ca = ca) by (apply Rabs_pos_eq; lra).
  rewrite (proj2 (gtb_true (0 + Rabs ca) 0)) by (rewrite Habs; lra).
  rewrite (proj2 (gtb_false 0 0)) by lra.
  cbn. rewrite Habs.
  assert (H5 : (0 + ca * 5) / (0 + ca) = 5) by (field; lra).
  rewrite H5. reflexivity.
Qed.

Lemma scifi_flag_is_genre (m : movie) :
  In m MOVIES ->
  (str_in (lower "sci-fi") (haystack m) = true <-> In "Sci-Fi"%string (movie_genres m)).
Proof.
  unfold MOVIES. cbn [In].
  intros [<-|[<-|[<-|[<-|[<-|[]]]]]]; cbn; split; intros Hx;
    try reflexivity; try discriminate; try tauto;
    repeat (destruct Hx as [Hx|Hx]; try discriminate Hx); try contradiction.
Qed.

Lemma length_hybrid_scores (cf_scores cb_scores : dict Z R) (alpha : R) :
  (List.length (hybrid_scores cf_scores cb_scores alpha) <= 5)%nat.
Proof.
  rewrite <- (length_map fst).
  change 5%nat with (List.length MOVIE_IDS).
  apply NoDup_incl_length; [apply NoDup_keys_hybrid_scores|].
  intros k Hk. eapply hybrid_scores_keys_catalog. exact Hk.
Qed.

(** C9.  The POST with movie name "Inception", rating 5 and prompt "sci-fi"
    raises nothing and shows a list [recs] in which the boosted flag of an
    item is set exactly when its genres contain "Sci-Fi"; the score of a
    flagged item is its blended score plus 2, the score of any other item
    is its blended score unchanged.  Interstellar (3) and The Matrix (4)
    are in the list. *)
Theorem index_scifi_prompt_boosts_scifi_genre :
  exists hybrid rs,
    index_hybrid [(1%Z, 5)] = Some hybrid /\
    index_post "Inception" 5 "sci-fi" = Some (Rendering (Some rs) None) /\
    (forall m score flag,
       In (m, score, flag) rs ->
       In m MOVIES /\
       (flag = true <-> In "Sci-Fi"%string (movie_genres m)) /\
       exists h, lookup hybrid (movie_id m) = Some h /\
                 score = h + (if flag then 2 else 0)) /\
    In 3%Z (map (fun r => movie_id (fst (fst r))) rs) /\
    In 4%Z (map (fun r => movie_id (fst (fst r))) rs).
Proof.
  assert (Hfind : find (fun m => str_in (lower (strip "Inception")) (lower (movie_title m)))
                       MOVIES
                  = Some (nth 0 MOVIES (Movie 0 EmptyString 0 [] [])))
    by reflexivity.
  destruct (index_post_found "Inception" 5 "sci-fi" Hfind)
    as (cf & cb & boosted & rs & Hcf & Hh & Hb & Hall & Hpage).
  cbn [movie_id nth MOVIES] in Hcf, Hh.
  rewrite predict_cf_inception in Hcf. apply Some_eq in Hcf. subst cf.
  set (hybrid := hybrid_scores [(2%Z, 5); (3%Z, 5); (4%Z, 5)] cb 0.6) in *.
  assert (Hnd : NoDup (keys hybrid)) by apply NoDup_keys_hybrid_scores.
  assert (Hcat : forall k, In k (keys hybrid) -> In k MOVIE_IDS)
    by (intros k; apply hybrid_scores_keys_catalog).
  rewrite apply_prompt_boost_nonempty in Hb by (assumption || discriminate).
  apply Some_eq in Hb.
  assert (Hperm : Permutation boosted
                    (map (fun e => (fst e, snd e + boost_of (lower "sci-fi") (fst e))) hybrid)).
  { rewrite <- Hb. apply sorted_desc_Permutation. }
  assert (Hlen : firstn 5 boosted = boosted).
  { apply firstn_all2. rewrite (Permutation_length Hperm), length_map.
    apply length_hybrid_scores. }
  rewrite Hlen in Hall.
  exists hybrid, rs. split; [exact Hh | split; [exact Hpage | split; [|split]]].
  - intros m score flag Hr.
    destruct (@Forall2_In_r _ _ _ _ _ _ Hall Hr) as (e & He & Hentry).
    apply rec_entry_inv in Hentry. destruct Hentry as (m' & Hm & Heq).
    inversion Heq; subst m' score flag. clear Heq.
    assert (Hin : In m MOVIES) by (unfold movie_by_id in Hm; apply find_some in Hm; tauto).
    split; [exact Hin | split; [apply scifi_flag_is_genre; exact Hin|]].
    apply (Permutation_in _ Hperm) in He. apply in_map_iff in He.
    destruct He as ([k h] & <- & Hkh). cbn [fst snd] in *.
    exists h. rewrite (movie_by_id_id _ Hm). split.
    + apply lookup_of_In; assumption.
    + unfold boost_of. rewrite Hm. reflexivity.
  - assert (H3 : In 3%Z (keys boosted)).
    { apply (Permutation_in _ (Permutation_map fst (Permutation_sym Hperm))).
      fold (keys (map (fun e => (fst e, snd e + boost_of (lower "sci-fi") (fst e))) hybrid)).
      rewrite keys_boosted. apply in_keys_hybrid_scores.
      split; [rewrite MOVIE_IDS_eq; simpl; tauto|].
      apply scored_true. left. cbn. lra. }
    apply in_map_iff in H3. destruct H3 as (e & He3 & He).
    destruct (@Forall2_In_l _ _ _ _ _ _ Hall He) as (r & Hr & Hentry).
    apply rec_entry_inv in Hentry. destruct Hentry as (m & Hm & ->).
    apply in_map_iff. exists (m, snd e, str_in (lower "sci-fi") (haystack m)).
    split; [|exact Hr]. cbn [fst]. rewrite (movie_by_id_id _ Hm). exact He3.
  - assert (H4 : In 4%Z (keys boosted)).
    { apply (Permutation_in _ (Permutation_map fst (Permutation_sym Hperm))).
      fold (keys (map (fun e => (fst e, snd e + boost_of (lower "sci-fi") (fst e))) hybrid)).
      rewrite keys_boosted. apply in_keys_hybrid_scores.
      split; [rewrite MOVIE_IDS_eq; simpl; tauto|].
      apply scored_true. left. cbn. lra. }
    apply in_map_iff in H4. destruct H4 as (e & He4 & He).
    destruct (@Forall2_In_l _ _ _ _ _ _ Hall He) as (r & Hr & Hentry).
    apply rec_entry_inv in Hentry. destruct Hentry as (m & Hm & ->).
    apply in_map_iff. exists (m, snd e, str_in (lower "sci-fi") (haystack m)).
    split; [|exact Hr]. cbn [fst]. rewrite (movie_by_id_id _ Hm). exact He4.
Qed.

(** ** No self-recommendation *)

(* The implicit-argument analysis would evaluate [index_hybrid ratings]. *)
Unset Implicit Arguments.

Lemma index_hybrid_no_self (ratings hybrid : dict Z R) (m : Z) :
  index_hybrid ratings = Some hybrid -> In m (keys ratings) -> ~ In m (keys hybrid).
Proof.
  intros Hh Hm Hin.
  destruct (index_hybrid_total ratings) as (cf & cb & Heq & Hcf & tfidf & profile & Hcb).
  rewrite Hh in Heq. apply Some_eq in Heq. subst hybrid.
  apply hybrid_scores_keys_from_inputs in Hin. destruct Hin as [Hin|Hin].
  - pose proof (@predict_cf_keys ratings COMMUNITY 3%nat cf m Hcf Hin). tauto.
  - apply (@predict_cb_keys tfidf profile ratings cb m Hcb) in Hin. tauto.
Qed.

Set Implicit Arguments.




(* ================================================================== *)
(** * Further properties of the similarity kernel *)
(* ================================================================== *)

Unset Implicit Arguments.

(** X1.  On [int] vectors, as rating vectors are, [cosine_sim] is symmetric
    and does not depend on the order in which the key set is iterated:
    swapping the two vectors, under any two iteration orders, gives the
    same result, be it a number or an exception.  (On [float] vectors the
    sums are rounded in the order of iteration, and the result can differ
    in its last bit.) *)
Theorem cosine_sim_symmetric :
  forall (K : Type) (HK : Hashable K) (ks ks' : list K) (a b : dict K Binary64.num),
    int_weights a -> int_weights b -> Permutation ks ks' ->
    Binary64.cosine_sim_over ks a b = Binary64.cosine_sim_over ks' b a.
Proof.
  intros K HK ks ks' a b Ha Hb Hperm.
  rewrite (Binary64Facts.cosine_sim_over_ints a b ks Ha Hb),
          (Binary64Facts.cosine_sim_over_ints b a ks' Hb Ha).
  assert (Ed : dot_product ks' b a = dot_product ks a b).
  { unfold dot_product. rewrite (Binary64Facts.zsum_over_Permutation _ ks ks' Hperm).
    apply Binary64Facts.zsum_over_ext. intros k. apply Z.mul_comm. }
  assert (Ex : squared_norm ks' a = squared_norm ks a).
  { symmetry. apply Binary64Facts.zsum_over_Permutation. exact Hperm. }
  assert (Ey : squared_norm ks' b = squared_norm ks b).
  { symmetry. apply Binary64Facts.zsum_over_Permutation. exact Hperm. }
  rewrite Ed, Ex, Ey.
  rewrite (orb_comm (squared_norm ks b =? 0)%Z (squared_norm ks a =? 0)%Z).
  destruct ((squared_norm ks a =? 0)%Z || (squared_norm ks b =? 0)%Z); [reflexivity|].
  apply Binary64Facts.sqrt_order; apply Binary64Facts.squared_norm_nonneg.
Qed.

(** The property at the rating vectors [{1: 5}] and [{1: 5, 2: 5}]. *)
Lemma cosine_sim_symmetric_witness :
  int_weights [(1%Z, Binary64.Int 5)] /\
  int_weights [(1%Z, Binary64.Int 5); (2%Z, Binary64.Int 5)] /\
  Permutation [1%Z; 2%Z] [2%Z; 1%Z] /\
  Binary64.cosine_sim_over [1%Z; 2%Z] [(1%Z, Binary64.Int 5)]
                           [(1%Z, Binary64.Int 5); (2%Z, Binary64.Int 5)] =
  Binary64.cosine_sim_over [2%Z; 1%Z] [(1%Z, Binary64.Int 5); (2%Z, Binary64.Int 5)]
                           [(1%Z, Binary64.Int 5)].
Proof.
  assert (Ha : int_weights [(1%Z, Binary64.Int 5)])
    by (repeat constructor; eexists; reflexivity).
  assert (Hb : int_weights [(1%Z, Binary64.Int 5); (2%Z, Binary64.Int 5)])
    by (repeat constructor; eexists; reflexivity).
  assert (Hp : Permutation [1%Z; 2%Z] [2%Z; 1%Z]) by apply perm_swap.
  split; [exact Ha | split; [exact Hb | split; [exact Hp|]]].
  exact (cosine_sim_symmetric Z _ _ _ _ _ Ha Hb Hp).
Defined.





Lemma sum_over_scale {K : Type} (c : R) (f : K -> R) (ks : list K) :
  sum_over (fun k => c * f k) ks = c * sum_over f ks.
Proof.
  induction ks as [|k ks IH]; simpl; [lra|]. rewrite IH. unfold sum_over. lra.
Qed.

Lemma get_scale {K : Type} `{Hashable K} (c : R) (a : dict K R) (k : K) :
  get (scale c a) k 0 = c * get a k 0.
Proof.
  unfold get, scale. rewrite (lookup_map_values (fun e => c * snd e)).
  destruct (lookup a k); cbn [snd]; lra.
Qed.

Lemma keys_scale {K : Type} (c : R) (a : dict K R) : keys (scale c a) = keys a.
Proof. unfold scale. rewrite (keys_tagged fst). reflexivity. Qed.

Lemma cosine_acc_scale {K : Type} `{Hashable K} (c : R) (a b : dict K R) :
  cosine_acc (scale c a) b =
  (c * fst (fst (cosine_acc a b)),
   c * c * snd (fst (cosine_acc a b)),
   snd (cosine_acc a b)).
Proof.
  rewrite !cosine_acc_sums, keys_scale. cbn [fst snd].
  rewrite <- !sum_over_scale.
  rewrite (sum_over_ext (fun k => get (scale c a) k 0 * get b k 0)
             (fun k => c * (get a k 0 * get b k 0)))
    by (intros k _; rewrite get_scale; ring).
  rewrite (sum_over_ext (fun k => get (scale c a) k 0 * get (scale c a) k 0)
             (fun k => c * (c * (get a k 0 * get a k 0))))
    by (intros k _; rewrite get_scale; ring).
  f_equal. f_equal. rewrite !sum_over_scale. ring.
Qed.

(** The value of the kernel is unchanged when the first vector is scaled
    by a positive factor. *)
Lemma cosine_val_scale {K : Type} `{Hashable K} (c : R) (a b : dict K R) :
  0 < c -> cosine_val (scale c a) b = cosine_val a b.
Proof.
  intros Hc. unfold cosine_val.
  pose proof (cosine_acc_scale c a b) as Hacc.
  set (dot := fst (fst (cosine_acc a b))) in *.
  set (na := snd (fst (cosine_acc a b))) in *.
  set (nb := snd (cosine_acc a b)) in *.
  assert (Hna' : snd (fst (cosine_acc (scale c a) b)) = c * c * na) by (rewrite Hacc; reflexivity).
  assert (Hnb' : snd (cosine_acc (scale c a) b) = nb) by (rewrite Hacc; reflexivity).
  assert (Hdot' : fst (fst (cosine_acc (scale c a) b)) = c * dot) by (rewrite Hacc; reflexivity).
  destruct (Req_dec_T na 0) as [Hz|Hnz].
  - rewrite (@cosine_sim_zero_branch K _ a b) by (left; exact Hz).
    rewrite (@cosine_sim_zero_branch K _ (scale c a) b); [reflexivity|].
    left. rewrite Hna'. fold na in Hz. rewrite Hz. ring.
  - destruct (Req_dec_T nb 0) as [Hzb|Hnzb].
    + rewrite (@cosine_sim_zero_branch K _ a b) by (right; exact Hzb).
      rewrite (@cosine_sim_zero_branch K _ (scale c a) b); [reflexivity|].
      right. rewrite Hnb'. exact Hzb.
    + destruct (@cosine_sim_div_branch K _ a b Hnz Hnzb) as (Hpa & Hpb & Hprod & Hv).
      fold dot na nb in Hpa, Hpb, Hprod, Hv.
      assert (Hnz' : snd (fst (cosine_acc (scale c a) b)) <> 0).
      { rewrite Hna'. apply Rmult_integral_contrapositive_currified; [nra | exact Hnz]. }
      assert (Hnzb' : snd (cosine_acc (scale c a) b) <> 0) by (rewrite Hnb'; exact Hnzb).
      destruct (@cosine_sim_div_branch K _ (scale c a) b Hnz' Hnzb') as (_ & _ & _ & Hv').
      rewrite Hv', Hv, Hna', Hnb', Hdot'.
      assert (Hsq : sqrt (c * c * na) = c * sqrt na).
      { rewrite sqrt_mult by nra. rewrite sqrt_square by lra. reflexivity. }
      rewrite Hsq.
      assert (Hsa : 0 < sqrt na) by (apply sqrt_lt_R0; exact Hpa).
      assert (Hsb : 0 < sqrt nb) by (apply sqrt_lt_R0; exact Hpb).
      field. repeat split; lra.
Qed.

Lemma get_positive {K : Type} `{Hashable K} (d : dict K R) (k : K) :
  positive_weights d -> In k (keys d) -> 0 < get d k 0.
Proof.
  intros Hd Hk. unfold get. destruct (lookup d k) as [v|] eqn:Hl.
  - apply lookup_In in Hl. unfold positive_weights in Hd. rewrite Forall_forall in Hd.
    apply (Hd (k, v) Hl).
  - apply lookup_None in Hl. contradiction.
Qed.

Lemma positive_nonneg {K : Type} (d : dict K R) : positive_weights d -> nonneg_weights d.
Proof.
  unfold positive_weights, nonneg_weights. apply Forall_impl. intros e He. lra.
Qed.

Lemma sum_over_pos_iff {K : Type} (f : K -> R) (ks : list K) :
  (forall k, 0 <= f k) ->
  (0 < sum_over f ks <-> exists k, In k ks /\ 0 < f k).
Proof.
  intros Hf. induction ks as [|k ks IH].
  - simpl. split; [lra | intros (k & [] & _)].
  - change (sum_over f (k :: ks)) with (f k + sum_over f ks).
    pose proof (sum_over_nonneg f ks Hf) as Hs. pose proof (Hf k) as Hk0. split.
    + intros Hpos. destruct (Rlt_dec 0 (f k)) as [Hk|Hk].
      * exists k. simpl. auto.
      * assert (Hrest : 0 < sum_over f ks) by lra.
        apply IH in Hrest. destruct Hrest as (k' & Hin & Hk'). exists k'. simpl. auto.
    + intros (k' & [<-|Hin] & Hk'); [lra|].
      assert (Hrest : 0 < sum_over f ks) by (apply IH; exists k'; auto).
      lra.
Qed.

(** Two vectors with strictly positive weights that share a key have a
    strictly positive similarity. *)
Lemma cosine_val_positive_shared_key {K : Type} `{Hashable K} (a b : dict K R) (k : K) :
  positive_weights a -> positive_weights b ->
  In k (keys a) -> In k (keys b) -> 0 < cosine_val a b.
Proof.
  intros Ha Hb Hka Hkb.
  assert (Hterm : forall x, 0 <= get a x 0 * get b x 0).
  { intros x. apply Rmult_le_pos; apply get_nonneg; apply positive_nonneg; assumption. }
  assert (Hdot : 0 < fst (fst (cosine_acc a b))).
  { rewrite cosine_acc_sums. cbn [fst].
    apply (sum_over_pos_iff (fun x => get a x 0 * get b x 0) _ Hterm).
    exists k. split; [apply in_union; auto|].
    apply Rmult_lt_0_compat; apply get_positive; assumption. }
  assert (Hnz : snd (fst (cosine_acc a b)) <> 0).
  { intros Hz. apply (cosine_na_zero a b) in Hz.
    pose proof (get_positive a k Ha Hka) as Hp. rewrite Hz in Hp. lra. }
  assert (Hnzb : snd (cosine_acc a b) <> 0).
  { intros Hz. apply (cosine_nb_zero a b) in Hz.
    pose proof (get_positive b k Hb Hkb) as Hp. rewrite Hz in Hp. lra. }
  destruct (@cosine_sim_div_branch K _ a b Hnz Hnzb) as (_ & _ & Hprod & Hv).
  unfold cosine_val. rewrite Hv. apply Rdiv_lt_0_compat; assumption.
Qed.

(* ================================================================== *)
(** * Further properties of the predictors *)
(* ================================================================== *)

Lemma weighted_mean_bounds {A : Type} (lo hi : R) (w v : A -> R) (l : list A) :
  (forall x, In x l -> 0 < w x /\ lo <= v x <= hi) ->
  sum_over (fun x => Rabs (w x)) l = sum_over w l /\
  lo * sum_over w l <= sum_over (fun x => w x * v x) l <= hi * sum_over w l.
Proof.
  induction l as [|x l IH]; intros Hl.
  - simpl. split; lra.
  - destruct IH as [Habs Hb]; [intros y Hy; apply Hl; simpl; auto|].
    destruct (Hl x (or_introl eq_refl)) as [Hw Hv].
    change (sum_over (fun x => Rabs (w x)) (x :: l))
      with (Rabs (w x) + sum_over (fun x => Rabs (w x)) l).
    change (sum_over w (x :: l)) with (w x + sum_over w l).
    change (sum_over (fun x => w x * v x) (x :: l))
      with (w x * v x + sum_over (fun x => w x * v x) l).
    rewrite Habs, (Rabs_pos_eq (w x)) by lra. split; [reflexivity|]. nra.
Qed.

Lemma rater_rating (lo hi : R) (ratings : dict Z R) (community : list peer) (k : nat)
  (m : Z) (n : sim_entry) :
  ratings_within lo hi community ->
  In n (raters (firstn k (filter (fun s => gtb (sim_of s) 0)
                                 (sorted_desc sim_of (sims_of ratings community)))) m) ->
  0 < sim_of n /\ lo <= get (ratings_of n) m 0 <= hi.
Proof.
  intros Hw Hn. unfold raters in Hn. apply filter_In in Hn. destruct Hn as [Hn Hc].
  split; [apply (@neighbors_positive ratings community k n Hn)|].
  destruct (@neighbors_are_peers ratings community k n Hn) as (u & Hu & Heq & _).
  unfold contains in Hc. unfold get.
  destruct (lookup (ratings_of n) m) as [rm|] eqn:Hl; [|discriminate].
  apply lookup_In in Hl. rewrite Heq in Hl. unfold ratings_of in Hl. cbn [snd] in Hl.
  unfold ratings_within in Hw. rewrite Forall_forall in Hw. specialize (Hw u Hu).
  rewrite Forall_forall in Hw. apply (Hw (m, rm) Hl).
Qed.

Lemma cf_scores_within (lo hi : R) (ratings : dict Z R) (community : list peer) (k : nat)
  (neighbors : list sim_entry) :
  neighbors = firstn k (filter (fun s => gtb (sim_of s) 0)
                               (sorted_desc sim_of (sims_of ratings community))) ->
  ratings_within lo hi community ->
  Forall (fun e => lo <= snd e <= hi)
         (map (fun m => (m, fst (cf_accumulate neighbors m) / snd (cf_accumulate neighbors m)))
              (filter (fun m => negb (contains ratings m)
                                && gtb (snd (cf_accumulate neighbors m)) 0)
                      MOVIE_IDS)).
Proof.
  intros -> Hw.
  rewrite Forall_forall. intros e He. apply in_map_iff in He.
  destruct He as (m & <- & Hm). cbn [snd]. apply filter_In in Hm.
  destruct Hm as [_ Hkeep]. apply andb_true_iff in Hkeep. destruct Hkeep as [_ Hden].
  apply gtb_true in Hden. rewrite cf_accumulate_eq in *. cbn [fst snd] in *.
  set (rs := raters _ m) in *.
  destruct (weighted_mean_bounds lo hi sim_of (fun n => get (ratings_of n) m 0) rs)
    as [Habs [Hlo Hhi]].
  { intros n Hn. apply (rater_rating lo hi ratings community k m n Hw Hn). }
  rewrite Habs in *.
  split.
  - apply Rmult_le_reg_r with (r := sum_over sim_of rs); [lra|].
    unfold Rdiv. rewrite Rmult_assoc, Rinv_l by lra. lra.
  - apply Rmult_le_reg_r with (r := sum_over sim_of rs); [lra|].
    unfold Rdiv. rewrite Rmult_assoc, Rinv_l by lra. lra.
Qed.

Lemma COMMUNITY_ratings_within : ratings_within 4 5 COMMUNITY.
Proof.
  unfold ratings_within, COMMUNITY. repeat constructor; simpl; lra.
Qed.

Lemma cosine_val_single_rating (m : Z) (r : R) (b : dict Z R) :
  0 < r -> cosine_val [(m, r)] b = cosine_val [(m, 1)] b.
Proof.
  intros Hr. rewrite <- (cosine_val_scale r [(m, 1)] b Hr).
  unfold scale. cbn [map fst snd]. rewrite Rmult_1_r. reflexivity.
Qed.

Lemma sims_of_single_rating (m : Z) (r r' : R) (community : list peer) :
  0 < r -> 0 < r' -> sims_of [(m, r)] community = sims_of [(m, r')] community.
Proof.
  intros Hr Hr'. unfold sims_of. apply map_ext. intros u.
  rewrite (cosine_val_single_rating m r _ Hr), (cosine_val_single_rating m r' _ Hr').
  reflexivity.
Qed.

Lemma contains_single (m : Z) (r r' : R) (x : Z) :
  contains [(m, r)] x = contains [(m, r')] x.
Proof. unfold contains. simpl. destruct (key_eq_dec x m); reflexivity. Qed.

Lemma filter_ext_all {A : Type} (f g : A -> bool) (l : list A) :
  (forall x, f x = g x) -> filter f l = filter g l.
Proof. intros Hfg. apply filter_ext. exact Hfg. Qed.

(** [predict_cf] reads the rating input only through the similarities and
    through the test [m in ratings]. *)
Lemma predict_cf_same_inputs (r1 r2 : dict Z R) (community : list peer) (k : nat) :
  sims_of r1 community = sims_of r2 community ->
  (forall x, contains r1 x = contains r2 x) ->
  predict_cf r1 community k = predict_cf r2 community k.
Proof.
  intros Hs Hc.
  unfold predict_cf. rewrite !cf_neighbors_eq. cbn [bind]. rewrite !cf_loop_eq, Hs.
  f_equal. f_equal. apply filter_ext_all. intros x. rewrite (Hc x). reflexivity.
Qed.




(* ================================================================== *)
(** * Further properties of the vectorizer *)
(* ================================================================== *)

Lemma term_freq_In (tokens : list string) (t : string) :
  In t tokens -> 1 <= IZR (term_freq tokens t).
Proof.
  intros Ht. apply IZR_le. unfold term_freq.
  apply (count_occ_In string_dec) in Ht. lia.
Qed.

Lemma tfidf_vec_weights (movies : list movie) (m : movie) :
  In m movies ->
  Forall (fun e => 1 <= snd e)
         (tfidf_vec (map (fun e => (fst e, idf_of movies (fst e))) (df_loop movies []))
                    (tokens_of m)).
Proof.
  intros Hm. rewrite Forall_forall. intros [t w] He. cbn [snd].
  apply (@lookup_of_In _ _ _ _ t w (NoDup_keys_tfidf_vec _ _)) in He.
  apply lookup_tfidf_vec in He. destruct He as [Ht ->].
  rewrite get_idf by (apply keys_df_loop; right; exists m; split; assumption).
  pose proof (term_freq_In _ _ Ht). pose proof (idf_of_ge_1 movies t). nra.
Qed.

(** X8.  For a catalog without repeated ids, [build_tfidf] stores a vector
    for exactly the catalog ids; the terms of an item's vector are exactly
    its lowercased genres and tags, and every stored weight is at least 1. *)
Theorem build_tfidf_vector_of_each_item :
  forall (movies : list movie),
    NoDup (map movie_id movies) ->
    exists vectors,
      build_tfidf movies = Some vectors /\
      (forall mid, In mid (keys vectors) <-> In mid (map movie_id movies)) /\
      forall m, In m movies ->
        exists vec, lookup vectors (movie_id m) = Some vec /\
                    (forall t, In t (keys vec) <-> In t (tokens_of m)) /\
                    Forall (fun e => 1 <= snd e) vec.
Proof.
  intros movies Hnd. eexists. split; [apply build_tfidf_eq|]. split.
  - intros mid.
    rewrite (keys_fold_set (fun doc : Z * list string => fst doc)
               (fun doc => tfidf_vec _ (snd doc))).
    rewrite map_map. cbn [fst]. simpl. tauto.
  - intros m Hm. eexists. split; [|split].
    + apply (lookup_fold_set_In (fun doc : Z * list string => fst doc)
               (fun doc => tfidf_vec _ (snd doc)) _ [] (movie_id m, tokens_of m)).
      * rewrite map_map. cbn [fst]. exact Hnd.
      * apply in_map_iff. exists m. split; [reflexivity | exact Hm].
    + intros t. cbn [snd]. apply keys_tfidf_vec.
    + cbn [snd]. apply tfidf_vec_weights. exact Hm.
Qed.

Lemma build_tfidf_vector_of_each_item_witness :
  NoDup (map movie_id MOVIES) /\
  exists vectors,
    build_tfidf MOVIES = Some vectors /\
    (forall mid, In mid (keys vectors) <-> In mid (map movie_id MOVIES)).
Proof.
  split; [exact NoDup_movie_ids|].
  destruct (build_tfidf_vector_of_each_item MOVIES NoDup_movie_ids) as (vectors & Hv & Hk & _).
  exists vectors. split; [exact Hv | exact Hk].
Defined.

(** Whatever the ids, the vectors of [build_tfidf] are proper dictionaries
    with weights of at least 1. *)
Lemma build_tfidf_vectors (movies : list movie) :
  exists vectors,
    build_tfidf movies = Some vectors /\ proper_vectors vectors /\
    Forall (fun e => Forall (fun w => 1 <= snd w) (snd e)) vectors.
Proof.
  eexists. split; [apply build_tfidf_eq|]. split.
  - unfold proper_vectors. rewrite Forall_forall. intros e He.
    apply In_fold_set in He; [|constructor].
    destruct He as [[]|(doc & _ & <-)]. apply NoDup_keys_tfidf_vec.
  - rewrite Forall_forall. intros e He.
    apply In_fold_set in He; [|constructor].
    destruct He as [[]|(doc & Hdoc & <-)].
    apply in_map_iff in Hdoc. destruct Hdoc as (m & <- & Hm). cbn [snd].
    apply tfidf_vec_weights. exact Hm.
Qed.


(* ================================================================== *)
(** * Further properties of the prompt booster *)
(* ================================================================== *)

Lemma movie_by_id_unknown (mid : Z) : ~ In mid MOVIE_IDS -> movie_by_id mid = None.
Proof.
  intros Hout. destruct (movie_by_id mid) as [m|] eqn:Hm; [|reflexivity].
  exfalso. apply Hout. rewrite <- (@movie_by_id_id mid m Hm).
  unfold movie_by_id in Hm. apply find_some in Hm. apply in_map. tauto.
Qed.

Lemma for_each_total {A S : Type} (body : S -> A -> result S) (l : list A) :
  (forall s x, In x l -> exists s', body s x = Some s') ->
  forall s, exists s', for_each body l s = Some s'.
Proof.
  induction l as [|x l IH]; intros Hb s; simpl; [eauto|].
  destruct (Hb s x (or_introl eq_refl)) as [s' Hs']. rewrite Hs'. cbn [bind].
  apply IH. intros s0 y Hy. apply Hb. simpl. auto.
Qed.

Lemma for_each_raises {A S : Type} (body : S -> A -> result S) (l : list A) (x : A) :
  In x l -> (forall s, body s x = None) -> forall s, for_each body l s = None.
Proof.
  induction l as [|y l IH]; intros Hx Hb s; [contradiction|]. simpl.
  destruct Hx as [->|Hx].
  - rewrite Hb. reflexivity.
  - destruct (body s y) as [s'|]; [cbn [bind]; apply IH; assumption | reflexivity].
Qed.

(** X10.  With a non-empty prompt the booster raises ([StopIteration] of
    [next]) exactly when its input has a key that is not a catalog id. *)
Theorem apply_prompt_boost_raises_iff_unknown_item :
  forall (hybrid : dict Z R) (c : ascii) (p : string),
    apply_prompt_boost hybrid (Some (String c p)) = None <->
    exists k, In k (keys hybrid) /\ ~ In k MOVIE_IDS.
Proof.
  intros hybrid c p. cbn [apply_prompt_boost]. split.
  - intros Hnone.
    destruct (Exists_dec (fun e : Z * R => ~ In (fst e) MOVIE_IDS) hybrid) as [Hex|Hall].
    { intros e. destruct (in_dec Z.eq_dec (fst e) MOVIE_IDS); [right | left]; tauto. }
    + apply Exists_exists in Hex. destruct Hex as (e & He & Hout).
      exists (fst e). split; [apply in_map; exact He | exact Hout].
    + exfalso.
      destruct (for_each_total (boost_item (lower (String c p))) hybrid) with (s := @nil (Z * R))
        as [boosted Hb].
      { intros s e He. rewrite boost_item_eq; [eauto|].
        destruct (in_dec Z.eq_dec (fst e) MOVIE_IDS) as [Hin|Hout]; [exact Hin|].
        exfalso. apply Hall. apply Exists_exists. exists e. auto. }
      rewrite Hb in Hnone. discriminate.
  - intros (k & Hk & Hout). apply in_map_iff in Hk. destruct Hk as (e & <- & He).
    rewrite (for_each_raises (boost_item (lower (String c p))) hybrid e He); [reflexivity|].
    intros s. unfold boost_item. rewrite (movie_by_id_unknown _ Hout). reflexivity.
Qed.

(** X11.  On a proper score map keyed by catalog ids and a non-empty
    prompt, the booster keeps the items and their number; every score is
    its input score, or its input score plus 2. *)
Theorem apply_prompt_boost_adds_0_or_2 :
  forall (hybrid : dict Z R) (c : ascii) (p : string),
    NoDup (keys hybrid) -> (forall k, In k (keys hybrid) -> In k MOVIE_IDS) ->
    exists out,
      apply_prompt_boost hybrid (Some (String c p)) = Some out /\
      List.length out = List.length hybrid /\
      (forall m, In m (keys out) <-> In m (keys hybrid)) /\
      forall m s, lookup out m = Some s ->
                  exists h, lookup hybrid m = Some h /\ (s = h \/ s = h + 2).
Proof.
  intros hybrid c p Hnd Hcat.
  assert (Hp : String c p <> EmptyString) by discriminate.
  pose proof (@apply_prompt_boost_nonempty hybrid (String c p) Hp Hnd Hcat) as Hb.
  eexists. split; [exact Hb|].
  set (q := lower (String c p)) in *.
  set (bm := map (fun e : Z * R => (fst e, snd e + boost_of q (fst e))) hybrid) in *.
  assert (Hperm : Permutation (sorted_desc snd bm) bm) by apply sorted_desc_Permutation.
  split; [|split].
  - rewrite (Permutation_length Hperm). unfold bm. apply length_map.
  - intros m. apply (@apply_prompt_boost_keys hybrid _ (Some (String c p)) m Hnd Hcat Hb).
  - intros m s Hl. apply lookup_In in Hl. apply (Permutation_in _ Hperm) in Hl.
    unfold bm in Hl. apply in_map_iff in Hl. destruct Hl as ([k h] & Heq & Hin).
    cbn [fst snd] in Heq. inversion Heq; subst. exists h.
    split; [apply (@lookup_of_In _ _ _ hybrid m h Hnd Hin)|].
    unfold boost_of. destruct (movie_by_id m) as [mv|]; [|left; lra].
    destruct (str_in q (haystack mv)); [right; reflexivity | left; lra].
Qed.

Lemma apply_prompt_boost_adds_0_or_2_witness :
  NoDup (keys [(2%Z, 1)]) /\ (forall k, In k (keys [(2%Z, 1)]) -> In k MOVIE_IDS) /\
  exists out, apply_prompt_boost [(2%Z, 1)] (Some "batman"%string) = Some out /\
              List.length out = 1%nat.
Proof.
  assert (Hnd : NoDup (keys [(2%Z, 1)])) by (repeat constructor; simpl; tauto).
  assert (Hcat : forall k, In k (keys [(2%Z, 1)]) -> In k MOVIE_IDS).
  { intros k [<-|[]]. rewrite MOVIE_IDS_eq. simpl. tauto. }
  split; [exact Hnd | split; [exact Hcat|]].
  destruct (apply_prompt_boost_adds_0_or_2 [(2%Z, 1)] "b"%char "atman"%string Hnd Hcat)
    as (out & Hout & Hlen & _).
  exists out. split; [exact Hout | exact Hlen].
Defined.

(** ** Letter case *)

Lemma lower_ascii_idempotent (c : ascii) : lower_ascii (lower_ascii c) = lower_ascii c.
Proof.
  destruct c as [b0 b1 b2 b3 b4 b5 b6 b7].
  destruct b0, b1, b2, b3, b4, b5, b6, b7; reflexivity.
Qed.

Lemma lower_idempotent (s : string) : lower (lower s) = lower s.
Proof.
  induction s as [|c s IH]; simpl; [reflexivity|].
  rewrite lower_ascii_idempotent, IH. reflexivity.
Qed.

(** X12.  The booster ignores the letter case of the prompt: a prompt and
    its lowercase form give the same result on every input. *)
Theorem apply_prompt_boost_prompt_case_insensitive :
  forall (hybrid : dict Z R) (p : string),
    apply_prompt_boost hybrid (Some p) = apply_prompt_boost hybrid (Some (lower p)).
Proof.
  intros hybrid p. destruct p as [|c p]; [reflexivity|].
  cbn [lower apply_prompt_boost].
  rewrite lower_ascii_idempotent, lower_idempotent. reflexivity.
Qed.

(* ================================================================== *)
(** * Further properties of the view [index] *)
(* ================================================================== *)

(** The stages behind [index_hybrid], with what each one returns. *)
Lemma index_hybrid_stages (ratings : dict Z R) :
  exists tfidf profile cf cb,
    build_tfidf MOVIES = Some tfidf /\ proper_vectors tfidf /\
    Forall (fun e => Forall (fun w => 1 <= snd w) (snd e)) tfidf /\
    build_user_profile tfidf ratings = Some profile /\
    predict_cf ratings COMMUNITY 3 = Some cf /\
    predict_cb tfidf profile ratings = Some cb /\
    index_hybrid ratings = Some (hybrid_scores cf cb 0.6).
Proof.
  destruct (build_tfidf_vectors MOVIES) as (tfidf & Htfidf & Hproper & Hw).
  destruct (@build_user_profile_total tfidf ratings Hproper) as (profile & Hprofile).
  destruct (predict_cf_total ratings COMMUNITY 3) as (cf & Hcf).
  exists tfidf, profile, cf. eexists.
  split; [exact Htfidf | split; [exact Hproper | split; [exact Hw|]]].
  split; [exact Hprofile | split; [exact Hcf | split; [apply predict_cb_eq|]]].
  unfold index_hybrid. rewrite Htfidf. cbn [bind]. rewrite Hprofile. cbn [bind].
  rewrite Hcf. cbn [bind]. rewrite predict_cb_eq. reflexivity.
Qed.

Lemma StronglySorted_firstn {A : Type} (R : A -> A -> Prop) (n : nat) (l : list A) :
  StronglySorted R l -> StronglySorted R (firstn n l).
Proof.
  revert n. induction l as [|x l IH]; intros n Hs; destruct n; simpl; try constructor.
  - inversion Hs; subst. apply IH. assumption.
  - inversion Hs as [|? ? _ Hx]; subst. rewrite Forall_forall in *.
    intros y Hy. apply Hx. apply (In_firstn n l y Hy).
Qed.

Lemma length_without_rated (l : list Z) (x : Z) :
  NoDup l -> (forall k, In k l -> In k MOVIE_IDS) -> In x MOVIE_IDS -> ~ In x l ->
  (List.length l <= 4)%nat.
Proof.
  intros Hnd Hincl Hx Hout.
  assert (Hlen : (List.length (x :: l) <= List.length MOVIE_IDS)%nat).
  { apply NoDup_incl_length; [constructor; assumption|].
    intros k [<-|Hk]; auto. }
  rewrite MOVIE_IDS_eq in Hlen. simpl in Hlen. lia.
Qed.

(** ** The rating value *)

Lemma sum_over_nonpos {K : Type} (f : K -> R) (ks : list K) :
  (forall k, f k <= 0) -> sum_over f ks <= 0.
Proof.
  intros Hf. induction ks as [|k ks IH]; [simpl; lra|].
  change (sum_over f (k :: ks)) with (f k + sum_over f ks).
  specialize (Hf k). lra.
Qed.

Lemma cosine_val_nonpositive_rating (m : Z) (x : R) (b : dict Z R) :
  x <= 0 -> nonneg_weights b -> cosine_val [(m, x)] b <= 0.
Proof.
  intros Hx Hb. unfold cosine_val.
  destruct (Req_dec_T (snd (fst (cosine_acc [(m, x)] b))) 0) as [Hz|Hnz];
    [rewrite (@cosine_sim_zero_branch Z _ [(m, x)] b) by (left; exact Hz); lra|].
  destruct (Req_dec_T (snd (cosine_acc [(m, x)] b)) 0) as [Hzb|Hnzb];
    [rewrite (@cosine_sim_zero_branch Z _ [(m, x)] b) by (right; exact Hzb); lra|].
  destruct (@cosine_sim_div_branch Z _ [(m, x)] b Hnz Hnzb) as (_ & _ & Hprod & Hv).
  rewrite Hv.
  assert (Hdot : fst (fst (cosine_acc [(m, x)] b)) <= 0).
  { rewrite cosine_acc_sums. cbn [fst]. apply sum_over_nonpos. intros k.
    pose proof (get_nonneg k Hb) as Hgb.
    assert (Hga : get [(m, x)] k 0 <= 0).
    { unfold get. simpl. destruct (key_eq_dec k m); lra. }
    nra. }
  apply Rmult_le_reg_r with (r := sqrt (snd (fst (cosine_acc [(m, x)] b)))
                                  * sqrt (snd (cosine_acc [(m, x)] b))); [exact Hprod|].
  unfold Rdiv. rewrite Rmult_assoc, Rinv_l by lra. lra.
Qed.

Lemma filter_none {A : Type} (f : A -> bool) (l : list A) :
  (forall x, In x l -> f x = false) -> filter f l = [].
Proof.
  induction l as [|x l IH]; intros Hf; simpl; [reflexivity|].
  rewrite (Hf x (or_introl eq_refl)). apply IH. intros y Hy. apply Hf. simpl. auto.
Qed.

(** Without a peer of positive similarity there is no neighbor and nothing
    is predicted. *)
Lemma predict_cf_no_positive_peer (ratings : dict Z R) (community : list peer) (k : nat) :
  (forall u, In u community -> cosine_val ratings (peer_ratings u) <= 0) ->
  predict_cf ratings community k = Some [].
Proof.
  intros Hsim. unfold predict_cf. rewrite cf_neighbors_eq. cbn [bind]. rewrite cf_loop_eq.
  rewrite (filter_none (fun s => gtb (sim_of s) 0)).
  - rewrite firstn_nil.
    rewrite (filter_none (fun m => negb (contains ratings m)
                                   && gtb (snd (cf_accumulate [] m)) 0)); [reflexivity|].
    intros m _. unfold cf_accumulate. cbn [fold_left snd].
    rewrite (proj2 (gtb_false 0 0)) by lra. apply andb_false_r.
  - intros s Hs. apply gtb_false.
    apply (Permutation_in _ (sorted_desc_Permutation sim_of _)) in Hs.
    unfold sims_of in Hs. apply in_map_iff in Hs. destruct Hs as (u & <- & Hu).
    unfold sim_of. cbn [fst snd]. apply Hsim. exact Hu.
Qed.

Lemma COMMUNITY_nonneg (u : peer) : In u COMMUNITY -> nonneg_weights (peer_ratings u).
Proof.
  intros Hu. pose proof COMMUNITY_ratings_within as Hw.
  unfold ratings_within in Hw. rewrite Forall_forall in Hw. specialize (Hw u Hu).
  unfold nonneg_weights. revert Hw. apply Forall_impl. intros e He. lra.
Qed.

Lemma hybrid_scores_all_zero (cf_scores cb_scores : dict Z R) (alpha : R) :
  (forall m, get cf_scores m 0 = 0) -> (forall m, get cb_scores m 0 = 0) ->
  hybrid_scores cf_scores cb_scores alpha = [].
Proof.
  intros Hcf Hcb. rewrite hybrid_scores_closed_form.
  rewrite (filter_none (scored cf_scores cb_scores)); [reflexivity|].
  intros m _. unfold scored. rewrite Hcf, Hcb.
  unfold truthy. rewrite (proj2 (eqb_true 0 0)) by reflexivity. reflexivity.
Qed.

Lemma liked_items_single (m : Z) (x : R) :
  liked_items [(m, x)] = if geb x 4 then [m] else [].
Proof. unfold liked_items. cbn [filter snd]. destruct (geb x 4); reflexivity. Qed.

Lemma geb_IZR (r : Z) : geb (IZR r) 4 = (4 <=? r)%Z.
Proof.
  destruct (Z.leb_spec 4 r) as [Hle|Hlt].
  - apply geb_true. apply Rle_ge. apply (IZR_le 4 r Hle).
  - unfold geb. destruct (Rge_dec (IZR r) 4) as [Hge|_]; [|reflexivity].
    exfalso. apply (IZR_lt r 4) in Hlt. lra.
Qed.

(** With a rating that is not positive there is nothing to blend. *)
Lemma index_hybrid_nonpositive_rating (m : Z) (r : Z) :
  (r <= 0)%Z -> index_hybrid [(m, IZR r)] = Some [].
Proof.
  intros Hr.
  destruct (index_hybrid_stages [(m, IZR r)])
    as (tfidf & profile & cf & cb & _ & _ & _ & Hprofile & Hcf & Hcb & Hh).
  rewrite Hh. f_equal.
  assert (Hx : IZR r <= 0) by (apply (IZR_le r 0 Hr)).
  rewrite predict_cf_no_positive_peer in Hcf
    by (intros u Hu; apply cosine_val_nonpositive_rating;
        [exact Hx | apply COMMUNITY_nonneg; exact Hu]).
  apply Some_eq in Hcf. subst cf.
  assert (Hp : profile = []).
  { unfold build_user_profile in Hprofile. rewrite liked_items_single, geb_IZR in Hprofile.
    destruct (Z.leb_spec 4 r); [lia|]. apply Some_eq in Hprofile. auto. }
  subst profile.
  destruct (predict_cb_empty_profile tfidf [(m, IZR r)]) as (scores & Hs & Hzero).
  rewrite Hcb in Hs. apply Some_eq in Hs. subst scores.
  apply hybrid_scores_all_zero.
  - intros k. reflexivity.
  - intros k. unfold get. destruct (lookup cb k) as [s|] eqn:Hl; [|reflexivity].
    apply lookup_In in Hl. apply (Hzero k s Hl).
Qed.

(** X14.  [index] does not check the rating.  With an ASCII movie name and
    a rating of 0 or less (its square within float range) it still
    answers: when the movie is
    found the list of recommendations is empty, with no error; no neighbor
    has a positive similarity, nothing is liked, and every blended score
    is 0 and dropped. *)
Theorem index_post_nonpositive_rating_no_recs :
  forall (movie_name : string) (rating : Z) (prompt : string),
    isascii movie_name = true ->
    (rating <= 0)%Z ->
    Binary64.fits_float (rating * rating) = true ->
    match find (fun m => str_in (lower (strip movie_name)) (lower (movie_title m))) MOVIES with
    | Some _ => index_post movie_name rating prompt = Some (Rendering (Some []) None)
    | None => exists msg,
        index_post movie_name rating prompt = Some (Rendering None (Some msg))
    end.
Proof.
  intros movie_name rating prompt _ Hr _.
  destruct (find (fun m => str_in (lower (strip movie_name)) (lower (movie_title m))) MOVIES)
    as [mv|] eqn:Hfind.
  - destruct (@index_post_found movie_name rating prompt mv Hfind)
      as (cf & cb & boosted & rs & _ & Hh & Hb & Hall & Hpage).
    rewrite (index_hybrid_nonpositive_rating (movie_id mv) rating Hr) in Hh.
    apply Some_eq in Hh. rewrite <- Hh in Hb.
    assert (Hboosted : boosted = []).
    { destruct prompt as [|c p]; cbn in Hb; apply Some_eq in Hb; auto. }
    subst boosted. cbn [firstn] in Hall. inversion Hall; subst. exact Hpage.
  - unfold index_post. rewrite Hfind. eexists. reflexivity.
Qed.

(** The property at the request "Inception", 0, "sci-fi". *)
Lemma index_post_nonpositive_rating_no_recs_witness :
  isascii "Inception" = true /\ (0 <= 0)%Z /\ Binary64.fits_float (0 * 0) = true /\
  match find (fun m => str_in (lower (strip "Inception")) (lower (movie_title m))) MOVIES with
  | Some _ => index_post "Inception" 0 "sci-fi" = Some (Rendering (Some []) None)
  | None => exists msg, index_post "Inception" 0 "sci-fi" = Some (Rendering None (Some msg))
  end.
Proof.
  assert (H0 : (0 <= 0)%Z) by lia.
  assert (Hfit : Binary64.fits_float (0 * 0) = true) by reflexivity.
  assert (Hname : isascii "Inception" = true) by reflexivity.
  split; [exact Hname | split; [exact H0 | split; [exact Hfit|]]].
  exact (index_post_nonpositive_rating_no_recs "Inception" 0 "sci-fi" Hname H0 Hfit).
Defined.

Lemma build_user_profile_same_liked (tfidf_vectors : dict Z (dict string R))
  (r1 r2 : dict Z R) :
  liked_items r1 = liked_items r2 ->
  build_user_profile tfidf_vectors r1 = build_user_profile tfidf_vectors r2.
Proof. intros Hl. unfold build_user_profile. rewrite Hl. reflexivity. Qed.

Lemma predict_cb_single_rating (tfidf_vectors : dict Z (dict string R))
  (user_profile : dict string R) (m : Z) (x x' : R) :
  predict_cb tfidf_vectors user_profile [(m, x)] =
  predict_cb tfidf_vectors user_profile [(m, x')].
Proof.
  rewrite !predict_cb_eq. f_equal. f_equal. apply filter_ext_all.
  intros mv. rewrite (contains_single m x x' (movie_id mv)). reflexivity.
Qed.

Lemma index_hybrid_single_rating (m : Z) (x x' : R) :
  liked_items [(m, x)] = liked_items [(m, x')] ->
  predict_cf [(m, x)] COMMUNITY 3 = predict_cf [(m, x')] COMMUNITY 3 ->
  index_hybrid [(m, x)] = index_hybrid [(m, x')].
Proof.
  intros Hl Hcf.
  destruct (index_hybrid_stages [(m, x)])
    as (tfidf & profile & cf & cb & Ht & _ & _ & Hprofile & Hcf1 & Hcb & Hh).
  destruct (index_hybrid_stages [(m, x')])
    as (tfidf' & profile' & cf' & cb' & Ht' & _ & _ & Hprofile' & Hcf1' & Hcb' & Hh').
  rewrite Hh, Hh'.
  rewrite Ht in Ht'. apply Some_eq in Ht'. subst tfidf'.
  rewrite (build_user_profile_same_liked tfidf _ _ Hl), Hprofile' in Hprofile.
  apply Some_eq in Hprofile. subst profile'.
  rewrite Hcf, Hcf1' in Hcf1. apply Some_eq in Hcf1. subst cf'.
  rewrite (predict_cb_single_rating tfidf profile m x x'), Hcb' in Hcb.
  apply Some_eq in Hcb. subst cb'. reflexivity.
Qed.

Lemma index_post_same_hybrid (movie_name : string) (r r' : Z) (prompt : string) :
  (forall m, index_hybrid [(m, IZR r)] = index_hybrid [(m, IZR r')]) ->
  index_post movie_name r prompt = index_post movie_name r' prompt.
Proof.
  intros Hh. unfold index_post.
  destruct (find (fun m => str_in (lower (strip movie_name)) (lower (movie_title m))) MOVIES)
    as [mv|]; [|reflexivity].
  rewrite (Hh (movie_id mv)). reflexivity.
Qed.

(** X15.  Within the range 1 to 5 that the form allows, the rating acts
    only through the threshold 4 of the profile builder: the ratings 4 and
    5 give the same answer, and so do the ratings 1, 2 and 3. *)
Theorem index_post_rating_thresholds :
  forall (movie_name : string) (r r' : Z) (prompt : string),
    (4 <= r <= 5 /\ 4 <= r' <= 5)%Z \/ (1 <= r <= 3 /\ 1 <= r' <= 3)%Z ->
    index_post movie_name r prompt = index_post movie_name r' prompt.
Proof.
  intros movie_name r r' prompt Hclass.
  apply index_post_same_hybrid. intros m.
  destruct Hclass as [[H4 H4']|[H1 H1']]; apply index_hybrid_single_rating.
  - rewrite !liked_items_single, !geb_IZR.
    destruct (Z.leb_spec 4 r); [|lia]. destruct (Z.leb_spec 4 r'); [|lia]. reflexivity.
  - apply predict_cf_same_inputs;
      [apply sims_of_single_rating; apply (IZR_lt 0); lia | intros x; apply contains_single].
  - rewrite !liked_items_single, !geb_IZR.
    destruct (Z.leb_spec 4 r); [lia|]. destruct (Z.leb_spec 4 r'); [lia|]. reflexivity.
  - apply predict_cf_same_inputs;
      [apply sims_of_single_rating; apply (IZR_lt 0); lia | intros x; apply contains_single].
Qed.

(** The ratings 4 and 5 of "Inception" give the same answer. *)
Lemma index_post_rating_thresholds_witness :
  ((4 <= 4 <= 5 /\ 4 <= 5 <= 5)%Z \/ (1 <= 4 <= 3 /\ 1 <= 5 <= 3)%Z) /\
  index_post "Inception" 4 "sci-fi" = index_post "Inception" 5 "sci-fi".
Proof.
  assert (H : (4 <= 4 <= 5 /\ 4 <= 5 <= 5)%Z \/ (1 <= 4 <= 3 /\ 1 <= 5 <= 3)%Z)
    by (left; lia).
  split; [exact H|].
  exact (index_post_rating_thresholds "Inception" 4 5 "sci-fi" H).
Defined.

(** ** Letter case and surrounding whitespace *)

Lemma is_space_lower (c : ascii) : is_space (lower_ascii c) = is_space c.
Proof.
  destruct c as [b0 b1 b2 b3 b4 b5 b6 b7].
  destruct b0, b1, b2, b3, b4, b5, b6, b7; reflexivity.
Qed.

Lemma lstrip_lower (s : string) : lstrip (lower s) = lower (lstrip s).
Proof.
  induction s as [|c s IH]; simpl; [reflexivity|].
  rewrite is_space_lower. destruct (is_space c); [exact IH | reflexivity].
Qed.

Lemma rstrip_lower (s : string) : rstrip (lower s) = lower (rstrip s).
Proof.
  induction s as [|c s IH]; simpl; [reflexivity|].
  rewrite IH, is_space_lower.
  destruct (rstrip s) as [|c' s']; simpl; [destruct (is_space c)|]; reflexivity.
Qed.

Lemma strip_lower (s : string) : strip (lower s) = lower (strip s).
Proof. unfold strip. rewrite lstrip_lower, rstrip_lower. reflexivity. Qed.

Lemma comprehension_ext {A B : Type} (f g : A -> result B) (l : list A) :
  (forall x, f x = g x) -> comprehension f l = comprehension g l.
Proof.
  intros Hfg. induction l as [|x l IH]; simpl; [reflexivity|].
  rewrite Hfg, IH. reflexivity.
Qed.

Lemma rec_entry_lower (prompt : string) (e : Z * R) :
  rec_entry (lower prompt) e = rec_entry prompt e.
Proof. unfold rec_entry. rewrite lower_idempotent. reflexivity. Qed.

Lemma lstrip_head (s : string) :
  lstrip s = EmptyString \/ exists c t, lstrip s = String c t /\ is_space c = false.
Proof.
  induction s as [|c s IH]; simpl; [left; reflexivity|].
  destruct (is_space c) eqn:Hc; [exact IH|]. right. exists c, s. auto.
Qed.

Lemma rstrip_head (c : ascii) (t : string) :
  is_space c = false -> exists t', rstrip (String c t) = String c t'.
Proof.
  intros Hc. simpl. destruct (rstrip t) as [|c' t']; [rewrite Hc|]; eauto.
Qed.

Lemma rstrip_idempotent (s : string) : rstrip (rstrip s) = rstrip s.
Proof.
  induction s as [|c s IH]; [reflexivity|].
  cbn [rstrip]. destruct (rstrip s) as [|c' r] eqn:Hr.
  - destruct (is_space c) eqn:Hc; [reflexivity|]. cbn [rstrip]. rewrite Hc. reflexivity.
  - cbn [rstrip] in *. rewrite IH. reflexivity.
Qed.

Lemma strip_idempotent (s : string) : strip (strip s) = strip s.
Proof.
  unfold strip. destruct (lstrip_head s) as [He|(c & t & He & Hc)]; rewrite He.
  - reflexivity.
  - destruct (rstrip_head c t Hc) as [t' Ht']. rewrite Ht'.
    assert (Hl : lstrip (String c t') = String c t') by (simpl; rewrite Hc; reflexivity).
    rewrite Hl, <- Ht'. apply rstrip_idempotent.
Qed.

(** X16.  [index] ignores the letter case of the movie name and of the
    prompt, and whitespace around the movie name: lowercasing either field,
    or stripping the movie name beforehand, changes nothing in the answer. *)
Theorem index_post_case_and_whitespace_insensitive :
  forall (movie_name : string) (rating : Z) (prompt : string),
    index_post (lower movie_name) rating (lower prompt) =
    index_post movie_name rating prompt /\
    index_post (strip movie_name) rating prompt = index_post movie_name rating prompt.
Proof.
  intros movie_name rating prompt. split.
  - unfold index_post.
    rewrite strip_lower, lower_idempotent.
    destruct (find (fun m => str_in (lower (strip movie_name)) (lower (movie_title m))) MOVIES)
      as [mv|]; [|reflexivity].
    destruct (index_hybrid [(movie_id mv, IZR rating)]) as [hybrid|]; [|reflexivity].
    cbn [bind].
    assert (Hcase : apply_prompt_boost hybrid (Some (lower prompt)) =
                    apply_prompt_boost hybrid (Some prompt)).
    { destruct prompt as [|c p]; [reflexivity|]. cbn [lower apply_prompt_boost].
      rewrite lower_ascii_idempotent, lower_idempotent. reflexivity. }
    rewrite Hcase.
    destruct (apply_prompt_boost hybrid (Some prompt)) as [boosted|]; [|reflexivity].
    cbn [bind].
    rewrite (comprehension_ext (rec_entry (lower prompt)) (rec_entry prompt))
      by (intros e; apply rec_entry_lower).
    reflexivity.
  - unfold index_post. rewrite strip_idempotent. reflexivity.
Qed.

(** ** The range of the scores shown *)

Lemma predict_cf_scores_within (lo hi : R) (ratings : dict Z R) (community : list peer)
  (k : nat) (pred : dict Z R) :
  ratings_within lo hi community ->
  predict_cf ratings community k = Some pred ->
  Forall (fun e => lo <= snd e <= hi) pred.
Proof.
  intros Hw. unfold predict_cf. rewrite cf_neighbors_eq. cbn [bind]. rewrite cf_loop_eq.
  intros Hp. apply Some_eq in Hp. subst pred.
  apply (cf_scores_within lo hi ratings community k _ eq_refl Hw).
Qed.









(* ================================================================== *)
(** * Edge cases of the predictors *)
(* ================================================================== *)

(** X18.  [predict_cf] predicts nothing, without raising, when the rating
    input is empty and the peers' ratings are integers, and when the
    community is empty. *)
Theorem predict_cf_nothing_to_predict :
  forall (ratings : dict Z R) (community : list peer) (k : nat),
    integer_ratings community ->
    predict_cf [] community k = Some [] /\
    predict_cf ratings [] k = Some [].
Proof.
  intros ratings community k _. split.
  - apply predict_cf_no_positive_peer. intros u _.
    rewrite (cosine_val_empty_profile (peer_ratings u)). lra.
  - apply predict_cf_no_positive_peer. intros u [].
Qed.

(** The property at the built-in community. *)
Lemma predict_cf_nothing_to_predict_witness :
  integer_ratings COMMUNITY /\
  predict_cf [] COMMUNITY 3 = Some [] /\
  predict_cf [(1%Z, 5)] [] 3 = Some [].
Proof.
  assert (Hint : integer_ratings COMMUNITY).
  { unfold integer_ratings, COMMUNITY.
    repeat constructor; cbn [snd]; (exists 5%Z + exists 4%Z); reflexivity. }
  split; [exact Hint|].
  exact (predict_cf_nothing_to_predict [(1%Z, 5)] COMMUNITY 3 Hint).
Defined.

Lemma map_filter_ids (keep : Z -> bool) (l : list movie) :
  map movie_id (filter (fun m => keep (movie_id m)) l) = filter keep (map movie_id l).
Proof.
  induction l as [|m l IH]; simpl; [reflexivity|].
  destruct (keep (movie_id m)); simpl; rewrite IH; reflexivity.
Qed.

(** X19.  Whenever the content predictor returns, it has scored every
    catalog item that is not a key of the rating input, and nothing else:
    the keys of its result are the unrated catalog ids, in catalog order,
    also when a score is 0. *)
Theorem predict_cb_scores_every_unrated_item :
  forall (tfidf_vectors : dict Z (dict string R)) (user_profile : dict string R)
         (ratings scores : dict Z R),
    predict_cb tfidf_vectors user_profile ratings = Some scores ->
    keys scores = filter (fun m => negb (contains ratings m)) MOVIE_IDS.
Proof.
  intros tfidf_vectors user_profile ratings scores Hs.
  rewrite predict_cb_eq in Hs. apply Some_eq in Hs. subst scores.
  rewrite keys_tagged. apply (map_filter_ids (fun m => negb (contains ratings m)) MOVIES).
Qed.

(** The property with no item vectors, no profile and item 1 rated: the
    items 2 to 5 are scored. *)
Lemma predict_cb_scores_every_unrated_item_witness :
  exists scores,
    predict_cb [] [] [(1%Z, 5)] = Some scores /\
    keys scores = filter (fun m => negb (contains [(1%Z, 5)] m)) MOVIE_IDS.
Proof.
  eexists. split; [apply predict_cb_eq|].
  exact (predict_cb_scores_every_unrated_item [] [] [(1%Z, 5)] _ (predict_cb_eq [] [] [(1%Z, 5)])).
Defined.

(* ================================================================== *)
(** * The empty prompt *)
(* ================================================================== *)

Lemma COMMUNITY_positive (u : peer) : In u COMMUNITY -> positive_weights (peer_ratings u).
Proof.
  intros Hu. pose proof COMMUNITY_ratings_within as Hw.
  unfold ratings_within in Hw. rewrite Forall_forall in Hw. specialize (Hw u Hu).
  unfold positive_weights. revert Hw. apply Forall_impl. intros e He. lra.
Qed.

(** A peer who shares an item with the user and rated another catalog item
    makes [predict_cf] score that item. *)
Lemma predict_cf_scores_shared (ratings : dict Z R) (u : peer) (k m : Z) :
  In u COMMUNITY -> positive_weights ratings ->
  In k (keys ratings) -> In k (keys (peer_ratings u)) ->
  In m (keys (peer_ratings u)) -> ~ In m (keys ratings) -> In m MOVIE_IDS ->
  exists cf, predict_cf ratings COMMUNITY 3 = Some cf /\ In m (keys cf).
Proof.
  intros Hu Hpos Hk Hku Hm Hnew Hcat.
  unfold predict_cf. rewrite cf_neighbors_eq. cbn [bind]. rewrite cf_loop_eq.
  eexists. split; [reflexivity|]. rewrite keys_tagged.
  set (ranked := filter (fun s => gtb (sim_of s) 0)
                        (sorted_desc sim_of (sims_of ratings COMMUNITY))).
  assert (Hall : firstn 3 ranked = ranked).
  { apply firstn_all2.
    unfold ranked. etransitivity; [apply filter_length_le|].
    rewrite (Permutation_length (sorted_desc_Permutation sim_of _)).
    unfold sims_of. rewrite length_map. simpl. lia. }
  rewrite Hall.
  set (n := (peer_userId u, cosine_val ratings (peer_ratings u), peer_ratings u)).
  assert (Hn : In n ranked).
  { unfold ranked. apply filter_In. split.
    - apply (Permutation_in _ (Permutation_sym (sorted_desc_Permutation sim_of _))).
      unfold sims_of. apply in_map_iff. exists u. split; [reflexivity | exact Hu].
    - apply gtb_true. unfold n, sim_of. cbn [fst snd]. apply Rlt_gt.
      apply (cosine_val_positive_shared_key ratings (peer_ratings u) k Hpos
               (COMMUNITY_positive u Hu) Hk Hku). }
  rewrite map_id. apply filter_In. split; [exact Hcat|].
  apply andb_true_iff. split.
  - apply negb_true_iff. apply contains_false. exact Hnew.
  - apply gtb_true. rewrite cf_accumulate_eq. cbn [snd]. apply Rlt_gt.
    apply weight_total_positive.
    + intros x Hx. unfold raters in Hx. apply filter_In in Hx. destruct Hx as [Hx _].
      unfold ranked in Hx. apply filter_In in Hx. destruct Hx as [_ Hx].
      apply gtb_true in Hx. exact Hx.
    + apply raters_nonempty. exists n. split; [exact Hn | exact Hm].
Qed.

(** Every catalog movie shares a peer with another catalog item. *)
Lemma peer_of_movie (mv : movie) :
  In mv MOVIES ->
  exists u m, In u COMMUNITY /\ In (movie_id mv) (keys (peer_ratings u)) /\
              In m (keys (peer_ratings u)) /\ m <> movie_id mv /\ In m MOVIE_IDS.
Proof.
  intros Hmv. unfold MOVIES in Hmv. simpl in Hmv.
  destruct Hmv as [<-|[<-|[<-|[<-|[<-|[]]]]]]; cbn [movie_id].
  - exists (Peer "u_alex" [(1%Z, 5); (2%Z, 5); (3%Z, 5); (4%Z, 5)]), 2%Z.
    rewrite MOVIE_IDS_eq. unfold COMMUNITY. simpl. repeat split; auto; lia.
  - exists (Peer "u_alex" [(1%Z, 5); (2%Z, 5); (3%Z, 5); (4%Z, 5)]), 1%Z.
    rewrite MOVIE_IDS_eq. unfold COMMUNITY. simpl. repeat split; auto; lia.
  - exists (Peer "u_alex" [(1%Z, 5); (2%Z, 5); (3%Z, 5); (4%Z, 5)]), 1%Z.
    rewrite MOVIE_IDS_eq. unfold COMMUNITY. simpl. repeat split; auto; lia.
  - exists (Peer "u_alex" [(1%Z, 5); (2%Z, 5); (3%Z, 5); (4%Z, 5)]), 1%Z.
    rewrite MOVIE_IDS_eq. unfold COMMUNITY. simpl. repeat split; auto; lia.
  - exists (Peer "u_bianca" [(5%Z, 5); (3%Z, 4)]), 3%Z.
    rewrite MOVIE_IDS_eq. unfold COMMUNITY. simpl. repeat split; auto; lia.
Qed.

(** With a positive rating of a catalog movie the blended map is not
    empty: a peer rated that movie and another one. *)
Lemma index_hybrid_nonempty (mv : movie) (r : Z) (hybrid : dict Z R) :
  In mv MOVIES -> (1 <= r)%Z ->
  index_hybrid [(movie_id mv, IZR r)] = Some hybrid -> hybrid <> [].
Proof.
  intros Hmv Hr Hh.
  destruct (peer_of_movie mv Hmv) as (u & m & Hu & Hku & Hm & Hne & Hcat).
  assert (Hpos : positive_weights [(movie_id mv, IZR r)]).
  { unfold positive_weights. repeat constructor. cbn [snd]. apply (IZR_lt 0). lia. }
  destruct (predict_cf_scores_shared [(movie_id mv, IZR r)] u (movie_id mv) m Hu Hpos)
    as (cf & Hcf & Hin); try assumption; try (simpl; auto; fail).
  { simpl. intros [Heq|[]]. apply Hne. symmetry. exact Heq. }
  destruct (index_hybrid_stages [(movie_id mv, IZR r)])
    as (tfidf & profile & cf' & cb & _ & _ & _ & _ & Hcf' & _ & Hh').
  rewrite Hcf in Hcf'. apply Some_eq in Hcf'. subst cf'.
  rewrite Hh in Hh'. apply Some_eq in Hh'. subst hybrid.
  assert (Hkey : In m (keys (hybrid_scores cf cb 0.6))).
  { apply in_keys_hybrid_scores. split; [exact Hcat|].
    apply scored_true. left.
    pose proof (predict_cf_scores_within 4 5 _ _ _ _ COMMUNITY_ratings_within Hcf) as Hw.
    rewrite Forall_forall in Hw.
    unfold get. destruct (lookup cf m) as [s|] eqn:Hl.
    - apply lookup_In in Hl. specialize (Hw (m, s) Hl). cbn [snd] in Hw. lra.
    - apply lookup_None in Hl. contradiction. }
  intros Hnil. rewrite Hnil in Hkey. exact Hkey.
Qed.

(** X13.  A POST with an ASCII movie name and a rating whose square is
    within float range never raises (beyond that range [math.sqrt] raises
    [OverflowError] in [cosine_sim]).  It yields either an error and no
    list, when no catalog title contains the stripped, lowercased movie
    name, or a list and no error; the list then holds at most 4 catalog
    movies in descending order of score, and at least one when the rating
    is 1 or more. *)
Theorem index_post_recs_or_error :
  forall (movie_name : string) (rating : Z) (prompt : string),
    isascii movie_name = true ->
    Binary64.fits_float (rating * rating) = true ->
  exists page,
    index_post movie_name rating prompt = Some page /\
    ((recs page = None /\ error page <> None /\
      forall mv, In mv MOVIES ->
                 str_in (lower (strip movie_name)) (lower (movie_title mv)) = false) \/
     (error page = None /\
      (exists mv, In mv MOVIES /\
                  str_in (lower (strip movie_name)) (lower (movie_title mv)) = true) /\
      exists rs, recs page = Some rs /\
                 (List.length rs <= 4)%nat /\
                 Forall (fun r => In (fst (fst r)) MOVIES) rs /\
                 StronglySorted (fun r r' => snd (fst r) >= snd (fst r')) rs /\
                 ((1 <= rating)%Z -> rs <> []))).
Proof.
  intros movie_name rating prompt _ _.
  destruct (find (fun m => str_in (lower (strip movie_name)) (lower (movie_title m))) MOVIES)
    as [mv|] eqn:Hfind.
  - destruct (@index_post_found movie_name rating prompt mv Hfind)
      as (cf & cb & boosted & rs & Hcf & Hh & Hb & Hall & Hpage).
    exists (Rendering (Some rs) None). split; [exact Hpage|]. right.
    cbn [recs error]. split; [reflexivity|]. split.
    { exists mv. apply find_some in Hfind. exact Hfind. }
    exists rs. split; [reflexivity|].
    pose proof (@recs_scores prompt (firstn 5 boosted) rs Hall) as Hscores.
    set (h := hybrid_scores cf cb 0.6) in *.
    assert (Hnd : NoDup (keys h)) by apply NoDup_keys_hybrid_scores.
    assert (Hcat : forall k, In k (keys h) -> In k MOVIE_IDS)
      by (intros k; apply hybrid_scores_keys_catalog).
    assert (Hkeys : forall k, In k (keys boosted) <-> In k (keys h)).
    { intros k. apply (@apply_prompt_boost_keys h boosted (Some prompt) k Hnd Hcat Hb). }
    assert (Hdesc : descending boosted).
    { destruct (boost_of_blend_descending cf cb 0.6 (Some prompt)) as (out & Hout & Hd).
      fold h in Hout, Hd. rewrite Hb in Hout. apply Some_eq in Hout. subst out.
      apply (@descending_of_ties (keys h) boosted Hd). }
    split; [|split; [|split]].
    + rewrite <- (length_map (fun r : movie * R * bool => (movie_id (fst (fst r)), snd (fst r)))).
      rewrite Hscores, length_firstn.
      assert (Hlen : (List.length boosted <= 4)%nat).
      { rewrite <- (length_map fst). fold (keys boosted).
        apply (length_without_rated (keys boosted) (movie_id mv)).
        - destruct prompt as [|c p].
          + cbn [apply_prompt_boost] in Hb. apply Some_eq in Hb. subst boosted. exact Hnd.
          + rewrite apply_prompt_boost_nonempty in Hb by (assumption || discriminate).
            apply Some_eq in Hb. subst boosted. apply NoDup_keys_sorted_desc.
            rewrite keys_boosted. exact Hnd.
        - intros k Hk. apply Hcat. apply Hkeys. exact Hk.
        - apply find_some in Hfind. apply in_map. tauto.
        - intros Hin. apply Hkeys in Hin. revert Hin.
          apply (index_hybrid_no_self _ _ (movie_id mv) Hh). simpl. auto. }
      lia.
    + rewrite Forall_forall. intros r Hr.
      destruct (@Forall2_In_r _ _ _ _ _ r Hall Hr) as (e & _ & Hentry).
      apply rec_entry_inv in Hentry. destruct Hentry as (m & Hm & ->). cbn [fst].
      unfold movie_by_id in Hm. apply find_some in Hm. tauto.
    + apply (@StronglySorted_map_inv _ _ (fun x y : Z * R => snd x >= snd y)
               (fun r : movie * R * bool => (movie_id (fst (fst r)), snd (fst r))) rs).
      rewrite Hscores. apply StronglySorted_firstn. exact Hdesc.
    + intros Hr Hnil. subst rs. cbn [map] in Hscores.
      assert (Hempty : boosted = []) by (destruct boosted; [reflexivity | discriminate]).
      assert (Hmv : In mv MOVIES) by (apply find_some in Hfind; tauto).
      destruct h as [|[k s] h'] eqn:Eh;
        [exact (index_hybrid_nonempty mv rating _ Hmv Hr Hh eq_refl)|].
      assert (Hk : In k (keys boosted)) by (apply Hkeys; simpl; auto).
      rewrite Hempty in Hk. exact Hk.
  - unfold index_post. rewrite Hfind. eexists. split; [reflexivity|]. left.
    cbn [recs error]. split; [reflexivity | split; [discriminate|]].
    intros mv Hmv. apply (find_none _ _ Hfind mv Hmv).
Qed.

(** The property at the request "Inception", 5, "sci-fi". *)
Lemma index_post_recs_or_error_witness :
  isascii "Inception" = true /\ Binary64.fits_float (5 * 5) = true /\
  exists page,
    index_post "Inception" 5 "sci-fi" = Some page /\
    ((recs page = None /\ error page <> None /\
      forall mv, In mv MOVIES ->
                 str_in (lower (strip "Inception")) (lower (movie_title mv)) = false) \/
     (error page = None /\
      (exists mv, In mv MOVIES /\
                  str_in (lower (strip "Inception")) (lower (movie_title mv)) = true) /\
      exists rs, recs page = Some rs /\
                 (List.length rs <= 4)%nat /\
                 Forall (fun r => In (fst (fst r)) MOVIES) rs /\
                 StronglySorted (fun r r' => snd (fst r) >= snd (fst r')) rs /\
                 ((1 <= 5)%Z -> rs <> []))).
Proof.
  assert (Hname : isascii "Inception" = true) by reflexivity.
  assert (Hfit : Binary64.fits_float (5 * 5) = true) by reflexivity.
  split; [exact Hname | split; [exact Hfit|]].
  exact (index_post_recs_or_error "Inception" 5 "sci-fi" Hname Hfit).
Defined.


